(** * DeerLab [snlls]: separable non-linear least squares

    A shallow embedding of [deerlab/snlls.py]: the function [snlls], its
    closure [ResidualsFcn], the wrapper [ci] it attaches to the uncertainty
    object, and the helper [_augment].

    Layout of the development:
    - scalars: the float64 operations the source uses, as small interfaces
      with an IEEE instance (primitive floats); the C library's [pow] stays
      a parameter;
    - Python values whose behaviour the source depends on: exceptions,
      [str] objects compared with [is], and the operations on Python floats
      that raise;
    - numpy vectors and matrices as lists, with the shape errors numpy raises;
    - a state-and-error monad for the closure variables that [ResidualsFcn]
      declares [nonlocal];
    - the code of [snlls.py], function by function;
    - the properties of the specification, claim by claim;
    - further properties of [snlls.py]: validation, shapes and failures of
      [_augment], the calls on record, the uncertainty analysis, exceptions. *)

From Stdlib Require Import String List ZArith Bool Lia.
From Stdlib Require Import Uint63 PrimFloat.
From Stdlib Require FloatAxioms.
Import ListNotations.

Set Implicit Arguments.

(** ** Scalars *)

(** The arithmetic that [_augment] and the residual computation perform on
    array elements.  [f_of_Z] stands for the integer literals of the source
    ([1], [2], [4], [10], ...); [fpow_int] is [x**n] with an integer literal
    exponent. *)
Class Arith (F : Type) := {
  f_of_Z : Z -> F;
  fadd : F -> F -> F;
  fsub : F -> F -> F;
  fmul : F -> F -> F;
  fdiv : F -> F -> F;
  fpow_int : F -> Z -> F;
  fsqrt : F -> F;
  feps : F            (* np.finfo(float).eps *)
}.

(** [x**e] with a float exponent.  numpy hands it to the [pow] of the C
    library, which is not part of this repository and is not correctly
    rounded: it is a parameter of the development, and no statement rests
    on its values. *)
Class Libm (F : Type) := {
  fpow : F -> F -> F
}.

(** Comparisons and the special values of float64 used by the validation
    code, the alpha cache and [np.argmin]. *)
Class Order (F : Type) := {
  fabs : F -> F;
  fneg : F -> F;
  fltb : F -> F -> bool;     (* a < b  *)
  fleb : F -> F -> bool;     (* a <= b *)
  feqb : F -> F -> bool;     (* a == b *)
  finf : F;                  (* np.inf *)
  fisinf : F -> bool;        (* np.isinf *)
  fisnan : F -> bool;        (* np.isnan *)
  ftrunc : F -> Z            (* the integer part of a finite number *)
}.

Declare Scope num_scope.
Delimit Scope num_scope with num.
Notation "a + b" := (fadd a b) : num_scope.
Notation "a - b" := (fsub a b) : num_scope.
Notation "a * b" := (fmul a b) : num_scope.
Notation "a / b" := (fdiv a b) : num_scope.
Notation "a <? b" := (fltb a b) : num_scope.
Notation "a >? b" := (fltb b a) (only parsing) : num_scope.
Notation "a <=? b" := (fleb a b) : num_scope.
Notation "a >=? b" := (fleb b a) (only parsing) : num_scope.
Notation "a =? b" := (feqb a b) : num_scope.
Notation "# z" := (f_of_Z z) (at level 5, format "# z") : num_scope.

(** *** IEEE binary64 *)

Module F64.

Definition of_Z (z : Z) : float :=
  match z with
  | Z0 => PrimFloat.zero
  | Zpos _ => PrimFloat.of_uint63 (Uint63.of_Z z)
  | Zneg p => PrimFloat.opp (PrimFloat.of_uint63 (Uint63.of_Z (Zpos p)))
  end.

(** Integer powers by repeated multiplication. *)
Definition pow_int (x : float) (n : Z) : float :=
  match n with
  | Z0 => PrimFloat.one
  | Zpos p => Pos.iter (fun a => PrimFloat.mul a x) PrimFloat.one p
  | Zneg p =>
      PrimFloat.div PrimFloat.one
        (Pos.iter (fun a => PrimFloat.mul a x) PrimFloat.one p)
  end.

Definition isinf (x : float) : bool :=
  PrimFloat.eqb (PrimFloat.abs x) PrimFloat.infinity.

Definition isnan (x : float) : bool := negb (PrimFloat.eqb x x).

(** The integer part of a finite float, rounded towards zero: the value
    [m * 2^e] of its mantissa and exponent. *)
Definition trunc (x : float) : Z :=
  match FloatOps.Prim2SF x with
  | SpecFloat.S754_finite sign m e =>
      let v := if (0 <=? e)%Z then (Zpos m * 2 ^ e)%Z
               else Z.shiftr (Zpos m) (- e) in
      if sign then (- v)%Z else v
  | _ => 0%Z
  end.

#[export] Instance arith : Arith float := {|
  f_of_Z := of_Z;
  fadd := PrimFloat.add;
  fsub := PrimFloat.sub;
  fmul := PrimFloat.mul;
  fdiv := PrimFloat.div;
  fpow_int := pow_int;
  fsqrt := PrimFloat.sqrt;
  feps := 0x1p-52%float
|}.

#[export] Instance order : Order float := {|
  fabs := PrimFloat.abs;
  fneg := PrimFloat.opp;
  fltb := PrimFloat.ltb;
  fleb := PrimFloat.leb;
  feqb := PrimFloat.eqb;
  finf := PrimFloat.infinity;
  fisinf := isinf;
  fisnan := isnan;
  ftrunc := trunc
|}.

End F64.

(** ** Python exceptions *)

Inductive exn : Type :=
| TypeError (msg : string)
| ValueError (msg : string)
| NameError (var : string)          (* free variable referenced before assignment *)
| UnboundLocalError (var : string)  (* local variable referenced before assignment *)
| IndexError (msg : string)
| ZeroDivisionError (msg : string)
| OverflowError (msg : string).

Inductive result (A : Type) : Type :=
| Ok (a : A)
| Raise (e : exn).
Arguments Ok {A} a.
Arguments Raise {A} e.

Definition rbind {A B} (m : result A) (k : A -> result B) : result B :=
  match m with
  | Ok a => k a
  | Raise e => Raise e
  end.

Declare Scope res_scope.
Delimit Scope res_scope with res.
Notation "x <- m ;; k" := (rbind m (fun x => k))
  (at level 61, m at next level, right associativity) : res_scope.
Notation "' p <- m ;; k" := (rbind m (fun p => k))
  (at level 61, p pattern, m at next level, right associativity) : res_scope.

Definition is_ok {A} (r : result A) : bool :=
  match r with Ok _ => true | Raise _ => false end.

(** ** Python strings and the operator [is]

    [regtype is 'tikhonov'] compares identities, not contents.  The literals
    of the source are interned by CPython, and so are the literals a caller
    writes: an interned [str] is the one object with its text, and [is]
    holds between two of them exactly when the texts are equal.  A [str]
    built at run time (joined, formatted, read from a file, a numpy string)
    is not interned, and is not identical to any literal, whatever its
    text. *)
Record pystr : Type := {
  text : string;
  interned : bool
}.

Bind Scope string_scope with pystr.

(** A literal. *)
Definition lit (s : string) : pystr := {| text := s; interned := true |}.
Coercion lit : string >-> pystr.

(** [s is 'l'] for a literal ['l'] of the source. *)
Definition is_literal (s : pystr) (l : string) : bool :=
  interned s && String.eqb (text s) l.

(** ** numpy arrays *)

Section Arrays.

Context {F : Type}.

(** One-dimensional arrays are lists; a two-dimensional array is the list
    of its rows. *)
Definition vec := list F.
Definition matrix := list (list F).

Definition nrows (A : matrix) : nat := length A.

(** [np.shape(A)[1]] *)
Definition ncols (A : matrix) : nat :=
  match A with
  | [] => 0
  | r :: _ => length r
  end.

(** [np.size(A)] *)
Definition msize (A : matrix) : nat := length (concat A).

Definition shape_error {A} : result A :=
  Raise (ValueError "operands could not be broadcast together").

(** Element-wise binary operation with numpy's broadcasting rule for
    one-dimensional operands: equal lengths, or one operand of length 1. *)
Definition bcast2 {B} (f : F -> F -> B) (a b : vec) : result (list B) :=
  if Nat.eqb (length a) (length b) then
    Ok (map (fun '(x, y) => f x y) (combine a b))
  else
    match a, b with
    | [x], _ => Ok (map (fun y => f x y) b)
    | _, [y] => Ok (map (fun x => f x y) a)
    | _, _ => shape_error
    end.

(** [a[idx]] with an integer index array. *)
Fixpoint take {B} (a : list B) (idx : list nat) : result (list B) :=
  match idx with
  | [] => Ok []
  | i :: rest =>
      match nth_error a i with
      | None => Raise (IndexError "index out of bounds")
      | Some x => rbind (take a rest) (fun xs => Ok (x :: xs))
      end
  end.

(** [np.concatenate((A, B), 1)]: the operands need as many rows. *)
Definition hstack (A B : matrix) : result matrix :=
  if Nat.eqb (nrows A) (nrows B) then
    Ok (map (fun '(r, s) => r ++ s) (combine A B))
  else Raise (ValueError "all the input array dimensions except for the concatenation axis must match exactly").

(** [np.concatenate((A, B))] on matrices: the rows need one length. *)
Definition vstack (A B : matrix) : result matrix :=
  match A, B with
  | ra :: _, rb :: _ =>
      if Nat.eqb (length ra) (length rb) then Ok (A ++ B)
      else Raise (ValueError "all the input array dimensions except for the concatenation axis must match exactly")
  | _, _ => Ok (A ++ B)
  end.

Context `{Arith F}.

(** The inner product behind [@], summed from the left; the order in which
    numpy's BLAS adds the products is its own. *)
Definition dot (a b : vec) : F :=
  fold_left (fun acc '(x, y) => (acc + x * y)%num) (combine a b) (#0)%num.

(** [A @ x] *)
Definition matvec (A : matrix) (x : vec) : result vec :=
  if forallb (fun r => Nat.eqb (length r) (length x)) A then
    Ok (map (fun r => dot r x) A)
  else Raise (ValueError "matmul: mismatch in core dimension").

(** [a * v] and [a * A] for a scalar [a]. *)
Definition vscale (a : F) (v : vec) : vec := map (fmul a) v.
Definition mscale (a : F) (A : matrix) : matrix := map (vscale a) A.

(** [v[:, np.newaxis] * A]: row [i] of [A] times [v[i]]. *)
Definition row_scale (v : vec) (A : matrix) : matrix :=
  map (fun '(vi, r) => vscale vi r) (combine v A).

(** [np.zeros((n, m))], [np.eye(n, n)], [np.full(n, a)] *)
Definition zeros (n m : nat) : matrix := repeat (repeat (#0)%num m) n.
Definition eye (n : nat) : matrix :=
  map (fun i => map (fun j => if Nat.eqb i j then (#1)%num else (#0)%num) (seq 0 n))
      (seq 0 n).
Definition full (n : nat) (a : F) : vec := repeat a n.

End Arrays.

Arguments vec : clear implicits.
Arguments matrix : clear implicits.

(** ** Python floats

    [huberparam] and [nonLinMaxIter] are Python floats (the defaults [1.35]
    and [1e8] are), and three operations of the source on them raise where
    numpy's would return [inf] or [nan]. *)

Section PythonFloats.

Context {F : Type} `{Arith F} `{Libm F} `{Order F}.
Local Open Scope num_scope.

(** [x**2]: the C library's [pow(x, 2.0)], with an [OverflowError] when the
    power of a finite number is not finite; an infinite or [nan] operand is
    passed through. *)
Definition py_pow2 (x : F) : result F :=
  let s := fpow x #2 in
  if fisinf s && negb (fisinf x)
  then Raise (OverflowError "(34, 'Numerical result out of range')")
  else Ok s.

(** [a/b] *)
Definition py_div (a b : F) : result F :=
  if b =? #0 then Raise (ZeroDivisionError "float division by zero")
  else Ok (a / b).

(** [int(x)] *)
Definition py_int (x : F) : result Z :=
  if fisnan x then Raise (ValueError "cannot convert float NaN to integer")
  else if fisinf x
  then Raise (OverflowError "cannot convert float infinity to integer")
  else Ok (ftrunc x).

End PythonFloats.

(** ** [_augment]: residual and Jacobian augmentation *)

Section Augment.

Context {F : Type} {arithF : Arith F} {libmF : Libm F} {orderF : Order F}.
Local Open Scope num_scope.

(** The literal [0.5]. *)
Definition half : F := #1 / #2.

(** Lines 345-353: the penalty residual [resreg] and its Jacobian [Jreg]
    for the three literals that [regtype] is compared with.  For any other
    object, a string with the text of a literal included, no branch binds
    the two locals, and line 356 reads an unbound variable.  In the Huber
    branch the factor [0.5/(eta**2)] is computed on Python floats, after
    [resreg] and before the array it multiplies. *)
Definition penalty_terms (regtype : pystr) (L : matrix F) (x : vec F) (eta : F)
  : result (vec F * matrix F) :=
  if is_literal regtype "tikhonov" then
    (Lx <- matvec L x ;;
     Ok (Lx, L))%res
  else if is_literal regtype "tv" then
    (Lx <- matvec L x ;;
     Ok (map (fun r => fpow (fpow_int r 2 + feps) (#1 / #4)) Lx,
         mscale (#2 / #4)
           (row_scale
              (map (fun r => fpow (fpow_int r 2 + feps) (#(-3) / #4) * r) Lx)
              L)))%res
  else if is_literal regtype "huber" then
    (Lx <- matvec L x ;;
     let resreg := map (fun r => fsqrt (fsqrt (fpow_int (r / eta) 2 + #1) - #1)) Lx in
     eta2 <- py_pow2 eta ;;
     c <- py_div half eta2 ;;
     Ok (resreg,
         mscale c
           (row_scale
              (map (fun r =>
                      fpow (fsqrt (fpow_int (r / eta) 2 + #1) - #1 + feps) (#(-1) / #2)
                      * fpow (fpow_int (r / eta) 2 + #1 + feps) (#(-1) / #2)
                      * r) Lx)
              L)))%res
  else Raise (UnboundLocalError "resreg").

Definition _augment (res : vec F) (J : matrix F) (regtype : pystr) (alpha : F)
    (L : matrix F) (x : vec F) (eta : F) (Nnonlin : nat)
  : result (vec F * matrix F) :=
  ('(resreg, Jreg) <- penalty_terms regtype L x eta ;;
   (* Include regularization parameter *)
   let resreg := vscale alpha resreg in
   let Jreg := mscale alpha Jreg in
   (* Augment jacobian and residual *)
   let res := res ++ resreg in
   if negb (Nat.eqb (msize J) 0) then
     Jreg <- hstack (zeros (nrows L) Nnonlin) Jreg ;;
     J <- vstack J Jreg ;;
     Ok (res, J)
   else Ok (res, J))%res.

End Augment.

(** ** State and errors

    [ResidualsFcn] reads and writes four variables of the enclosing call of
    [snlls]; a computation is a function of that store which returns a value
    or an exception together with the store it leaves. *)

Definition M (S A : Type) : Type := S -> result A * S.

Definition ret {S A} (a : A) : M S A := fun s => (Ok a, s).

Definition raise {S A} (e : exn) : M S A := fun s => (Raise e, s).

Definition bind {S A B} (m : M S A) (k : A -> M S B) : M S B :=
  fun s =>
    match m s with
    | (Ok a, s') => k a s'
    | (Raise e, s') => (Raise e, s')
    end.

Definition lift {S A} (r : result A) : M S A := fun s => (r, s).

Definition modify {S} (f : S -> S) : M S unit := fun s => (Ok tt, f s).

Declare Scope m_scope.
Delimit Scope m_scope with M.
Notation "x <~ m ;; k" := (bind m (fun x => k))
  (at level 61, m at next level, right associativity) : m_scope.
Notation "' p <~ m ;; k" := (bind m (fun p => k))
  (at level 61, p pattern, m at next level, right associativity) : m_scope.
Notation "m ;;; k" := (bind m (fun _ => k))
  (at level 61, right associativity) : m_scope.

(** ** The arguments of [snlls] *)

(** [regparam] is a selection method (a [str]) or a value. *)
Inductive regparam_t (F : Type) : Type :=
| Method (name : string)
| Value (alpha : F).
Arguments Method {F} name.
Arguments Value {F} alpha.

(** The arguments as they stand after line 109: [y], [weights] and [subsets]
    are what [parse_multidatasets] returned. *)
Record Args (F : Type) : Type := {
  y : vec F;
  par0 : vec F;
  lb : vec F;
  ub : vec F;
  lbl : vec F;
  ubl : vec F;
  nnlsSolver : pystr;
  penalty : option bool;        (* None, True or False *)
  weights : vec F;
  regtype : pystr;
  regparam : regparam_t F;
  multiStarts : Z;
  regOrder : Z;
  alphaOptThreshold : F;
  nonLinTolFun : F;
  nonLinMaxIter : F;
  linTolFun : F;
  linMaxIter : F;
  huberparam : F;
  uqanalysis : bool;
  subsets : list (list nat)
}.

(** Calls that differ from another call in some keyword arguments. *)
Section Keywords.

Context {F : Type}.

Definition with_bounds (lo hi : vec F) (a : Args F) : Args F := {|
  y := y a; par0 := par0 a; lb := lo; ub := hi; lbl := lbl a; ubl := ubl a;
  nnlsSolver := nnlsSolver a; penalty := penalty a; weights := weights a;
  regtype := regtype a; regparam := regparam a; multiStarts := multiStarts a;
  regOrder := regOrder a; alphaOptThreshold := alphaOptThreshold a;
  nonLinTolFun := nonLinTolFun a; nonLinMaxIter := nonLinMaxIter a;
  linTolFun := linTolFun a; linMaxIter := linMaxIter a;
  huberparam := huberparam a; uqanalysis := uqanalysis a; subsets := subsets a
|}.

Definition with_lin_bounds (lo hi : vec F) (a : Args F) : Args F := {|
  y := y a; par0 := par0 a; lb := lb a; ub := ub a; lbl := lo; ubl := hi;
  nnlsSolver := nnlsSolver a; penalty := penalty a; weights := weights a;
  regtype := regtype a; regparam := regparam a; multiStarts := multiStarts a;
  regOrder := regOrder a; alphaOptThreshold := alphaOptThreshold a;
  nonLinTolFun := nonLinTolFun a; nonLinMaxIter := nonLinMaxIter a;
  linTolFun := linTolFun a; linMaxIter := linMaxIter a;
  huberparam := huberparam a; uqanalysis := uqanalysis a; subsets := subsets a
|}.

Definition with_penalty (b : option bool) (r : regparam_t F) (a : Args F)
  : Args F := {|
  y := y a; par0 := par0 a; lb := lb a; ub := ub a; lbl := lbl a; ubl := ubl a;
  nnlsSolver := nnlsSolver a; penalty := b; weights := weights a;
  regtype := regtype a; regparam := r; multiStarts := multiStarts a;
  regOrder := regOrder a; alphaOptThreshold := alphaOptThreshold a;
  nonLinTolFun := nonLinTolFun a; nonLinMaxIter := nonLinMaxIter a;
  linTolFun := linTolFun a; linMaxIter := linMaxIter a;
  huberparam := huberparam a; uqanalysis := uqanalysis a; subsets := subsets a
|}.

Definition with_names (rt solver : pystr) (a : Args F) : Args F := {|
  y := y a; par0 := par0 a; lb := lb a; ub := ub a; lbl := lbl a; ubl := ubl a;
  nnlsSolver := solver; penalty := penalty a; weights := weights a;
  regtype := rt; regparam := regparam a; multiStarts := multiStarts a;
  regOrder := regOrder a; alphaOptThreshold := alphaOptThreshold a;
  nonLinTolFun := nonLinTolFun a; nonLinMaxIter := nonLinMaxIter a;
  linTolFun := linTolFun a; linMaxIter := linMaxIter a;
  huberparam := huberparam a; uqanalysis := uqanalysis a; subsets := subsets a
|}.

Definition with_starts (n : Z) (p0 : vec F) (a : Args F) : Args F := {|
  y := y a; par0 := p0; lb := lb a; ub := ub a; lbl := lbl a; ubl := ubl a;
  nnlsSolver := nnlsSolver a; penalty := penalty a; weights := weights a;
  regtype := regtype a; regparam := regparam a; multiStarts := n;
  regOrder := regOrder a; alphaOptThreshold := alphaOptThreshold a;
  nonLinTolFun := nonLinTolFun a; nonLinMaxIter := nonLinMaxIter a;
  linTolFun := linTolFun a; linMaxIter := linMaxIter a;
  huberparam := huberparam a; uqanalysis := uqanalysis a; subsets := subsets a
|}.

Definition without_uq (a : Args F) : Args F := {|
  y := y a; par0 := par0 a; lb := lb a; ub := ub a; lbl := lbl a; ubl := ubl a;
  nnlsSolver := nnlsSolver a; penalty := penalty a; weights := weights a;
  regtype := regtype a; regparam := regparam a; multiStarts := multiStarts a;
  regOrder := regOrder a; alphaOptThreshold := alphaOptThreshold a;
  nonLinTolFun := nonLinTolFun a; nonLinMaxIter := nonLinMaxIter a;
  linTolFun := linTolFun a; linMaxIter := linMaxIter a;
  huberparam := huberparam a; uqanalysis := false; subsets := subsets a
|}.

End Keywords.

(** ** Collaborators

    What [snlls] calls and this file does not contain: the model, numpy and
    scipy routines, and the helpers of the other DeerLab modules. *)

(** [scipy.optimize.least_squares], as far as [snlls] can observe it.  The
    solver checks its arguments and raises, or chooses the point of its first
    evaluation (the start point, moved strictly inside the bounds when it
    lies on one); after each evaluation it raises, stops, or chooses the next
    point from the evaluations so far, at most [lsq_fuel] more times; it then
    reports a solution and its cost.  It always evaluates the objective
    before it returns. *)
Record lsq_solver (F : Type) : Type := {
  lsq_start : result (vec F);
  lsq_fuel : nat;
  lsq_next : list (vec F * vec F) -> result (option (vec F));
  lsq_sol : list (vec F * vec F) -> vec F * F
}.

Record Collaborators (F Stat : Type) : Type := {
  Amodel : vec F -> matrix F;
  cond : matrix F -> F;                                   (* np.linalg.cond *)
  regoperator : vec F -> Z -> matrix F;                   (* dl.regoperator *)
  selregparam : vec F -> matrix F -> vec F -> pystr -> string -> Z -> F;
  lsqcomponents :
    vec F -> matrix F -> matrix F -> F -> vec F -> pystr -> matrix F * vec F;
  solve : matrix F -> vec F -> vec F;                     (* numpy.linalg.solve *)
  lsq_linear : matrix F -> vec F -> vec F -> vec F -> vec F;  (* .x of the result *)
  fnnls : matrix F -> vec F -> F -> vec F;
  nnlsbpp : matrix F -> vec F -> vec F -> vec F;
  cvxnnls : matrix F -> vec F -> F -> vec F;
  (* least_squares(fun, x0, bounds=(lb,ub), max_nfev=..., ftol=...) *)
  least_squares_impl : vec F -> vec F -> vec F -> Z -> F -> lsq_solver F;
  (* dl.utils.multistarts(multiStarts,par0,lb,ub): the seeds, or an exception *)
  multistarts : Z -> vec F -> vec F -> vec F -> result (list (vec F));
  jacobianest : (vec F -> result (vec F)) -> vec F -> matrix F;
  hccm : matrix F -> vec F -> matrix F;
  (* dl.uqst('covariance',parfit,covmatrix,lbs,ubs).ci(coverage) *)
  uqst_ci : vec F -> matrix F -> vec F -> vec F -> F -> matrix F;
  goodness_of_fit : vec F -> vec F -> Z -> Stat
}.

(** ** The closure variables and the calls that are observed *)

Record closure (F : Type) : Type := {
  check : bool;
  regparam_prev : F;
  par_prev : vec F;
  linfit : vec F
}.

(** Calls of collaborators, recorded in the order they happen.  The record is
    not part of the program; it is what statements of the form
    "before any solver is called" are about. *)
Inductive event (F : Type) : Type :=
| EvLeastSquares (x0 : vec F)     (* least_squares is entered *)
| EvResiduals (p : vec F)         (* ResidualsFcn is entered *)
| EvSelregparam (p : vec F)       (* dl.selregparam is called *)
| EvLinSolver.                    (* linSolver is called *)
Arguments EvLinSolver {F}.

Record world (F : Type) : Type := {
  cl : closure F;
  events : list (event F)
}.

Section World.

Context {F : Type}.

Definition emit (e : event F) : M (world F) unit :=
  modify (fun w => {| cl := cl w; events := events w ++ [e] |}).

Definition update (f : closure F -> closure F) : M (world F) unit :=
  modify (fun w => {| cl := f (cl w); events := events w |}).

Definition set_check (b : bool) (c : closure F) : closure F :=
  {| check := b; regparam_prev := regparam_prev c;
     par_prev := par_prev c; linfit := linfit c |}.

Definition set_regparam_prev (a : F) (c : closure F) : closure F :=
  {| check := check c; regparam_prev := a;
     par_prev := par_prev c; linfit := linfit c |}.

Definition set_par_prev (p : vec F) (c : closure F) : closure F :=
  {| check := check c; regparam_prev := regparam_prev c;
     par_prev := p; linfit := linfit c |}.

Definition set_linfit (x : vec F) (c : closure F) : closure F :=
  {| check := check c; regparam_prev := regparam_prev c;
     par_prev := par_prev c; linfit := x |}.

Definition read {A} (f : closure F -> A) : M (world F) A :=
  fun w => (Ok (f (cl w)), w).

End World.

(** Truth value of [penalty] / [includePenalty] in a condition. *)
Definition truthy (o : option bool) : bool :=
  match o with
  | Some b => b
  | None => false
  end.

(** ** [ci]: the wrapper around the confidence-interval query (lines 302-313)

    [paramuq_ci] is the [ci] method of the uncertainty object built by
    [dl.uqst] for the joined parameter set. *)
Definition ci {F : Type} (paramuq_ci : F -> matrix F) (Nnonlin : nat)
    (coverage : F) (type : string) : result (matrix F) :=
  (* Get requested confidence interval of joined parameter set *)
  let paramci := paramuq_ci coverage in
  if String.eqb type "nonlin" then
    (* paramci[range(Nnonlin),:] *)
    take paramci (seq 0 Nnonlin)
  else if String.eqb type "lin" then
    (* paramci[Nnonlin:,:] *)
    Ok (skipn Nnonlin paramci)
  else Ok paramci.

(** ** [np.argmin] on a list of floats

    numpy keeps the first element and replaces it by every later element
    that is not [>=] the current minimum; a [nan] ends the scan and is
    reported as the minimum. *)
Section Argmin.

Context {F : Type} `{Order F}.
Local Open Scope num_scope.

Fixpoint argmin_scan (mp : F) (min_ind i : nat) (xs : list F) : nat :=
  match xs with
  | [] => min_ind
  | x :: rest =>
      if negb (x >=? mp) then
        if fisnan x then i else argmin_scan x i (S i) rest
      else argmin_scan mp min_ind (S i) rest
  end.

Definition argmin (xs : list F) : result nat :=
  match xs with
  | [] => Raise (ValueError "attempt to get argmin of an empty sequence")
  | x :: rest => Ok (if fisnan x then 0%nat else argmin_scan x 0 1 rest)
  end.

End Argmin.

(** [l[i]] on a Python list. *)
Definition index {A} (l : list A) (i : nat) : result A :=
  match nth_error l i with
  | Some x => Ok x
  | None => Raise (IndexError "list index out of range")
  end.

Fixpoint mapR {A B} (f : A -> result B) (l : list A) : result (list B) :=
  match l with
  | [] => Ok []
  | x :: rest => (b <- f x ;; bs <- mapR f rest ;; Ok (b :: bs))%res
  end.

(** ** [snlls] *)

(** What [snlls] returns.  [paramuq] is the method [ci] that line 317 installs
    on the uncertainty object, or nothing when [uqanalysis] is off. *)
Record output (F Stat : Type) : Type := {
  nonlinfit : vec F;
  linfit_out : vec F;
  paramuq : option (F -> string -> result (matrix F));
  stats : Stat + list Stat
}.

Section Snlls.

Context {F Stat : Type} {arithF : Arith F} {libmF : Libm F} {orderF : Order F}.
Variable E : Collaborators F Stat.
Variable a : Args F.
Local Open Scope num_scope.

(** *** Lines 111-122: problem size and conditioning *)

Definition A0 : matrix F := Amodel E (par0 a).
Definition Nnonlin : nat := length (par0 a).
Definition Nlin : nat := ncols A0.

Definition illConditioned : bool := cond E A0 >? #10.

Definition includePenalty : option bool :=
  if illConditioned && match penalty a with None => true | Some _ => false end
  then Some true
  else penalty a.

(** *** Lines 124-150: bounds *)

Definition lb' : vec F :=
  if Nat.eqb (length (lb a)) 0 then full Nnonlin (fneg finf) else lb a.
Definition ub' : vec F :=
  if Nat.eqb (length (ub a)) 0 then full Nnonlin finf else ub a.
Definition lbl' : vec F :=
  if Nat.eqb (length (lbl a)) 0 then full Nlin (fneg finf) else lbl a.
Definition ubl' : vec F :=
  if Nat.eqb (length (ubl a)) 0 then full Nlin finf else ubl a.

(** [np.any(u < v)] *)
Definition any_lt (u v : vec F) : result bool :=
  (r <- bcast2 fltb u v ;; Ok (existsb (fun b => b) r))%res.

(** [e1 or e2] where [e2] is evaluated only when [e1] is false. *)
Definition or_else (e1 e2 : result bool) : result bool :=
  (b <- e1 ;; if b then Ok true else e2)%res.

Definition msg_nonlin_len : string :=
  "The lower/upper bounds of the non-linear problem must have Nnonlin elements".
Definition msg_lin_len : string :=
  "The lower/upper bounds of the linear problem must have Nlin elements".
Definition msg_bounds : string :=
  "The upper bounds cannot be larger than the lower bounds.".
Definition msg_start : string :=
  "The start values are outside of the specified bounds.".
Definition msg_multistart : string :=
  "Multistart optimization cannot be used with unconstrained non-linear parameters.".

Definition check_bounds : result unit :=
  (* Check that the correct number of boundaries are given *)
  if negb (Nat.eqb (length lb') Nnonlin) || negb (Nat.eqb (length ub') Nnonlin)
  then Raise (TypeError msg_nonlin_len)
  else if negb (Nat.eqb (length lbl') Nlin) || negb (Nat.eqb (length ubl') Nlin)
  then Raise (TypeError msg_lin_len)
  else
    (* Check that the boundaries are valid *)
    (bad <- or_else (any_lt ub' lb') (any_lt ubl' lbl') ;;
     if bad then Raise (ValueError msg_bounds)
     else
       (* Check that the non-linear start values are inside the box constraint *)
       out <- or_else (any_lt ub' (par0 a)) (any_lt (par0 a) lb') ;;
       if out then Raise (ValueError msg_start)
       else Ok tt)%res.

(** *** Lines 153-167: kind of problem and regularization operator *)

Definition nonLinearConstrained : bool :=
  negb (forallb fisinf lb') || negb (forallb fisinf ub').
Definition linearConstrained : bool :=
  negb (forallb fisinf lbl') || negb (forallb fisinf ubl').
Definition nonNegativeOnly : bool :=
  forallb (fun x => x =? #0) lbl' && forallb fisinf ubl'.

(** [np.arange(1,Nlin+1)] *)
Definition ax : vec F := map (fun i => #(Z.of_nat i)) (seq 1 Nlin).

(** [regOrder] after line 164; only read when the penalty is included. *)
Definition regOrder' : Z := Z.min (Z.of_nat Nlin - 1) (regOrder a).

Definition L : matrix F :=
  if truthy includePenalty then regoperator E ax regOrder' else eye Nlin.

(** *** Lines 169-190: the linear solver

    [linSolver] is bound in one branch of each conditional; where no branch
    applies it stays unbound, which [None] stands for.  [nnlsSolver] is
    compared with [is].  [parseResult] is part of the solvers here:
    [lsq_linear] yields the field [x] of its result. *)
Definition linSolver : option (matrix F -> vec F -> vec F) :=
  if negb linearConstrained then
    Some (fun AtA Aty => solve E AtA Aty)
  else if linearConstrained && negb nonNegativeOnly then
    Some (fun AtA Aty => lsq_linear E AtA Aty lbl' ubl')
  else if linearConstrained && nonNegativeOnly then
    if is_literal (nnlsSolver a) "fnnls" then
      Some (fun AtA Aty => fnnls E AtA Aty (linTolFun a))
    else if is_literal (nnlsSolver a) "nnlsbpp" then
      Some (fun AtA Aty => nnlsbpp E AtA Aty (solve E AtA Aty))
    else if is_literal (nnlsSolver a) "cvx" then
      Some (fun AtA Aty => cvxnnls E AtA Aty (linTolFun a))
    else None
  else None.

(** *** Lines 192-195: containers for the alpha-update checks *)

Definition init_closure : closure F :=
  {| check := false;
     regparam_prev := #0;
     par_prev := repeat #0 (length (par0 a));
     linfit := repeat #0 Nlin |}.

Definition init_world : world F := {| cl := init_closure; events := [] |}.

(** *** Lines 197-250: [ResidualsFcn] *)

(** [all(abs(par_prev-p)/p < alphaOptThreshold)] *)
Definition small_change (par_prev p : vec F) : result bool :=
  (d <- bcast2 fsub par_prev p ;;
   q <- bcast2 fdiv (map fabs d) p ;;
   Ok (forallb (fun r => r <? alphaOptThreshold a) q))%res.

Definition select_alpha (A : matrix F) (p : vec F) : M (world F) F :=
  (match regparam a with
   | Method name =>
       chk <~ read (@check F) ;;
       prev <~ read (@par_prev F) ;;
       (* If the parameter vector has not changed by much... *)
       same <~ (if chk then lift (small_change prev p) else ret false) ;;
       if same then
         (* ...use the alpha optimized in the previous iteration *)
         read (@regparam_prev F)
       else
         (* ...otherwise optimize with current settings *)
         emit (EvSelregparam p) ;;;
         let alpha := selregparam E (y a) A ax (regtype a) name regOrder' in
         update (set_check true) ;;;
         ret alpha
   | Value alpha =>
       (* Fixed regularization parameter *)
       ret alpha
   end)%M.

Definition call_linSolver (AtA : matrix F) (Aty : vec F) : M (world F) (vec F) :=
  match linSolver with
  | Some f => (emit EvLinSolver ;;; ret (f AtA Aty))%M
  | None => raise (NameError "linSolver")
  end.

(** Lines 209-230: the regularization parameter of this call. *)
Definition regularization (A : matrix F) (p : vec F) : M (world F) F :=
  (if truthy includePenalty then
     alpha <~ select_alpha A p ;;
     (* Store current iteration data for next one *)
     update (set_par_prev p) ;;;
     update (set_regparam_prev alpha) ;;;
     ret alpha
   else
     (* Non-linear operator without penalty *)
     ret #0)%M.

(** Lines 232-249: linear fit and residual vector. *)
Definition residual (A : matrix F) (alpha : F) : M (world F) (vec F) :=
  ((* Components for linear least-squares *)
   let '(AtA, Aty) := lsqcomponents E (y a) A L alpha (weights a) (regtype a) in
   (* Solve the linear least-squares problem *)
   x <~ call_linSolver AtA Aty ;;
   update (set_linfit x) ;;;
   (* Evaluate full model residual *)
   yfit <~ lift (matvec A x) ;;
   (* Compute residual vector *)
   res <~ lift (bcast2 fsub yfit (y a)) ;;
   if truthy includePenalty then
     penalty <~ lift (matvec (mscale alpha L) x) ;;
     (* Augmented residual *)
     let res := res ++ penalty in
     '(res, _) <~ lift (_augment res [] (regtype a) alpha L x (huberparam a) Nnonlin) ;;
     ret res
   else ret res)%M.

Definition ResidualsFcn (p : vec F) : M (world F) (vec F) :=
  (emit (EvResiduals p) ;;;
   (* Non-linear model evaluation *)
   let A := Amodel E p in
   alpha <~ regularization A p ;;
   residual A alpha)%M.

(** *** Lines 253-271: multi-start optimization *)

(** The evaluations of a run after the first. *)
Fixpoint lsq_after (s : lsq_solver F) (fuel : nat) (hist : list (vec F * vec F))
  : M (world F) (list (vec F * vec F)) :=
  (nxt <~ lift (lsq_next s hist) ;;
   match nxt, fuel with
   | Some x, S k =>
       r <~ ResidualsFcn x ;;
       lsq_after s k (hist ++ [(x, r)])
   | _, _ => ret hist
   end)%M.

(** [least_squares(ResidualsFcn, par0, bounds=(lb,ub),
    max_nfev=int(nonLinMaxIter), ftol=nonLinTolFun)], giving [sol.x] and
    [sol.cost].  The argument [int(nonLinMaxIter)] is evaluated before the
    solver is entered. *)
Definition least_squares (x0 : vec F) : M (world F) (vec F * F) :=
  (max_nfev <~ lift (py_int (nonLinMaxIter a)) ;;
   emit (EvLeastSquares x0) ;;;
   let s := least_squares_impl E x0 lb' ub' max_nfev (nonLinTolFun a) in
   x1 <~ lift (lsq_start s) ;;
   r <~ ResidualsFcn x1 ;;
   hist <~ lsq_after s (lsq_fuel s) [(x1, r)] ;;
   ret (lsq_sol s hist))%M.

Definition multiStartPar0 : result (list (vec F)) :=
  multistarts E (multiStarts a) (par0 a) lb' ub'.

(** One entry per start: [(sol.cost, sol.x, linfit)], the rows of the three
    containers [fvals], [nonlinfits] and [linfits]. *)
Definition attempt : Type := F * vec F * vec F.

Fixpoint multistart_loop (seeds : list (vec F)) (runs : list attempt)
  : M (world F) (list attempt) :=
  match seeds with
  | [] => ret runs
  | par0 :: rest =>
      ((* Run the non-linear solver *)
       '(x, cost) <~ least_squares par0 ;;
       lf <~ read (@linfit F) ;;
       multistart_loop rest (runs ++ [(cost, x, lf)]))%M
  end.

Definition fvals (runs : list attempt) : list F := map (fun r => fst (fst r)) runs.
Definition nonlinfits (runs : list attempt) : list (vec F) :=
  map (fun r => snd (fst r)) runs.
Definition linfits (runs : list attempt) : list (vec F) := map snd runs.

Definition multistart_gate : result unit :=
  if (1 <? multiStarts a)%Z && negb nonLinearConstrained
  then Raise (TypeError msg_multistart)
  else Ok tt.

(** *** Lines 275-319: uncertainty analysis *)

Definition uncertainty (nonlinfit linfit yfit : vec F) (Afit : matrix F)
  : M (world F) (F -> string -> result (matrix F)) :=
  ((* Compue the residual vector *)
   res <~ lift (d <- bcast2 fsub yfit (y a) ;; bcast2 fmul (weights a) d)%res ;;
   (* Compute the Jacobian for the linear and non-linear parameters *)
   let fcn := fun p => matvec (Amodel E p) linfit in
   let Jnonlin := jacobianest E fcn nonlinfit in
   let Jlin := Afit in
   J <~ lift (hstack Jnonlin Jlin) ;;
   (* Augment the residual and Jacobian with the regularization penalty *)
   alpha <~ read (@regparam_prev F) ;;
   '(res, J) <~ lift (_augment res J (regtype a) alpha L linfit (huberparam a) Nnonlin) ;;
   (* Calculate the heteroscedasticity consistent covariance matrix *)
   let covmatrix := hccm E J res in
   (* Get combined parameter sets and boundaries *)
   let parfit := nonlinfit ++ linfit in
   let lbs := lb' ++ lbl' in
   let ubs := ub' ++ ubl' in
   ret (ci (uqst_ci E parfit covmatrix lbs ubs) Nnonlin))%M.

(** *** Lines 320-327: goodness of fit *)

Definition goodness (yfit : vec F) : result (Stat + list Stat) :=
  (stats <- mapR (fun subset =>
                    ys <- take (y a) subset ;;
                    yf <- take yfit subset ;;
                    let Ndof := (Z.of_nat (length ys) - Z.of_nat Nnonlin)%Z in
                    Ok (goodness_of_fit E ys yf Ndof)) (subsets a) ;;
   match stats with
   | [s] => Ok (inl s)
   | _ => Ok (inr stats)
   end)%res.

(** *** The body of [snlls] *)

(** Lines 256-329: what [snlls] does once the bounds check and the
    multi-start guard are passed. *)
Definition search_and_report : M (world F) (output F Stat) :=
  (seeds <~ lift multiStartPar0 ;;
   (* Multi-start global optimization *)
   runs <~ multistart_loop seeds [] ;;
   (* Find global minimum from multiple runs *)
   globmin <~ lift (argmin (fvals runs)) ;;
   linfit <~ lift (index (linfits runs) globmin) ;;
   update (set_linfit linfit) ;;;
   nonlinfit <~ lift (index (nonlinfits runs) globmin) ;;
   let Afit := Amodel E nonlinfit in
   yfit <~ lift (matvec Afit linfit) ;;
   paramuq <~ (if uqanalysis a then
                 q <~ uncertainty nonlinfit linfit yfit Afit ;; ret (Some q)
               else ret None) ;;
   stats <~ lift (goodness yfit) ;;
   ret {| nonlinfit := nonlinfit; linfit_out := linfit;
          paramuq := paramuq; stats := stats |})%M.

Definition snlls_body : M (world F) (output F Stat) :=
  (lift check_bounds ;;;
   (* Preprare multiple start global optimization if requested *)
   lift multistart_gate ;;;
   search_and_report)%M.

Definition snlls : result (output F Stat) * world F := snlls_body init_world.

End Snlls.

(** * Vocabulary of the properties *)

(** ** Recorded calls *)

Section Recorded.

Context {F : Type}.

(** The start points of the runs of [least_squares], and the points at which
    [dl.selregparam] was called, in order. *)
Definition starts (evs : list (event F)) : list (vec F) :=
  flat_map (fun e => match e with EvLeastSquares x0 => [x0] | _ => [] end) evs.

Definition selections (evs : list (event F)) : list (vec F) :=
  flat_map (fun e => match e with EvSelregparam p => [p] | _ => [] end) evs.

Definition has_selection (evs : list (event F)) : bool :=
  negb (Nat.eqb (length (selections evs)) 0).

End Recorded.

(** ** Names of penalty types and solvers *)

(** The objects that the comparisons of lines 345-351 and 183-187 accept:
    the literals themselves. *)
Definition known_regtype (s : pystr) : bool :=
  is_literal s "tikhonov" || is_literal s "tv" || is_literal s "huber".

Definition known_nnlsSolver (s : pystr) : bool :=
  is_literal s "fnnls" || is_literal s "nnlsbpp" || is_literal s "cvx".

(** The factor [0.5/(eta**2)] of line 353, on Python floats. *)
Definition huber_factor {F : Type} `{Arith F} `{Libm F} `{Order F} (eta : F)
  : result F :=
  (eta2 <- py_pow2 eta ;; py_div half eta2)%res.

(** ** Ordered costs *)

Section Costs.

Context {F : Type} `{Order F}.
Local Open Scope num_scope.

(** The costs are numbers, and [<=] is total and transitive on them. *)
Definition costs_ordered (l : list F) : Prop :=
  (forall x, In x l -> fisnan x = false)
  /\ (forall x y, In x l -> In y l -> (x <=? y) = true \/ (y <=? x) = true)
  /\ (forall x y z, In x l -> In y l -> In z l ->
      (x <=? y) = true -> (y <=? z) = true -> (x <=? z) = true).

(** [c], at index [g], is a minimum of [l] and the first one. *)
Definition first_minimum (l : list F) (g : nat) (c : F) : Prop :=
  nth_error l g = Some c
  /\ forall j cj, nth_error l j = Some cj ->
       (c <=? cj) = true /\ (j < g -> (cj <=? c) = false).

End Costs.

(** ** Bounds, cache and linear fit of a call of [snlls] *)

Section Vocabulary.

Context {F Stat : Type} {arithF : Arith F} {libmF : Libm F} {orderF : Order F}.
Variable E : Collaborators F Stat.
Variable a : Args F.
Local Open Scope num_scope.

(** Some component of [u] is below the component of [v] at the same index. *)
Definition below_somewhere (u v : vec F) : Prop :=
  exists i x y, nth_error u i = Some x /\ nth_error v i = Some y /\ (x <? y) = true.

Definition crossed (u v : vec F) : bool :=
  existsb (fun b : bool => b) (map (fun '(x, y) => x <? y) (combine u v)).

(** No component of [p] is above [hi] or below [lo]: the test of line 148. *)
Definition inside (lo hi p : vec F) : Prop :=
  crossed hi p = false /\ crossed p lo = false.

(** A bound vector that was passed (it is not empty) with a length other
    than the number of parameters. *)
Definition mismatched (b : vec F) (n : nat) : Prop :=
  b <> [] /\ length b <> n.

Definition lengths_ok : Prop :=
  length (lb' a) = Nnonlin a /\ length (ub' a) = Nnonlin a
  /\ length (lbl' E a) = Nlin E a /\ length (ubl' E a) = Nlin E a.

(** The test of line 213 on vectors of one length: every component of
    [|par_prev - p| / p], the change divided by the new point, is below
    [alphaOptThreshold]. *)
Definition rel_change_small (par_prev p : vec F) : bool :=
  forallb (fun '(q, pi) => fabs (q - pi) / pi <? alphaOptThreshold a)
          (combine par_prev p).

(** The value that [dl.selregparam] returns at [p]. *)
Definition selected (name : string) (p : vec F) : F :=
  selregparam E (y a) (Amodel E p) (ax E a) (regtype a) name (regOrder' E a).

(** What the linear solver returns for [A] and [alpha]; nothing when
    [linSolver] is unbound. *)
Definition linear_fit (A : matrix F) (alpha : F) : option (vec F) :=
  let '(AtA, Aty) := lsqcomponents E (y a) A (L E a) alpha (weights a) (regtype a) in
  option_map (fun f => f AtA Aty) (linSolver E a).

(** Lines 240-249 for the linear fit [x]. *)
Definition residual_vector (A : matrix F) (alpha : F) (x : vec F) : result (vec F) :=
  (yfit <- matvec A x ;;
   res <- bcast2 fsub yfit (y a) ;;
   if truthy (includePenalty E a) then
     penalty <- matvec (mscale alpha (L E a)) x ;;
     '(res, _) <- _augment (res ++ penalty) [] (regtype a) alpha (L E a) x
                    (huberparam a) (Nnonlin a) ;;
     Ok res
   else Ok res)%res.

End Vocabulary.

(** ** Shapes of matrices *)

(** Row [i] of [jr] is as long as row [i] of [lr], with [k] more entries. *)
Definition rows_longer_by {F : Type} (k : nat) (jr lr : matrix F) : Prop :=
  Forall2 (fun j l => length j = (k + length l)%nat) jr lr.

(** ** Exceptions of a call *)

(** The exceptions that [snlls] raises itself, before the first run. *)
Definition preflight_error (e : exn) : Prop :=
  e = TypeError msg_nonlin_len \/ e = TypeError msg_lin_len
  \/ e = ValueError msg_bounds \/ e = ValueError msg_start
  \/ e = TypeError msg_multistart.

(** The exceptions that come out of the code of [snlls.py] afterwards: the
    two unbound names, the errors of Python's float arithmetic and of
    [int], and the errors of numpy. *)
Definition later_error (e : exn) : Prop :=
  e = NameError "linSolver" \/ e = UnboundLocalError "resreg"
  \/ (exists msg, e = ZeroDivisionError msg)
  \/ (exists msg, e = OverflowError msg)
  \/ (exists msg, e = ValueError msg) \/ (exists msg, e = IndexError msg).

(** The exceptions that the two fallible collaborators raise: the seed
    generator, and [scipy.optimize.least_squares] before its first
    evaluation or between two evaluations. *)
Section CollaboratorErrors.

Context {F Stat : Type} {arithF : Arith F} {libmF : Libm F} {orderF : Order F}.
Variable E : Collaborators F Stat.
Variable a : Args F.

Definition collaborator_error (e : exn) : Prop :=
  multiStartPar0 E a = Raise e
  \/ exists x0 n,
       py_int (nonLinMaxIter a) = Ok n
       /\ let s := least_squares_impl E x0 (lb' a) (ub' a) n (nonLinTolFun a) in
          lsq_start s = Raise e \/ exists hist, lsq_next s hist = Raise e.

End CollaboratorErrors.

(** ** Evaluations and linear solves on record *)

Section Counts.

Context {F : Type}.

(** The points at which the objective was entered, in order. *)
Definition evaluations (evs : list (event F)) : list (vec F) :=
  flat_map (fun e => match e with EvResiduals p => [p] | _ => [] end) evs.

(** The number of calls of the linear solver. *)
Definition linear_solves (evs : list (event F)) : nat :=
  length (filter (fun e => match e with EvLinSolver => true | _ => false end) evs).

End Counts.

(** ** The formulas of the specification for the penalty terms

    Written from the text of the specification, in the arithmetic of the
    array elements, for comparison with [_augment]: for [r = L x], one
    penalty residual per row of [L], and one row of penalty Jacobian per row
    of [L].  The residuals are computed as the formulas are written.  The
    specification writes an entry of the penalty Jacobian as a product of
    scalar factors and an entry [l] of [L], and does not say in which order
    the products are taken; float64 multiplication is not associative, and
    the order here is the one that makes the product of the two powers and
    [r] first, then [l], then the constant, then [alpha].  The squares of
    array elements are products, as numpy computes them; the constant
    [1/(2 eta^2)] of the Huber penalty is [(1/2)/eta^2], with the square of
    [eta] the power of a Python float. *)



Module Spec.

Section Formulas.

Context {F : Type} `{Arith F} `{Libm F}.
Local Open Scope num_scope.





End Formulas.

End Spec.

(** ** A small problem for the examples

    One non-linear parameter and one linear coefficient, [A(p) = [[p]]], in
    float64.  The collaborators are the one-by-one instances of what the
    DeerLab and scipy routines compute: the normal equations of the Tikhonov
    problem, their direct solution, a solver that stops after evaluating the
    start point, and start points spread evenly strictly between the bounds.
    The start points of the examples lie strictly inside the bounds, where
    scipy evaluates the objective first. *)

Module Toy.
Import F64.
Local Open Scope float_scope.

Definition hd0 (v : vec float) : float := hd 0 v.
Definition m00 (A : matrix float) : float := hd0 (hd [] A).

(** A stand-in for the C library's [pow], as the collaborators below are
    stand-ins for theirs: the square as a product, which is what [pow]
    returns at [0.0] and where the square overflows, and the three
    fractional exponents of [_augment] from square roots.  The calls of the
    examples use the Tikhonov penalty, which does not call it. *)
Definition pow (x e : float) : float :=
  let q := PrimFloat.sqrt (PrimFloat.sqrt x) in
  if PrimFloat.eqb e 2 then x * x
  else if PrimFloat.eqb e 0.25 then q
  else if PrimFloat.eqb e (-0.5) then 1 / PrimFloat.sqrt x
  else if PrimFloat.eqb e (-0.75) then 1 / (PrimFloat.sqrt x * q)
  else nan.

#[global] Instance libm : Libm float := {| fpow := pow |}.

(** [n] points spread evenly strictly between the bounds. *)
Definition spread (n : Z) (lo hi : vec float) : list (vec float) :=
  map (fun k =>
         map (fun '(l, h) => l + of_Z (Z.of_nat (S k)) * ((h - l) / of_Z (n + 1)))
             (combine lo hi))
      (seq 0 (Z.to_nat n)).

(** A solver that accepts every start point, evaluates the objective there
    and stops. *)
Definition stop_at_start (x0 : vec float) : lsq_solver float :=
  {| lsq_start := Ok x0;
     lsq_fuel := 0;
     lsq_next := fun _ => Ok None;
     lsq_sol := fun hist =>
       match hist with
       | (x, r) :: _ => (x, 0.5 * dot r r)
       | [] => (x0, 0)
       end |}.

Definition collab : Collaborators float Z := {|
  Amodel := fun p => [[hd0 p]];
  cond := fun _ => 1;
  regoperator := fun _ _ => [[1]];
  selregparam := fun _ A _ _ _ _ => m00 A;
  lsqcomponents := fun y A L alpha _ _ =>
    ([[m00 A * m00 A + alpha * alpha * (m00 L * m00 L)]], [m00 A * hd0 y]);
  solve := fun AtA Aty => [hd0 Aty / m00 AtA];
  lsq_linear := fun AtA Aty _ _ => [hd0 Aty / m00 AtA];
  fnnls := fun AtA Aty _ => [hd0 Aty / m00 AtA];
  nnlsbpp := fun _ _ x0 => x0;
  cvxnnls := fun AtA Aty _ => [hd0 Aty / m00 AtA];
  least_squares_impl := fun x0 _ _ _ _ => stop_at_start x0;
  multistarts := fun n p0 lo hi =>
    Ok (if (n <=? 1)%Z then [p0] else spread n lo hi);
  jacobianest := fun _ _ => [[0]];
  hccm := fun _ _ => [[1; 0]; [0; 1]];
  uqst_ci := fun parfit _ _ _ coverage =>
    map (fun x => [x - coverage; x + coverage]) parfit;
  goodness_of_fit := fun _ _ Ndof => Ndof
|}.

(** [snlls(y=[2], Amodel, par0=[1])] with the default keyword arguments. *)
Definition defaults : Args float := {|
  y := [2]; par0 := [1]; lb := []; ub := []; lbl := []; ubl := [];
  nnlsSolver := "cvx"; penalty := None; weights := [1];
  regtype := "tikhonov"; regparam := Method "aic"; multiStarts := 1;
  regOrder := 2; alphaOptThreshold := 0x1.0624dd2f1a9fcp-10;
  nonLinTolFun := 0x1.12e0be826d695p-30; nonLinMaxIter := 100000000;
  linTolFun := 0x1.203af9ee75616p-50; linMaxIter := 10000;
  huberparam := 0x1.599999999999ap+0;
  uqanalysis := true; subsets := [[0%nat]]
|}.

(** [snlls(..., penalty=True, regparam=1)] *)
Definition penalized : Args float := with_penalty (Some true) (Value 1) defaults.

(** [snlls(..., nnlsSolver='scipy')]: unknown solver, unconstrained linear
    problem. *)
Definition odd_solver : Args float := with_names "tikhonov" "scipy" defaults.

(** The same with [lbl=[0]]: the linear problem is non-negative-only. *)
Definition odd_solver_nonneg : Args float := with_lin_bounds [0] [] odd_solver.

(** [snlls(..., regtype='tikh', penalty=False, uqanalysis=False)] *)
Definition odd_regtype_unused : Args float :=
  without_uq (with_penalty (Some false) (Method "aic")
                (with_names "tikh" "cvx" defaults)).

(** [snlls(..., regtype='tikh', penalty=True)] *)
Definition odd_regtype_penalized : Args float :=
  with_penalty (Some true) (Method "aic") (with_names "tikh" "cvx" defaults).

(** [snlls(..., regtype='tikh')] *)
Definition odd_regtype : Args float := with_names "tikh" "cvx" defaults.

(** [snlls(..., penalty=True)]: the penalty with the default selection
    method. *)
Definition selecting : Args float :=
  with_penalty (Some true) (Method "aic") defaults.

(** The store after one evaluation of the objective at [[1024]]. *)
Definition after_first_call : world float :=
  snd (ResidualsFcn collab selecting [1024] (init_world collab selecting)).

(** [snlls(..., par0=[1024], lb=[1023], ub=[1026], multiStarts=2,
    penalty=True)]: the start points are [[1024]] and [[1025]]. *)
Definition two_starts : Args float :=
  with_starts 2 [1024] (with_bounds [1023] [1026] selecting).


(** [snlls(..., par0=[1], multiStarts=2)]: no bounds at all. *)
Definition unbounded_starts : Args float := with_starts 2 [1] defaults.

(** [snlls(..., par0=[1], lb=[0], multiStarts=2)]: a lower bound and no
    upper bound. *)
Definition half_bounded_starts : Args float :=
  with_starts 2 [1] (with_bounds [0] [] defaults).

(** Calls with bounds that the validation refuses. *)
Definition long_bounds : Args float := with_bounds [0; 0] [] defaults.
Definition crossed_bounds : Args float := with_bounds [2] [1] defaults.
Definition start_outside : Args float := with_bounds [2] [3] defaults.

(** An interval matrix with one row per parameter. *)
Definition intervals (coverage : float) : matrix float :=
  [[1 - coverage; 1 + coverage]; [2 - coverage; 2 + coverage];
   [3 - coverage; 3 + coverage]].


(** [snlls(..., par0=[-1], lb=[-2], ub=[1], multiStarts=2)]: the second
    start point, 0, makes the model matrix vanish. *)
Definition nan_second : Args float :=
  with_starts 2 [-1] (with_bounds [-2] [1] defaults).

(** A [str] with the text of the default penalty type that is not the
    literal: [''.join(['tik', 'honov'])]. *)
Definition joined_tikhonov : pystr := {| text := "tikhonov"; interned := false |}.

(** [snlls(..., regtype=''.join(['tik', 'honov']), penalty=True, regparam=1)] *)
Definition joined_regtype : Args float := with_names joined_tikhonov "cvx" penalized.

(** [snlls(..., regtype='tikh', penalty=False, uqanalysis=False)] and the
    same call with the default [regtype]. *)
Definition plain : Args float :=
  without_uq (with_penalty (Some false) (Method "aic") defaults).

(** [snlls(..., nonLinMaxIter=np.inf)] *)
Definition no_cap : Args float := {|
  y := y defaults; par0 := par0 defaults; lb := lb defaults; ub := ub defaults;
  lbl := lbl defaults; ubl := ubl defaults;
  nnlsSolver := nnlsSolver defaults; penalty := penalty defaults;
  weights := weights defaults; regtype := regtype defaults;
  regparam := regparam defaults; multiStarts := multiStarts defaults;
  regOrder := regOrder defaults; alphaOptThreshold := alphaOptThreshold defaults;
  nonLinTolFun := nonLinTolFun defaults; nonLinMaxIter := infinity;
  linTolFun := linTolFun defaults; linMaxIter := linMaxIter defaults;
  huberparam := huberparam defaults; uqanalysis := uqanalysis defaults;
  subsets := subsets defaults
|}.

(** [snlls(..., par0=[nan], lb=[0], ub=[1])] *)
Definition nan_start : Args float :=
  with_starts 1 [nan] (with_bounds [0] [1] defaults).


End Toy.

(** * Properties *)

Import F64.

(** ** Lists and indexing *)

Lemma skipn_nth_error {B} (l : list B) (k : nat) (x : B) :
  nth_error l k = Some x -> skipn k l = x :: skipn (S k) l.
Proof.
  revert l. induction k as [|k IH]; intros [|z l] Hk; simpl in *; try discriminate.
  - now inversion Hk.
  - now apply IH.
Qed.

Lemma take_seq {B} (l : list B) (n k : nat) :
  k + n <= length l ->
  take l (seq k n) = Ok (firstn n (skipn k l)).
Proof.
  revert k. induction n as [|n IH]; intros k Hlen; simpl.
  - reflexivity.
  - destruct (nth_error l k) as [x|] eqn:Hk.
    + rewrite IH by lia. simpl.
      rewrite (skipn_nth_error _ _ Hk). reflexivity.
    + apply nth_error_None in Hk. lia.
Qed.

Lemma nth_error_skipn' {B} (l : list B) (k i : nat) :
  nth_error (skipn k l) i = nth_error l (k + i).
Proof.
  revert l. induction k as [|k IH]; intros [|x l]; simpl; auto.
  now destruct i.
Qed.

Lemma nth_error_firstn' {B} (l : list B) (n i : nat) :
  i < n -> nth_error (firstn n l) i = nth_error l i.
Proof.
  revert l i. induction n as [|n IH]; intros [|x l] [|i] Hi; simpl; auto; try lia.
  apply IH. lia.
Qed.

Lemma forallb_map_comp {A B} (f : B -> bool) (g : A -> B) (l : list A) :
  forallb f (map g l) = forallb (fun x => f (g x)) l.
Proof. induction l; simpl; congruence. Qed.

Lemma forallb_pointwise {A} (f g : A -> bool) (l : list A) :
  (forall x, f x = g x) -> forallb f l = forallb g l.
Proof. intros Hfg. induction l; simpl; congruence. Qed.

(** ** The conditioning gate *)

Section Gate.

Context {F Stat : Type} {arithF : Arith F} {libmF : Libm F} {orderF : Order F}.
Variable E : Collaborators F Stat.
Variable a : Args F.
Local Open Scope num_scope.

(** The regularization operator follows the gate. *)
Lemma L_follows_gate :
  L E a = if truthy (includePenalty E a)
          then regoperator E (ax E a) (Z.min (Z.of_nat (Nlin E a) - 1) (regOrder a))
          else eye (Nlin E a).
Proof. reflexivity. Qed.

(** C3.  The penalty is in force exactly as follows: with [penalty=None],
    when the condition number of [A0 = Amodel(par0)] is above 10; with
    [penalty=True], always; with [penalty=False], never. *)
Theorem includePenalty_gate :
  truthy (includePenalty E a) =
    match penalty a with
    | None => cond E (Amodel E (par0 a)) >? #10
    | Some forced => forced
    end.
Proof.
  unfold includePenalty, illConditioned, A0.
  destruct (penalty a) as [[|]|];
    destruct (fltb #10 (cond E (Amodel E (par0 a)))); reflexivity.
Qed.

End Gate.

(** ** Slices of the confidence intervals *)

Section Intervals.

Context {F : Type}.
Variable paramuq_ci : F -> matrix F.
Variables W M : nat.

(** C6.  When the interval matrix of the joined parameter set has [W+M]
    rows, ['nonlin'] gives its rows [0..W-1] and ['lin'] gives its rows
    [W..W+M-1], for every coverage. *)
Theorem ci_nonlin_lin_slices (coverage : F) :
  length (paramuq_ci coverage) = W + M ->
  exists full,
    ci paramuq_ci W coverage "full" = Ok full
    /\ ci paramuq_ci W coverage "nonlin" = Ok (firstn W full)
    /\ ci paramuq_ci W coverage "lin" = Ok (skipn W full)
    /\ length (firstn W full) = W
    /\ length (skipn W full) = M
    /\ (forall i, i < W -> nth_error (firstn W full) i = nth_error full i)
    /\ (forall i, i < M -> nth_error (skipn W full) i = nth_error full (W + i))
    /\ firstn W full ++ skipn W full = full.
Proof.
  intros Hlen. exists (paramuq_ci coverage).
  unfold ci; simpl.
  split; [reflexivity|].
  split; [rewrite take_seq by (simpl; lia); reflexivity|].
  split; [reflexivity|].
  split; [rewrite length_firstn; lia|].
  split; [rewrite length_skipn; lia|].
  split; [intros; now apply nth_error_firstn'|].
  split; [intros; apply nth_error_skipn'|].
  apply firstn_skipn.
Qed.

(** C10.  Every selector other than ['nonlin'] and ['lin'] is answered with
    the interval matrix of the joined parameter set, without an error. *)
Theorem ci_other_selector_full (coverage : F) (type : string) :
  type <> "nonlin"%string ->
  type <> "lin"%string ->
  length (paramuq_ci coverage) = W + M ->
  ci paramuq_ci W coverage type = Ok (paramuq_ci coverage)
  /\ ci paramuq_ci W coverage type = ci paramuq_ci W coverage "full"
  /\ length (paramuq_ci coverage) = W + M.
Proof.
  intros Hn Hl Hlen. unfold ci.
  apply String.eqb_neq in Hn, Hl. rewrite Hn, Hl. simpl. auto.
Qed.

End Intervals.

(** ** [_augment] against the formulas of the specification *)

Lemma matvec_Ok {F} `{Arith F} (A : matrix F) (x r : vec F) :
  matvec A x = Ok r -> r = map (fun row => dot row x) A.
Proof.
  unfold matvec. destruct (forallb _ A); intros Hr; now inversion Hr.
Qed.

Lemma combine_map_self {A B} (d : A -> B) (l : list A) :
  combine (map d l) l = map (fun x => (d x, x)) l.
Proof. induction l; simpl; congruence. Qed.

Lemma combine_repeat_l {A B} (z : A) (l : list B) :
  combine (repeat z (length l)) l = map (fun x => (z, x)) l.
Proof. induction l; simpl; congruence. Qed.

Lemma is_literal_lit (s : pystr) (l : string) :
  is_literal s l = true <-> s = lit l.
Proof.
  unfold is_literal, lit. destruct s as [t [|]]; simpl; split.
  - intros Ht. apply String.eqb_eq in Ht. now subst.
  - intros Ht. inversion Ht. apply String.eqb_refl.
  - discriminate.
  - discriminate.
Qed.

Section AugmentFormulas.

Context {F : Type} {arithF : Arith F} {libmF : Libm F} {orderF : Order F}.
Local Open Scope num_scope.





End AugmentFormulas.

(** ** Validation of the bounds *)

Section Validation.

Context {F Stat : Type} {arithF : Arith F} {libmF : Libm F} {orderF : Order F}.
Variable E : Collaborators F Stat.
Variable a : Args F.
Local Open Scope num_scope.

Lemma crossed_iff (u v : vec F) :
  crossed u v = true <-> below_somewhere u v.
Proof.
  unfold crossed, below_somewhere. revert v.
  induction u as [|x u IH]; intros [|y v]; simpl.
  1-3: split; [discriminate|]; intros (i & x' & y' & Hu & Hv & _);
       destruct i; discriminate.
  rewrite orb_true_iff, IH. split.
  - intros [Hxy | (i & x' & y' & Hu & Hv & Hlt)].
    + exists 0%nat, x, y. auto.
    + exists (S i), x', y'. auto.
  - intros (i & x' & y' & Hu & Hv & Hlt). destruct i as [|i]; simpl in *.
    + left. congruence.
    + right. eauto 6.
Qed.

Lemma any_lt_same_length (u v : vec F) :
  length u = length v -> any_lt u v = Ok (crossed u v).
Proof.
  intros Hlen. unfold any_lt, bcast2, crossed.
  rewrite Hlen, Nat.eqb_refl. reflexivity.
Qed.

Lemma default_length (b : vec F) (n : nat) (d : F) :
  length (if Nat.eqb (length b) 0 then full n d else b) = n <-> ~ mismatched b n.
Proof.
  unfold mismatched, full. destruct b as [|x b]; simpl.
  - rewrite repeat_length. split; [intros _ [Hne _]; now apply Hne | reflexivity].
  - split.
    + intros Hn [_ Hne]. now apply Hne.
    + intros Hn. destruct (Nat.eq_dec (S (length b)) n) as [|Hne]; [assumption|].
      exfalso. apply Hn. split; [discriminate | assumption].
Qed.

(** [check_bounds] as a cascade of tests on the bounds after defaulting. *)
Lemma check_bounds_cascade :
  check_bounds E a =
    if negb (Nat.eqb (length (lb' a)) (Nnonlin a))
       || negb (Nat.eqb (length (ub' a)) (Nnonlin a))
    then Raise (TypeError msg_nonlin_len)
    else if negb (Nat.eqb (length (lbl' E a)) (Nlin E a))
            || negb (Nat.eqb (length (ubl' E a)) (Nlin E a))
    then Raise (TypeError msg_lin_len)
    else if crossed (ub' a) (lb' a) || crossed (ubl' E a) (lbl' E a)
    then Raise (ValueError msg_bounds)
    else if crossed (ub' a) (par0 a) || crossed (par0 a) (lb' a)
    then Raise (ValueError msg_start)
    else Ok tt.
Proof.
  unfold check_bounds.
  destruct (Nat.eqb (length (lb' a)) (Nnonlin a)) eqn:H1; simpl; [|reflexivity].
  destruct (Nat.eqb (length (ub' a)) (Nnonlin a)) eqn:H2; simpl; [|reflexivity].
  destruct (Nat.eqb (length (lbl' E a)) (Nlin E a)) eqn:H3; simpl; [|reflexivity].
  destruct (Nat.eqb (length (ubl' E a)) (Nlin E a)) eqn:H4; simpl; [|reflexivity].
  apply Nat.eqb_eq in H1, H2, H3, H4. unfold Nnonlin in *.
  unfold or_else.
  rewrite !any_lt_same_length by congruence. simpl.
  destruct (crossed (ub' a) (lb' a)), (crossed (ubl' E a) (lbl' E a)),
    (crossed (ub' a) (par0 a)), (crossed (par0 a) (lb' a)); reflexivity.
Qed.

(** Nothing is run when the validation fails. *)
Lemma snlls_check_bounds_fails (e : exn) :
  check_bounds E a = Raise e -> snlls E a = (Raise e, init_world E a).
Proof.
  intros He. unfold snlls, snlls_body, bind, lift. rewrite He. reflexivity.
Qed.

(** C7.  Empty bound vectors become vectors of infinities of the length of
    the parameter vector; a bound vector of another length is refused with
    the [TypeError] of the dimension check; an upper bound below its lower
    bound and a start value outside its bounds are refused with a
    [ValueError]; and a refused call has made no call of a solver and
    returns no result. *)
Theorem bounds_validation :
  (lb a = [] -> lb' a = repeat (fneg finf) (Nnonlin a))
  /\ (ub a = [] -> ub' a = repeat finf (Nnonlin a))
  /\ (lbl a = [] -> lbl' E a = repeat (fneg finf) (Nlin E a))
  /\ (ubl a = [] -> ubl' E a = repeat finf (Nlin E a))
  /\ (mismatched (lb a) (Nnonlin a) \/ mismatched (ub a) (Nnonlin a)
      \/ mismatched (lbl a) (Nlin E a) \/ mismatched (ubl a) (Nlin E a) ->
      exists msg, check_bounds E a = Raise (TypeError msg))
  /\ (lengths_ok E a ->
      below_somewhere (ub' a) (lb' a) \/ below_somewhere (ubl' E a) (lbl' E a) ->
      check_bounds E a = Raise (ValueError msg_bounds))
  /\ (lengths_ok E a ->
      below_somewhere (ub' a) (par0 a) \/ below_somewhere (par0 a) (lb' a) ->
      check_bounds E a =
        Raise (ValueError
                 (if crossed (ub' a) (lb' a) || crossed (ubl' E a) (lbl' E a)
                  then msg_bounds else msg_start)))
  /\ (forall e, check_bounds E a = Raise e ->
      snlls E a = (Raise e, init_world E a)
      /\ events (snd (snlls E a)) = []).
Proof.
  repeat match goal with |- _ /\ _ => split end.
  - intros Hb. unfold lb'. now rewrite Hb.
  - intros Hb. unfold ub'. now rewrite Hb.
  - intros Hb. unfold lbl'. now rewrite Hb.
  - intros Hb. unfold ubl'. now rewrite Hb.
  - intros Hmis. rewrite check_bounds_cascade.
    assert (~ lengths_ok E a) as Hbad.
    { unfold lengths_ok, lb', ub', lbl', ubl'. rewrite !default_length. tauto. }
    unfold lengths_ok in Hbad.
    destruct (Nat.eqb (length (lb' a)) (Nnonlin a)) eqn:H1; simpl; [|eauto].
    destruct (Nat.eqb (length (ub' a)) (Nnonlin a)) eqn:H2; simpl; [|eauto].
    destruct (Nat.eqb (length (lbl' E a)) (Nlin E a)) eqn:H3; simpl; [|eauto].
    destruct (Nat.eqb (length (ubl' E a)) (Nlin E a)) eqn:H4; simpl; [|eauto].
    apply Nat.eqb_eq in H1, H2, H3, H4. tauto.
  - intros (H1 & H2 & H3 & H4) Hx. rewrite check_bounds_cascade.
    rewrite H1, H2, H3, H4, !Nat.eqb_refl. simpl.
    rewrite <- !crossed_iff in Hx. apply orb_true_iff in Hx. now rewrite Hx.
  - intros (H1 & H2 & H3 & H4) Hx. rewrite check_bounds_cascade.
    rewrite H1, H2, H3, H4, !Nat.eqb_refl. simpl.
    rewrite <- !crossed_iff in Hx. apply orb_true_iff in Hx.
    destruct (crossed (ub' a) (lb' a) || crossed (ubl' E a) (lbl' E a));
      [reflexivity|]. now rewrite Hx.
  - intros e He. rewrite (snlls_check_bounds_fails He). auto.
Qed.

End Validation.

(** ** Reasoning about computations *)

Section MonadFacts.

Context {S : Type}.

Lemma bind_Ok {A B} (m : M S A) (k : A -> M S B) (s s' : S) (b : B) :
  bind m k s = (Ok b, s') ->
  exists x s1, m s = (Ok x, s1) /\ k x s1 = (Ok b, s').
Proof.
  unfold bind. destruct (m s) as [[x|e] s1]; intros Hk.
  - eauto.
  - discriminate.
Qed.

Lemma bind_run {A B} (m : M S A) (k : A -> M S B) (s s1 : S) (x : A) :
  m s = (Ok x, s1) -> bind m k s = k x s1.
Proof. unfold bind. now intros ->. Qed.

Lemma bind_raise {A B} (m : M S A) (k : A -> M S B) (s s1 : S) (e : exn) :
  m s = (Raise e, s1) -> bind m k s = (Raise e, s1).
Proof. unfold bind. now intros ->. Qed.

Lemma bind_assoc {A B C} (m : M S A) (k : A -> M S B) (k' : B -> M S C) (s : S) :
  bind (bind m k) k' s = bind m (fun x => bind (k x) k') s.
Proof. unfold bind. destruct (m s) as [[x|e] s1]; reflexivity. Qed.

Lemma lift_Ok {A} (r : result A) (s s' : S) (x : A) :
  lift r s = (Ok x, s') -> r = Ok x /\ s' = s.
Proof. unfold lift. intros Hr. now inversion Hr. Qed.

End MonadFacts.

Arguments bind_run {S A B m} k {s s1 x} _.
Arguments bind_raise {S A B m} k {s s1 e} _.

Section WorldFacts.

Context {F : Type}.

Lemma starts_app (e1 e2 : list (event F)) :
  starts (e1 ++ e2) = starts e1 ++ starts e2.
Proof. apply flat_map_app. Qed.

Lemma selections_app (e1 e2 : list (event F)) :
  selections (e1 ++ e2) = selections e1 ++ selections e2.
Proof. apply flat_map_app. Qed.

Lemma has_selection_app (e1 e2 : list (event F)) :
  has_selection (e1 ++ e2) = has_selection e1 || has_selection e2.
Proof.
  unfold has_selection. rewrite selections_app, length_app.
  destruct (length (selections e1)), (length (selections e2)); reflexivity.
Qed.

End WorldFacts.

(** ** The objective [ResidualsFcn] *)

Section Objective.

Context {F Stat : Type} {arithF : Arith F} {libmF : Libm F} {orderF : Order F}.
Variable E : Collaborators F Stat.
Variable a : Args F.
Local Open Scope num_scope.

Lemma combine_map_combine {A B C} (g : A * B -> C) (u : list A) (v : list B) :
  length u = length v ->
  combine (map g (combine u v)) v = map (fun xy => (g xy, snd xy)) (combine u v).
Proof.
  revert v. induction u as [|x u IH]; intros [|y v] Hlen; simpl in *;
    try reflexivity; try discriminate.
  f_equal. apply IH. lia.
Qed.

Lemma small_change_eq (par_prev p : vec F) :
  length par_prev = length p ->
  small_change a par_prev p = Ok (rel_change_small a par_prev p).
Proof.
  intros Hlen. unfold small_change, bcast2, rel_change_small.
  rewrite Hlen, Nat.eqb_refl. simpl.
  rewrite !length_map, length_combine, Hlen, Nat.min_id, Nat.eqb_refl.
  rewrite map_map, combine_map_combine by assumption.
  simpl. rewrite map_map, forallb_map_comp. f_equal.
  apply forallb_pointwise. intros [q pi]. reflexivity.
Qed.

Lemma select_alpha_method (name : string) (p : vec F) (w : world F) :
  regparam a = Method name ->
  length (par_prev (cl w)) = length p ->
  let reuse := check (cl w) && rel_change_small a (par_prev (cl w)) p in
  select_alpha E a (Amodel E p) p w =
    (Ok (if reuse then regparam_prev (cl w) else selected E a name p),
     if reuse then w
     else {| cl := set_check true (cl w);
             events := events w ++ [EvSelregparam p] |}).
Proof.
  intros Hm Hlen. unfold select_alpha, selected. rewrite Hm.
  unfold bind, read. simpl.
  destruct (check (cl w)); simpl.
  - unfold lift. rewrite small_change_eq by assumption.
    destruct (rel_change_small a (par_prev (cl w)) p); reflexivity.
  - reflexivity.
Qed.

Lemma regularization_method (name : string) (p : vec F) (w : world F) :
  truthy (includePenalty E a) = true ->
  regparam a = Method name ->
  length (par_prev (cl w)) = length p ->
  let reuse := check (cl w) && rel_change_small a (par_prev (cl w)) p in
  let alpha := if reuse then regparam_prev (cl w) else selected E a name p in
  regularization E a (Amodel E p) p w =
    (Ok alpha,
     {| cl := {| check := true; regparam_prev := alpha;
                 par_prev := p; linfit := linfit (cl w) |};
        events := events w ++ (if reuse then [] else [EvSelregparam p]) |}).
Proof.
  intros Hpen Hm Hlen. unfold regularization. rewrite Hpen.
  erewrite bind_run by (apply select_alpha_method; eassumption).
  destruct (check (cl w)) eqn:Hchk; simpl.
  - destruct (rel_change_small a (par_prev (cl w)) p); simpl.
    + rewrite app_nil_r. unfold bind, update, modify, ret; simpl.
      unfold set_regparam_prev, set_par_prev; simpl. now rewrite Hchk.
    + reflexivity.
  - reflexivity.
Qed.

Lemma residual_unbound (A : matrix F) (alpha : F) (w : world F) :
  linSolver E a = None ->
  residual E a A alpha w = (Raise (NameError "linSolver"), w).
Proof.
  intros Hs. unfold residual, call_linSolver. rewrite Hs.
  destruct (lsqcomponents E (y a) A (L E a) alpha (weights a) (regtype a)).
  reflexivity.
Qed.

Lemma residual_bound (A : matrix F) (alpha : F) (w : world F) (x : vec F) :
  linear_fit E a A alpha = Some x ->
  residual E a A alpha w =
    (residual_vector E a A alpha x,
     {| cl := set_linfit x (cl w); events := events w ++ [EvLinSolver] |}).
Proof.
  unfold linear_fit, residual, residual_vector, call_linSolver.
  destruct (lsqcomponents E (y a) A (L E a) alpha (weights a) (regtype a))
    as [AtA Aty].
  destruct (linSolver E a) as [f|]; simpl; [|discriminate].
  intros Hx. inversion Hx; subst x; clear Hx.
  unfold bind, emit, update, modify, lift, ret; simpl.
  destruct (matvec A (f AtA Aty)) as [yfit|e]; simpl; [|reflexivity].
  destruct (bcast2 fsub yfit (y a)) as [res|e]; simpl; [|reflexivity].
  destruct (truthy (includePenalty E a)); [|reflexivity].
  destruct (matvec (mscale alpha (L E a)) (f AtA Aty)) as [pen|e]; simpl;
    [|reflexivity].
  destruct (_augment _ _ _ _ _ _ _ _) as [[r J]|e]; reflexivity.
Qed.

Lemma linear_fit_None (A : matrix F) (alpha : F) :
  linear_fit E a A alpha = None <-> linSolver E a = None.
Proof.
  unfold linear_fit.
  destruct (lsqcomponents E (y a) A (L E a) alpha (weights a) (regtype a)).
  destruct (linSolver E a); simpl; split; congruence.
Qed.

(** [residual] writes [linfit] and records the call of the linear solver;
    it leaves the cache of the regularization parameter alone. *)
Lemma residual_world (A : matrix F) (alpha : F) (w : world F) :
  let w' := snd (residual E a A alpha w) in
  check (cl w') = check (cl w)
  /\ par_prev (cl w') = par_prev (cl w)
  /\ regparam_prev (cl w') = regparam_prev (cl w)
  /\ selections (events w') = selections (events w)
  /\ starts (events w') = starts (events w).
Proof.
  destruct (linear_fit E a A alpha) as [x|] eqn:Hx.
  - rewrite (residual_bound _ _ w Hx). simpl.
    rewrite selections_app, starts_app. simpl. rewrite !app_nil_r. auto.
  - apply linear_fit_None in Hx. rewrite residual_unbound by assumption.
    simpl. auto.
Qed.

(** With the penalty the vector returned is the data residual followed by
    [alpha*L@linfit] (line 244) and by the penalty residual that [_augment]
    appends (line 247); without it, the data residual. *)
Lemma residual_vector_shape (A : matrix F) (alpha : F) (x r : vec F) :
  residual_vector E a A alpha x = Ok r ->
  exists yfit dres,
    matvec A x = Ok yfit
    /\ bcast2 fsub yfit (y a) = Ok dres
    /\ if truthy (includePenalty E a) then
         exists pen resreg Jreg,
           matvec (mscale alpha (L E a)) x = Ok pen
           /\ penalty_terms (regtype a) (L E a) x (huberparam a) = Ok (resreg, Jreg)
           /\ r = dres ++ pen ++ vscale alpha resreg
       else r = dres.
Proof.
  unfold residual_vector.
  destruct (matvec A x) as [yfit|e] eqn:Hy; simpl; [|discriminate].
  destruct (bcast2 fsub yfit (y a)) as [dres|e] eqn:Hd; simpl; [|discriminate].
  intros Hr. exists yfit, dres. split; [reflexivity|]. split; [exact Hd|].
  destruct (truthy (includePenalty E a)).
  - destruct (matvec (mscale alpha (L E a)) x) as [pen|e] eqn:Hpen; simpl in Hr;
      [|discriminate].
    unfold _augment in Hr.
    destruct (penalty_terms (regtype a) (L E a) x (huberparam a))
      as [[resreg Jreg]|e] eqn:Hpt; simpl in Hr; [|discriminate].
    inversion Hr. exists pen, resreg, Jreg. rewrite <- app_assoc. auto.
  - now inversion Hr.
Qed.

(** *** The alpha cache across calls *)

(** C2.  With the penalty included and a selection method for [regparam],
    a call of the objective at [p] reuses the cached alpha exactly when a
    selection has been made before and every component of
    [|par_prev - p| / p], divided by the new point, is below
    [alphaOptThreshold]; otherwise it calls [dl.selregparam] once and caches
    what that returns.  In both cases [p] becomes the cached point. *)
Theorem alpha_reuse_decision (name : string) (p : vec F) (w : world F) :
  truthy (includePenalty E a) = true ->
  regparam a = Method name ->
  length (par_prev (cl w)) = length p ->
  check (cl w) = has_selection (events w) ->
  let reuse := has_selection (events w) && rel_change_small a (par_prev (cl w)) p in
  let w' := snd (ResidualsFcn E a p w) in
  selections (events w') = selections (events w) ++ (if reuse then [] else [p])
  /\ regparam_prev (cl w') = (if reuse then regparam_prev (cl w) else selected E a name p)
  /\ par_prev (cl w') = p
  /\ check (cl w') = has_selection (events w')
  /\ (forall x, linear_fit E a (Amodel E p) (regparam_prev (cl w')) = Some x ->
      linfit (cl w') = x).
Proof.
  intros Hpen Hm Hlen Hinv. intros reuse w'. subst w'.
  unfold ResidualsFcn.
  set (w1 := {| cl := cl w; events := events w ++ [EvResiduals p] |}).
  assert (emit (EvResiduals p) w = (Ok tt, w1)) as Hemit by reflexivity.
  rewrite (bind_run _ Hemit).
  assert (length (par_prev (cl w1)) = length p) as Hlen1 by exact Hlen.
  erewrite bind_run by (apply regularization_method; eassumption).
  subst w1 reuse. cbn [cl events]. rewrite <- Hinv.
  set (reuse := check (cl w) && rel_change_small a (par_prev (cl w)) p).
  match goal with |- context [residual E a ?A ?al ?w2] =>
    pose proof (residual_world A al w2) as (Hc & Hp & Hr & Hs & _);
    pose proof (residual_bound A al w2) as Hb
  end.
  cbn [cl events check par_prev regparam_prev] in Hc, Hp, Hr, Hs.
  rewrite Hc, Hp, Hr, Hs.
  rewrite !selections_app. simpl. rewrite app_nil_r.
  repeat split.
  - destruct reuse; reflexivity.
  - unfold has_selection. rewrite Hs, !selections_app, !length_app. simpl.
    unfold has_selection in Hinv. subst reuse.
    destruct (check (cl w)) eqn:Hchk; simpl.
    + symmetry in Hinv. apply negb_true_iff, Nat.eqb_neq in Hinv.
      destruct (length (selections (events w))); [easy|].
      reflexivity.
    + rewrite Nat.add_0_r, Nat.add_comm. reflexivity.
  - intros x Hx. rewrite (Hb x Hx). reflexivity.
Qed.

(** *** What a call of the objective leaves behind *)

(** The calls recorded by [regularization]: none, or one selection. *)
Lemma regularization_world (A : matrix F) (p : vec F) (w : world F) :
  let w' := snd (regularization E a A p w) in
  (events w' = events w \/ events w' = events w ++ [EvSelregparam p])
  /\ linfit (cl w') = linfit (cl w)
  /\ (check (cl w) = has_selection (events w) ->
      check (cl w') = has_selection (events w')).
Proof.
  unfold regularization, select_alpha.
  destruct (truthy (includePenalty E a)); [|simpl; auto].
  destruct (regparam a) as [name|alpha]; [|simpl; auto].
  unfold bind, read. simpl.
  destruct (check (cl w)) eqn:Hchk; simpl.
  - unfold lift.
    destruct (small_change a (par_prev (cl w)) p) as [[|]|e]; simpl;
      rewrite ?Hchk, ?has_selection_app; simpl; rewrite ?orb_true_r; auto.
  - rewrite has_selection_app. simpl. rewrite orb_true_r. auto.
Qed.

Lemma regularization_Ok (A : matrix F) (p : vec F) (w w' : world F) (alpha : F) :
  regularization E a A p w = (Ok alpha, w') ->
  if truthy (includePenalty E a) then
    regparam_prev (cl w') = alpha /\ par_prev (cl w') = p
    /\ (forall name, regparam a = Method name -> check (cl w') = true)
  else alpha = #0 /\ w' = w.
Proof.
  unfold regularization, select_alpha.
  destruct (truthy (includePenalty E a)).
  - destruct (regparam a) as [name|al].
    + unfold bind, read. simpl.
      destruct (check (cl w)) eqn:Hchk; simpl.
      * unfold lift.
        destruct (small_change a (par_prev (cl w)) p) as [[|]|e]; simpl;
          intros Hr; inversion Hr; subst; simpl; auto.
      * intros Hr; inversion Hr; subst; simpl; auto.
    + simpl. intros Hr; inversion Hr; subst; simpl.
      repeat split. discriminate.
  - intros Hr; inversion Hr; auto.
Qed.

(** A call that returns has bound [linfit] to the linear fit at its point,
    computed with the alpha it leaves in the cache. *)
Lemma ResidualsFcn_Ok (p r : vec F) (w w' : world F) :
  ResidualsFcn E a p w = (Ok r, w') ->
  exists alpha,
    linear_fit E a (Amodel E p) alpha = Some (linfit (cl w'))
    /\ residual_vector E a (Amodel E p) alpha (linfit (cl w')) = Ok r
    /\ (if truthy (includePenalty E a) then
          regparam_prev (cl w') = alpha /\ par_prev (cl w') = p
          /\ (forall name, regparam a = Method name -> check (cl w') = true)
        else alpha = #0).
Proof.
  unfold ResidualsFcn. intros Hrun.
  apply bind_Ok in Hrun as ([] & w1 & Hemit & Hrun).
  apply bind_Ok in Hrun as (alpha & w2 & Hreg & Hres).
  exists alpha.
  destruct (linear_fit E a (Amodel E p) alpha) as [x|] eqn:Hx.
  - rewrite (residual_bound _ _ w2 Hx) in Hres. inversion Hres; subst; simpl.
    split; [reflexivity|]. split; [reflexivity|].
    apply regularization_Ok in Hreg.
    destruct (truthy (includePenalty E a)); [assumption|tauto].
  - apply linear_fit_None in Hx. rewrite residual_unbound in Hres by assumption.
    discriminate.
Qed.

Lemma ResidualsFcn_entered (p : vec F) (w : world F) :
  ResidualsFcn E a p w =
    bind (regularization E a (Amodel E p) p) (residual E a (Amodel E p))
         {| cl := cl w; events := events w ++ [EvResiduals p] |}.
Proof. reflexivity. Qed.

(** Every call records its entry first, then at most one selection and at
    most one call of the linear solver; it never enters [least_squares]. *)
Lemma ResidualsFcn_events (p : vec F) (w : world F) :
  exists evs,
    events (snd (ResidualsFcn E a p w)) = events w ++ EvResiduals p :: evs
    /\ starts evs = [].
Proof.
  unfold ResidualsFcn, bind at 1. simpl.
  set (w1 := {| cl := cl w; events := events w ++ [EvResiduals p] |}).
  unfold bind.
  pose proof (regularization_world (Amodel E p) p w1) as (Hev & _).
  destruct (regularization E a (Amodel E p) p w1) as [[alpha|e] w2]; simpl in *.
  - destruct (linear_fit E a (Amodel E p) alpha) as [x|] eqn:Hx.
    + rewrite (residual_bound _ _ w2 Hx). simpl.
      destruct Hev as [-> | ->]; rewrite <- !app_assoc; simpl;
        eexists; split; reflexivity.
    + apply linear_fit_None in Hx. rewrite residual_unbound by assumption.
      simpl. destruct Hev as [-> | ->]; rewrite <- ?app_assoc; simpl;
        eexists; split; reflexivity.
  - destruct Hev as [-> | ->]; rewrite <- ?app_assoc; simpl;
      eexists; split; reflexivity.
Qed.

(** The flag [check] records whether a selection was ever made: this holds
    when [snlls] creates the closure and is kept by every call. *)
Lemma check_records_selection_init :
  check (cl (init_world E a)) = has_selection (events (init_world E a)).
Proof. reflexivity. Qed.

Lemma check_records_selection_kept (p : vec F) (w : world F) :
  check (cl w) = has_selection (events w) ->
  let w' := snd (ResidualsFcn E a p w) in
  check (cl w') = has_selection (events w').
Proof.
  intros Hinv. rewrite ResidualsFcn_entered.
  set (w1 := {| cl := cl w; events := events w ++ [EvResiduals p] |}).
  assert (check (cl w1) = has_selection (events w1)) as Hinv1.
  { simpl. rewrite has_selection_app. simpl. now rewrite orb_false_r. }
  unfold bind.
  pose proof (regularization_world (Amodel E p) p w1) as (_ & _ & Hkeep).
  specialize (Hkeep Hinv1).
  destruct (regularization E a (Amodel E p) p w1) as [[alpha|e] w2]; simpl in *;
    [|assumption].
  pose proof (residual_world (Amodel E p) alpha w2) as (Hc & _ & _ & Hs & _).
  simpl in *. unfold has_selection in *. now rewrite Hc, Hs.
Qed.

End Objective.

(** ** The residual vector with a penalty *)

(** C1.  With [penalty=True], [regparam=1] and the Tikhonov penalty, at
    [p = [1]] the data residual is [[-1]] and the augmentation rule makes it
    [[-1; 1]]; the objective returns [[-1; 1; 1]]: line 246 has already
    appended [alpha*L@linfit] when line 247 augments the residual. *)
Theorem ResidualsFcn_penalty_appended_twice :
  truthy (includePenalty Toy.collab Toy.penalized) = true
  /\ fst (ResidualsFcn Toy.collab Toy.penalized [1%float]
            (init_world Toy.collab Toy.penalized))
     = Ok [(-1)%float; 1%float; 1%float]
  /\ linear_fit Toy.collab Toy.penalized [[1%float]] 1%float = Some [1%float]
  /\ (yfit <- matvec [[1%float]] [1%float] ;; bcast2 fsub yfit (y Toy.penalized))%res
     = Ok [(-1)%float]
  /\ _augment [(-1)%float] [] "tikhonov" 1%float
       (L Toy.collab Toy.penalized) [1%float] (huberparam Toy.penalized) 1
     = Ok ([(-1)%float; 1%float], []).
Proof. repeat split; vm_compute; reflexivity. Qed.

(** ** Unknown names of penalty types and solvers *)

Section Names.

Context {F Stat : Type} {arithF : Arith F} {libmF : Libm F} {orderF : Order F}.
Variable E : Collaborators F Stat.
Variable a : Args F.

Lemma penalty_terms_unknown (rt : pystr) (L : matrix F) (x : vec F) (eta : F) :
  known_regtype rt = false ->
  penalty_terms rt L x eta = Raise (UnboundLocalError "resreg").
Proof.
  unfold known_regtype, penalty_terms. intros Hk.
  apply orb_false_iff in Hk as [Hk Hh]. apply orb_false_iff in Hk as [Ht Hv].
  now rewrite Ht, Hv, Hh.
Qed.

(** An unknown [regtype] makes the objective fail whenever the penalty is
    included. *)
Lemma ResidualsFcn_unknown_regtype (p : vec F) (w : world F) :
  known_regtype (regtype a) = false ->
  truthy (includePenalty E a) = true ->
  is_ok (fst (ResidualsFcn E a p w)) = false.
Proof.
  intros Hk Hpen.
  destruct (ResidualsFcn E a p w) as [[r|e] w'] eqn:Hrun; [|reflexivity].
  apply ResidualsFcn_Ok in Hrun as (alpha & _ & Hvec & _).
  apply residual_vector_shape in Hvec as (yfit & dres & _ & _ & Hshape).
  rewrite Hpen in Hshape. destruct Hshape as (pen & resreg & Jreg & _ & Hp & _).
  rewrite penalty_terms_unknown in Hp by assumption. discriminate.
Qed.

(** An unknown [nnlsSolver] leaves [linSolver] unbound exactly when the
    linear problem is non-negative-only. *)
Lemma linSolver_unknown :
  known_nnlsSolver (nnlsSolver a) = false ->
  (linearConstrained E a && nonNegativeOnly E a = true -> linSolver E a = None)
  /\ (linearConstrained E a && nonNegativeOnly E a = false ->
      linSolver E a <> None).
Proof.
  intros Hk. unfold known_nnlsSolver in Hk.
  apply orb_false_iff in Hk as [Hk Hc]. apply orb_false_iff in Hk as [Hf Hb].
  split.
  - intros Hnn. apply andb_true_iff in Hnn as [Hlc Hnn].
    unfold linSolver. now rewrite Hlc, Hnn, Hf, Hb, Hc.
  - intros Hnn. unfold linSolver.
    destruct (linearConstrained E a); simpl in *; [|discriminate].
    rewrite Hnn. simpl. discriminate.
Qed.

Lemma ResidualsFcn_unbound (p : vec F) (w : world F) :
  linSolver E a = None -> is_ok (fst (ResidualsFcn E a p w)) = false.
Proof.
  intros Hnone.
  destruct (ResidualsFcn E a p w) as [[r|e] w'] eqn:Hrun; [|reflexivity].
  apply ResidualsFcn_Ok in Hrun as (alpha & Hfit & _).
  assert (linear_fit E a (Amodel E p) alpha = None) as Hno
    by now apply linear_fit_None.
  congruence.
Qed.

End Names.

(** ** [np.argmin] picks the first minimum *)

Section ArgminFacts.

Context {F : Type} `{Order F}.
Local Open Scope num_scope.

Lemma argmin_scan_first_minimum (xs pre : list F) (mp : F) (min_ind : nat) :
  costs_ordered (pre ++ xs) ->
  first_minimum pre min_ind mp ->
  exists c, first_minimum (pre ++ xs) (argmin_scan mp min_ind (length pre) xs) c.
Proof.
  revert pre mp min_ind.
  induction xs as [|x rest IH]; intros pre mp min_ind Hord Hinv; simpl.
  - rewrite app_nil_r. eauto.
  - destruct Hord as (Hnan & Htot & Htrans).
    destruct Hinv as (Hmp & Hmin).
    assert (In mp (pre ++ x :: rest)) as Hin_mp
      by (apply in_or_app; left; eapply nth_error_In; eassumption).
    assert (In x (pre ++ x :: rest)) as Hin_x
      by (apply in_or_app; right; now left).
    assert (forall j cj, nth_error pre j = Some cj -> In cj (pre ++ x :: rest))
      as Hin_pre
      by (intros; apply in_or_app; left; eapply nth_error_In; eassumption).
    replace (pre ++ x :: rest) with ((pre ++ [x]) ++ rest) in *
      by (rewrite <- app_assoc; reflexivity).
    replace (S (length pre)) with (length (pre ++ [x]))
      by (rewrite length_app; simpl; lia).
    destruct (mp <=? x) eqn:Hle; simpl.
    + (* the minimum stays *)
      apply IH; [repeat split; assumption|].
      split.
      * rewrite nth_error_app1; [assumption|].
        apply nth_error_Some. congruence.
      * intros j cj Hj.
        destruct (Nat.lt_ge_cases j (length pre)) as [Hlt|Hge].
        -- rewrite nth_error_app1 in Hj by assumption. now apply Hmin.
        -- rewrite nth_error_app2 in Hj by assumption.
           destruct (j - length pre)%nat as [|k] eqn:Hk; simpl in Hj.
           ++ inversion Hj; subst cj. split; [assumption|].
              intros Hlt.
              assert (min_ind < length pre) by (apply nth_error_Some; congruence).
              lia.
           ++ destruct k; discriminate.
    + (* [x] is the new minimum *)
      rewrite (Hnan x Hin_x).
      assert ((x <=? mp) = true) as Hxmp
        by (destruct (Htot x mp Hin_x Hin_mp); congruence).
      apply IH; [repeat split; assumption|].
      split.
      * rewrite nth_error_app2 by lia. now rewrite Nat.sub_diag.
      * intros j cj Hj.
        destruct (Nat.lt_ge_cases j (length pre)) as [Hlt|Hge].
        -- rewrite nth_error_app1 in Hj by assumption.
           destruct (Hmin j cj Hj) as [Hmpc _].
           split.
           ++ apply (Htrans x mp cj); eauto.
           ++ intros _. destruct (cj <=? x) eqn:Hcx; [|reflexivity].
              assert ((mp <=? x) = true) by (apply (Htrans mp cj x); eauto).
              congruence.
        -- rewrite nth_error_app2 in Hj by assumption.
           destruct (j - length pre)%nat as [|k] eqn:Hk; simpl in Hj.
           ++ inversion Hj; subst cj. split; [|intros; lia].
              destruct (Htot x x Hin_x Hin_x); assumption.
           ++ destruct k; discriminate.
Qed.

Lemma argmin_first_minimum (l : list F) (g : nat) :
  costs_ordered l ->
  argmin l = Ok g ->
  exists c, first_minimum l g c.
Proof.
  intros Hord Harg. destruct l as [|x rest]; [discriminate|].
  simpl in Harg.
  assert (In x (x :: rest)) as Hin by now left.
  destruct Hord as (Hnan & Htot & Htrans).
  rewrite (Hnan x Hin) in Harg. inversion Harg; subst g.
  destruct (argmin_scan_first_minimum rest (pre := [x]) (mp := x)
              (min_ind := 0)) as [c Hc].
  - repeat split; assumption.
  - split; [reflexivity|].
    intros [|j] cj Hj; simpl in Hj.
    + inversion Hj; subst cj. split; [|intros; lia].
      destruct (Htot x x Hin Hin); assumption.
    + destruct j; discriminate.
  - exists c. exact Hc.
Qed.

Lemma argmin_in_range (l : list F) (g : nat) :
  argmin l = Ok g -> g < length l.
Proof.
  destruct l as [|x rest]; [discriminate|]. simpl. intros Hg.
  destruct (fisnan x); inversion Hg; [lia|].
  assert (forall xs mp mi i, mi < i ->
            argmin_scan mp mi i xs < i + length xs) as Hscan.
  { induction xs as [|z xs IH]; intros mp mi i Hlt; simpl; [lia|].
    destruct (negb (mp <=? z)).
    - destruct (fisnan z); [lia|]. specialize (IH z i (S i)). lia.
    - specialize (IH mp mi (S i)). lia. }
  specialize (Hscan rest x 0 1). lia.
Qed.

End ArgminFacts.

(** ** The multi-start loop *)

Section MultiStart.

Context {F Stat : Type} {arithF : Arith F} {libmF : Libm F} {orderF : Order F}.
Variable E : Collaborators F Stat.
Variable a : Args F.
Local Open Scope num_scope.

(** *** One run of the non-linear solver *)

(** The store in which a run from [x0] is entered. *)
Lemma least_squares_entered (x0 : vec F) (w : world F) (n : Z) :
  py_int (nonLinMaxIter a) = Ok n ->
  least_squares E a x0 w =
    let s := least_squares_impl E x0 (lb' a) (ub' a) n (nonLinTolFun a) in
    bind (lift (lsq_start s))
         (fun x1 =>
            bind (ResidualsFcn E a x1)
                 (fun r =>
                    bind (lsq_after E a s (lsq_fuel s) [(x1, r)])
                         (fun hist => ret (lsq_sol s hist))))
         {| cl := cl w; events := events w ++ [EvLeastSquares x0] |}.
Proof.
  intros Hint. unfold least_squares, bind at 1, lift at 1. now rewrite Hint.
Qed.

Lemma least_squares_no_cap (x0 : vec F) (w : world F) (e : exn) :
  py_int (nonLinMaxIter a) = Raise e ->
  least_squares E a x0 w = (Raise e, w).
Proof.
  intros Hint. unfold least_squares, bind at 1, lift at 1. now rewrite Hint.
Qed.

Lemma lsq_after_events (s : lsq_solver F) (fuel : nat)
    (hist : list (vec F * vec F)) (w : world F) :
  exists evs,
    events (snd (lsq_after E a s fuel hist w)) = events w ++ evs
    /\ starts evs = [].
Proof.
  revert hist w. induction fuel as [|k IH]; intros hist w; simpl;
    unfold bind at 1, lift; destruct (lsq_next s hist) as [[x|]|e]; simpl;
    try (exists []; rewrite app_nil_r; now auto).
  destruct (ResidualsFcn_events E a x w) as (evs & Hev & Hst).
  unfold bind. destruct (ResidualsFcn E a x w) as [[r|e] w1]; simpl in *.
  - destruct (IH (hist ++ [(x, r)]) w1) as (evs' & Hev' & Hst').
    exists ((EvResiduals x :: evs) ++ evs').
    rewrite Hev', Hev, <- app_assoc, starts_app. simpl in *.
    now rewrite Hst, Hst'.
  - exists (EvResiduals x :: evs). auto.
Qed.

(** The evaluations after the first leave the store of the last of them
    that returned, or the store they found. *)
Lemma lsq_after_Ok (s : lsq_solver F) (fuel : nat)
    (hist h : list (vec F * vec F)) (w w' : world F) :
  lsq_after E a s fuel hist w = (Ok h, w') ->
  w' = w
  \/ exists p r w0 evs0,
       ResidualsFcn E a p w0 = (Ok r, w')
       /\ events w0 = events w ++ evs0
       /\ starts evs0 = [].
Proof.
  revert hist w. induction fuel as [|k IH]; intros hist w Hrun; simpl in Hrun;
    apply bind_Ok in Hrun as (nxt & w1 & Hnxt & Hrest);
    apply lift_Ok in Hnxt as [Hnxt ->]; destruct nxt as [x|];
    try (inversion Hrest; subst; now left).
  apply bind_Ok in Hrest as (r & w1 & Hcall & Hrest).
  apply IH in Hrest as [-> | (p & r' & w0 & evs0 & Hlast & Hev & Hst)].
  - right. exists x, r, w, []. rewrite app_nil_r. auto.
  - right. destruct (ResidualsFcn_events E a x w) as (evs & Hev1 & Hst1).
    rewrite Hcall in Hev1. simpl in Hev1.
    exists p, r', w0, ((EvResiduals x :: evs) ++ evs0).
    split; [assumption|]. rewrite Hev, Hev1, <- app_assoc, starts_app.
    simpl in *. now rewrite Hst1, Hst.
Qed.

(** A run records its start point when it is entered, which is after
    [int(nonLinMaxIter)] returned, and no other. *)
Lemma least_squares_starts (x0 : vec F) (w : world F) :
  starts (events (snd (least_squares E a x0 w))) =
    starts (events w) ++ (if is_ok (py_int (nonLinMaxIter a)) then [x0] else []).
Proof.
  destruct (py_int (nonLinMaxIter a)) as [n|e] eqn:Hint; simpl.
  - rewrite (least_squares_entered x0 w Hint). cbv zeta.
    set (s := least_squares_impl E x0 (lb' a) (ub' a) n (nonLinTolFun a)).
    set (w1 := {| cl := cl w; events := events w ++ [EvLeastSquares x0] |}).
    assert (starts (events w1) = starts (events w) ++ [x0]) as H1
      by (unfold w1; simpl; now rewrite starts_app).
    unfold bind at 1, lift. destruct (lsq_start s) as [x1|e]; [|assumption].
    destruct (ResidualsFcn_events E a x1 w1) as (evs & Hev & Hst).
    unfold bind at 1. destruct (ResidualsFcn E a x1 w1) as [[r|e] w2];
      simpl in Hev; [|simpl; rewrite Hev, starts_app; simpl;
                      now rewrite Hst, app_nil_r].
    destruct (lsq_after_events s (lsq_fuel s) [(x1, r)] w2) as (evs' & Hev' & Hst').
    unfold bind.
    destruct (lsq_after E a s (lsq_fuel s) [(x1, r)] w2) as [[h|e] w3];
      simpl in *; rewrite Hev', Hev, !starts_app; simpl;
      now rewrite Hst, Hst', !app_nil_r.
  - rewrite (least_squares_no_cap x0 w Hint). simpl. now rewrite app_nil_r.
Qed.

(** A run that returns ends with a call of the objective that returned; that
    call is what the closure variables hold afterwards. *)
Lemma least_squares_Ok (x0 : vec F) (sol : vec F * F) (w w' : world F) :
  least_squares E a x0 w = (Ok sol, w') ->
  exists p r w0 evs0,
    ResidualsFcn E a p w0 = (Ok r, w')
    /\ events w0 = events w ++ EvLeastSquares x0 :: evs0
    /\ starts evs0 = [].
Proof.
  unfold least_squares. intros Hrun.
  apply bind_Ok in Hrun as (n & w1 & Hint & Hrun).
  apply lift_Ok in Hint as [Hint ->].
  apply bind_Ok in Hrun as ([] & w1 & Hemit & Hrun).
  inversion Hemit; subst w1; clear Hemit.
  apply bind_Ok in Hrun as (x1 & w1 & Hx1 & Hrun).
  apply lift_Ok in Hx1 as [Hx1 ->].
  apply bind_Ok in Hrun as (r & w2 & Hcall & Hrun).
  apply bind_Ok in Hrun as (h & w3 & Hloop & Hret).
  inversion Hret; subst; clear Hret.
  apply lsq_after_Ok in Hloop as [-> | (p & r' & w0 & evs0 & Hlast & Hev & Hst)].
  - eexists x1, r, _, []. split; [eassumption|]. now split.
  - destruct (ResidualsFcn_events E a x1
                {| cl := cl w; events := events w ++ [EvLeastSquares x0] |})
      as (evs & Hev1 & Hst1).
    rewrite Hcall in Hev1. simpl in Hev1.
    exists p, r', w0, ((EvResiduals x1 :: evs) ++ evs0).
    split; [assumption|]. rewrite Hev, Hev1, <- !app_assoc, starts_app.
    simpl in *. now rewrite Hst1, Hst.
Qed.

Lemma least_squares_Ok_int (x0 : vec F) (sol : vec F * F) (w w' : world F) :
  least_squares E a x0 w = (Ok sol, w') ->
  is_ok (py_int (nonLinMaxIter a)) = true.
Proof.
  destruct (py_int (nonLinMaxIter a)) as [n|e] eqn:Hint; [reflexivity|].
  rewrite (least_squares_no_cap x0 w Hint). discriminate.
Qed.

(** *** The loop over the start points *)

(** The loop hands the store that a run leaves to the next run. *)
Lemma multistart_loop_step (s : vec F) (rest : list (vec F))
    (runs : list (attempt (F := F))) (w : world F) :
  multistart_loop E a (s :: rest) runs w =
    match least_squares E a s w with
    | (Ok (x, cost), w1) =>
        multistart_loop E a rest (runs ++ [(cost, x, linfit (cl w1))]) w1
    | (Raise e, w1) => (Raise e, w1)
    end.
Proof.
  simpl. unfold bind at 1.
  destruct (least_squares E a s w) as [[[x cost]|e] w1]; reflexivity.
Qed.

Lemma multistart_loop_app (seeds1 seeds2 : list (vec F))
    (runs : list (attempt (F := F))) (w : world F) :
  multistart_loop E a (seeds1 ++ seeds2) runs w =
    bind (multistart_loop E a seeds1 runs)
         (fun runs1 => multistart_loop E a seeds2 runs1) w.
Proof.
  revert runs w. induction seeds1 as [|x0 rest IH]; intros runs w.
  - reflexivity.
  - rewrite <- app_comm_cons. unfold bind. rewrite !multistart_loop_step.
    destruct (least_squares E a x0 w) as [[[x cost]|e] w1].
    + rewrite IH. reflexivity.
    + reflexivity.
Qed.

Lemma multistart_loop_Ok (seeds : list (vec F))
    (runs out : list (attempt (F := F))) (w w' : world F) :
  multistart_loop E a seeds runs w = (Ok out, w') ->
  exists new,
    out = runs ++ new
    /\ length new = length seeds
    /\ starts (events w') = starts (events w) ++ seeds.
Proof.
  revert runs w. induction seeds as [|x0 rest IH]; intros runs w Hrun.
  - inversion Hrun; subst. exists []. now rewrite !app_nil_r.
  - rewrite multistart_loop_step in Hrun.
    destruct (least_squares E a x0 w) as [[[x cost]|e] w1] eqn:Hls; [|discriminate].
    apply IH in Hrun as (new & -> & Hlen & Hst).
    exists ((cost, x, linfit (cl w1)) :: new). rewrite <- app_assoc. simpl.
    split; [reflexivity|]. split; [lia|].
    pose proof (least_squares_starts x0 w) as Hs.
    rewrite (least_squares_Ok_int _ _ Hls), Hls in Hs. simpl in Hs.
    rewrite Hst, Hs, <- app_assoc. reflexivity.
Qed.

(** *** From the loop to the result of [snlls] *)

Lemma uncertainty_world (nonlinfit linfit yfit : vec F) (Afit : matrix F)
    (w : world F) :
  snd (uncertainty E a nonlinfit linfit yfit Afit w) = w.
Proof.
  unfold uncertainty, bind, lift, read, ret.
  repeat match goal with
         | |- context [match ?r with _ => _ end] => destruct r; simpl
         end; reflexivity.
Qed.

(** Once the bounds check and the guard of line 254 are passed, [snlls] is
    the rest of its body, which begins with the call of
    [dl.utils.multistarts]. *)
Lemma snlls_passes_preflight :
  check_bounds E a = Ok tt ->
  multistart_gate a = Ok tt ->
  snlls E a = search_and_report E a (init_world E a).
Proof.
  intros Hchk Hgate. unfold snlls, snlls_body, bind at 1, lift at 1.
  rewrite Hchk. unfold bind at 1, lift at 1. now rewrite Hgate.
Qed.

Lemma snlls_Ok (out : output F Stat) (w : world F) :
  snlls E a = (Ok out, w) ->
  check_bounds E a = Ok tt
  /\ multistart_gate a = Ok tt
  /\ exists seeds runs w1 globmin,
       multiStartPar0 E a = Ok seeds
       /\ multistart_loop E a seeds [] (init_world E a) = (Ok runs, w1)
       /\ argmin (fvals runs) = Ok globmin
       /\ index (linfits runs) globmin = Ok (linfit_out out)
       /\ index (nonlinfits runs) globmin = Ok (nonlinfit out)
       /\ events w = events w1.
Proof.
  unfold snlls, snlls_body. intros Hrun.
  apply bind_Ok in Hrun as ([] & w0 & Hchk & Hrun).
  apply lift_Ok in Hchk as [Hchk ->].
  apply bind_Ok in Hrun as ([] & w0 & Hgate & Hrun).
  apply lift_Ok in Hgate as [Hgate ->].
  unfold search_and_report in Hrun.
  apply bind_Ok in Hrun as (seeds & w0 & Hseeds & Hrun).
  apply lift_Ok in Hseeds as [Hseeds ->].
  apply bind_Ok in Hrun as (runs & w1 & Hloop & Hrun).
  apply bind_Ok in Hrun as (globmin & w2 & Hmin & Hrun).
  apply lift_Ok in Hmin as [Hmin ->].
  apply bind_Ok in Hrun as (lf & w2 & Hlf & Hrun).
  apply lift_Ok in Hlf as [Hlf ->].
  apply bind_Ok in Hrun as ([] & w2 & Hupd & Hrun).
  inversion Hupd; subst w2; clear Hupd.
  apply bind_Ok in Hrun as (nl & w2 & Hnl & Hrun).
  apply lift_Ok in Hnl as [Hnl ->].
  apply bind_Ok in Hrun as (yfit & w2 & Hy & Hrun).
  apply lift_Ok in Hy as [Hy ->].
  apply bind_Ok in Hrun as (uq & w2 & Huq & Hrun).
  apply bind_Ok in Hrun as (st & w3 & Hst & Hrun).
  apply lift_Ok in Hst as [Hst ->].
  inversion Hrun; subst; clear Hrun. simpl.
  assert (events w = events w1) as Hev.
  { destruct (uqanalysis a).
    - apply bind_Ok in Huq as (q & w4 & Hq & Hret).
      inversion Hret; subst.
      pose proof (uncertainty_world nl lf yfit (Amodel E nl)
                    {| cl := set_linfit lf (cl w1); events := events w1 |}) as Hw.
      rewrite Hq in Hw. simpl in Hw. now subst.
    - inversion Huq; subst. reflexivity. }
  repeat split; try assumption.
  exists seeds, runs, w1, globmin. auto 10.
Qed.

(** The uncertainty object that [snlls] returns answers [ci] with the
    wrapper of lines 302-313 around the intervals of the joined parameter
    set, non-linear parameters first, and [Nnonlin] as the split point. *)
Lemma snlls_paramuq (out : output F Stat) (w : world F) :
  snlls E a = (Ok out, w) ->
  if uqanalysis a then
    exists cov,
      paramuq out =
        Some (ci (uqst_ci E (nonlinfit out ++ linfit_out out) cov
                    (lb' a ++ lbl' E a) (ub' a ++ ubl' E a))
                 (Nnonlin a))
  else paramuq out = None.
Proof.
  unfold snlls, snlls_body, search_and_report. intros Hrun.
  apply bind_Ok in Hrun as ([] & w0 & _ & Hrun).
  apply bind_Ok in Hrun as ([] & w1 & _ & Hrun).
  apply bind_Ok in Hrun as (seeds & w1' & _ & Hrun).
  apply bind_Ok in Hrun as (runs & w2 & _ & Hrun).
  apply bind_Ok in Hrun as (globmin & w3 & _ & Hrun).
  apply bind_Ok in Hrun as (lf & w4 & _ & Hrun).
  apply bind_Ok in Hrun as ([] & w5 & _ & Hrun).
  apply bind_Ok in Hrun as (nl & w6 & _ & Hrun).
  apply bind_Ok in Hrun as (yfit & w7 & _ & Hrun).
  apply bind_Ok in Hrun as (uq & w8 & Huq & Hrun).
  apply bind_Ok in Hrun as (st & w9 & _ & Hrun).
  inversion Hrun; subst; clear Hrun. simpl.
  destruct (uqanalysis a).
  - apply bind_Ok in Huq as (q & w10 & Hq & Hret).
    inversion Hret; subst; clear Hret.
    unfold uncertainty in Hq.
    apply bind_Ok in Hq as (res & w11 & _ & Hq).
    apply bind_Ok in Hq as (J & w12 & _ & Hq).
    apply bind_Ok in Hq as (alpha & w13 & _ & Hq).
    apply bind_Ok in Hq as ([res' J'] & w14 & _ & Hq).
    inversion Hq; subst. eexists. reflexivity.
  - now inversion Huq.
Qed.

(** A returning call ran the solver from every seed, in order, and returns
    the fit of the run that [np.argmin] picks. *)
Lemma snlls_selected_run (out : output F Stat) (w : world F) :
  snlls E a = (Ok out, w) ->
  exists seeds runs w1 globmin cost,
    multiStartPar0 E a = Ok seeds
    /\ starts (events w) = seeds
    /\ multistart_loop E a seeds [] (init_world E a) = (Ok runs, w1)
    /\ length runs = length seeds
    /\ argmin (fvals runs) = Ok globmin
    /\ nth_error runs globmin = Some (cost, nonlinfit out, linfit_out out).
Proof.
  intros Hrun.
  apply snlls_Ok in Hrun
    as (_ & _ & seeds & runs & w1 & globmin & Hseeds & Hloop & Hmin & Hlf & Hnl & Hev).
  pose proof (multistart_loop_Ok _ _ _ Hloop) as (new & Hnew & Hlen & Hst).
  simpl in Hnew, Hst. subst new.
  unfold index in Hlf, Hnl.
  destruct (nth_error (linfits runs) globmin) as [lf|] eqn:Hlf'; [|discriminate].
  destruct (nth_error (nonlinfits runs) globmin) as [nl|] eqn:Hnl';
    [|discriminate].
  inversion Hlf; inversion Hnl; subst lf nl.
  unfold linfits, nonlinfits in *.
  rewrite nth_error_map in Hlf', Hnl'. unfold attempt in *.
  destruct (nth_error runs globmin) as [[[cost x] lf]|] eqn:Hrun_g;
    simpl in Hlf', Hnl'; [|discriminate].
  inversion Hlf'; inversion Hnl'; subst x lf.
  exists seeds, runs, w1, globmin, cost.
  rewrite Hev. auto 10.
Qed.


End MultiStart.

(** * Instances of the properties on the small problem *)

(** An instance of C6: one non-linear and two linear parameters. *)
Lemma ci_nonlin_lin_slices_witness :
  length (Toy.intervals 95) = (1 + 2)%nat
  /\ ci Toy.intervals 1 95%float "nonlin" = Ok [[(-94)%float; 96%float]]
  /\ ci Toy.intervals 1 95%float "lin"
     = Ok [[(-93)%float; 97%float]; [(-92)%float; 98%float]].
Proof.
  assert (length (Toy.intervals 95) = (1 + 2)%nat) as Hlen by reflexivity.
  destruct (ci_nonlin_lin_slices Toy.intervals 1 2 95%float Hlen)
    as (full & Hfull & Hnonlin & Hlin & _).
  split; [exact Hlen|].
  rewrite Hnonlin, Hlin.
  assert (full = Toy.intervals 95) as -> by (inversion Hfull; reflexivity).
  split; vm_compute; reflexivity.
Defined.

(** An instance of C10: a misspelled selector. *)
Lemma ci_other_selector_full_witness :
  "ful"%string <> "nonlin"%string
  /\ "ful"%string <> "lin"%string
  /\ length (Toy.intervals 95) = (1 + 2)%nat
  /\ ci Toy.intervals 1 95%float "ful" = Ok (Toy.intervals 95).
Proof.
  assert ("ful"%string <> "nonlin"%string) as Hn by discriminate.
  assert ("ful"%string <> "lin"%string) as Hl by discriminate.
  assert (length (Toy.intervals 95) = (1 + 2)%nat) as Hlen by reflexivity.
  split; [exact Hn|]. split; [exact Hl|]. split; [exact Hlen|].
  exact (proj1 (ci_other_selector_full Toy.intervals 1 2 95%float Hn Hl Hlen)).
Defined.



(** An instance of C2: the second evaluation, at [[1025]], is within the
    threshold of the first, at [[1024]], and reuses its alpha. *)
Lemma alpha_reuse_decision_witness :
  truthy (includePenalty Toy.collab Toy.selecting) = true
  /\ regparam Toy.selecting = Method "aic"
  /\ check (cl Toy.after_first_call) = has_selection (events Toy.after_first_call)
  /\ rel_change_small Toy.selecting (par_prev (cl Toy.after_first_call)) [1025%float]
     = true
  /\ selections
       (events (snd (ResidualsFcn Toy.collab Toy.selecting [1025%float]
                       Toy.after_first_call)))
     = [[1024%float]]
  /\ regparam_prev
       (cl (snd (ResidualsFcn Toy.collab Toy.selecting [1025%float]
                   Toy.after_first_call)))
     = 1024%float.
Proof.
  assert (truthy (includePenalty Toy.collab Toy.selecting) = true) as Hpen
    by (vm_compute; reflexivity).
  assert (regparam Toy.selecting = Method "aic") as Hm by reflexivity.
  assert (length (par_prev (cl Toy.after_first_call)) = length [1025%float])
    as Hlen by (vm_compute; reflexivity).
  assert (check (cl Toy.after_first_call)
          = has_selection (events Toy.after_first_call)) as Hinv
    by (vm_compute; reflexivity).
  assert (rel_change_small Toy.selecting (par_prev (cl Toy.after_first_call))
            [1025%float] = true) as Hsmall by (vm_compute; reflexivity).
  destruct (alpha_reuse_decision Toy.collab Toy.selecting [1025%float]
              Toy.after_first_call Hpen Hm Hlen Hinv) as (Hsel & Halpha & _).
  split; [exact Hpen|]. split; [exact Hm|]. split; [exact Hinv|].
  split; [exact Hsmall|].
  rewrite Hsel, Halpha, Hsmall. split; vm_compute; reflexivity.
Defined.

(** Instances of C7: a bound vector that is too long, an upper bound below
    the lower bound, and a start value below its lower bound. *)
Lemma bounds_validation_witness :
  lb' Toy.defaults = [neg_infinity]
  /\ ubl' Toy.collab Toy.defaults = [infinity]
  /\ (exists msg, check_bounds Toy.collab Toy.long_bounds = Raise (TypeError msg))
  /\ check_bounds Toy.collab Toy.crossed_bounds = Raise (ValueError msg_bounds)
  /\ check_bounds Toy.collab Toy.start_outside = Raise (ValueError msg_start)
  /\ snlls Toy.collab Toy.start_outside
     = (Raise (ValueError msg_start), init_world Toy.collab Toy.start_outside).
Proof.
  pose proof (bounds_validation Toy.collab Toy.defaults)
    as (Hlb & _ & _ & Hubl & _).
  pose proof (bounds_validation Toy.collab Toy.long_bounds)
    as (_ & _ & _ & _ & Hlen & _).
  pose proof (bounds_validation Toy.collab Toy.crossed_bounds)
    as (_ & _ & _ & _ & _ & Hcross & _).
  pose proof (bounds_validation Toy.collab Toy.start_outside)
    as (_ & _ & _ & _ & _ & _ & Hstart & Hfail).
  assert (lengths_ok Toy.collab Toy.crossed_bounds) as Hok1
    by (repeat split; reflexivity).
  assert (lengths_ok Toy.collab Toy.start_outside) as Hok2
    by (repeat split; reflexivity).
  split; [exact (Hlb eq_refl)|]. split; [exact (Hubl eq_refl)|].
  split.
  { apply Hlen. left. split; [discriminate | vm_compute; discriminate]. }
  split.
  { apply Hcross; [exact Hok1|]. left.
    exists 0%nat, 1%float, 2%float. repeat split; vm_compute; reflexivity. }
  assert (check_bounds Toy.collab Toy.start_outside = Raise (ValueError msg_start))
    as Hout.
  { rewrite Hstart; [reflexivity | exact Hok2 |]. right.
    exists 0%nat, 1%float, 2%float. repeat split; vm_compute; reflexivity. }
  split; [exact Hout|]. exact (proj1 (Hfail _ Hout)).
Defined.



(** * Further properties of [snlls.py] *)

(** ** When the bounds are accepted *)

Section ValidationPasses.

Context {F Stat : Type} {arithF : Arith F} {libmF : Libm F} {orderF : Order F}.
Variable E : Collaborators F Stat.
Variable a : Args F.

Lemma check_bounds_Ok_iff :
  check_bounds E a = Ok tt <->
  lengths_ok E a
  /\ ~ below_somewhere (ub' a) (lb' a)
  /\ ~ below_somewhere (ubl' E a) (lbl' E a)
  /\ ~ below_somewhere (ub' a) (par0 a)
  /\ ~ below_somewhere (par0 a) (lb' a).
Proof.
  rewrite check_bounds_cascade. unfold lengths_ok.
  rewrite <- !crossed_iff.
  destruct (Nat.eqb (length (lb' a)) (Nnonlin a)) eqn:H1; simpl;
    [apply Nat.eqb_eq in H1 | apply Nat.eqb_neq in H1; split; [discriminate|tauto]].
  destruct (Nat.eqb (length (ub' a)) (Nnonlin a)) eqn:H2; simpl;
    [apply Nat.eqb_eq in H2 | apply Nat.eqb_neq in H2; split; [discriminate|tauto]].
  destruct (Nat.eqb (length (lbl' E a)) (Nlin E a)) eqn:H3; simpl;
    [apply Nat.eqb_eq in H3 | apply Nat.eqb_neq in H3; split; [discriminate|tauto]].
  destruct (Nat.eqb (length (ubl' E a)) (Nlin E a)) eqn:H4; simpl;
    [apply Nat.eqb_eq in H4 | apply Nat.eqb_neq in H4; split; [discriminate|tauto]].
  destruct (crossed (ub' a) (lb' a)), (crossed (ubl' E a) (lbl' E a)),
    (crossed (ub' a) (par0 a)), (crossed (par0 a) (lb' a)); simpl;
    split; try discriminate; try tauto; intros; repeat split; auto; discriminate.
Qed.

(** X1.  The bounds check of lines 138-149 lets a call through exactly when
    the four bound vectors, after defaulting, have the lengths of their
    parameter vectors, no upper bound is below its lower bound, and no start
    value is above its upper or below its lower bound. *)
Theorem check_bounds_passes_iff :
  check_bounds E a = Ok tt <->
  lengths_ok E a
  /\ ~ below_somewhere (ub' a) (lb' a)
  /\ ~ below_somewhere (ubl' E a) (lbl' E a)
  /\ ~ below_somewhere (ub' a) (par0 a)
  /\ ~ below_somewhere (par0 a) (lb' a).
Proof. exact check_bounds_Ok_iff. Qed.

(** X2.  With IEEE comparisons, where [<] is false as soon as one side is a
    [nan], start values that are all [nan] pass the bounds check whatever
    the bounds are, provided the bounds themselves are accepted. *)
Theorem nan_start_passes_validation :
  (forall u v : F, fisnan u = true \/ fisnan v = true -> fltb u v = false) ->
  lengths_ok E a ->
  ~ below_somewhere (ub' a) (lb' a) ->
  ~ below_somewhere (ubl' E a) (lbl' E a) ->
  Forall (fun x => fisnan x = true) (par0 a) ->
  check_bounds E a = Ok tt.
Proof.
  intros Hnan Hlen Hb Hbl Hstart. apply check_bounds_Ok_iff.
  rewrite Forall_forall in Hstart.
  repeat split; try assumption; try apply Hlen.
  - intros (i & x & y0 & _ & Hy & Hlt).
    apply nth_error_In in Hy. rewrite Hnan in Hlt; [discriminate|].
    right. now apply Hstart.
  - intros (i & x & y0 & Hx & _ & Hlt).
    apply nth_error_In in Hx. rewrite Hnan in Hlt; [discriminate|].
    left. now apply Hstart.
Qed.

End ValidationPasses.

(** A comparison with [nan] is false in binary64. *)
Lemma SFeqb_irrefl_nan (s : SpecFloat.spec_float) :
  SpecFloat.SFeqb s s = false -> s = SpecFloat.S754_nan.
Proof.
  destruct s as [b|b| |b m e]; simpl; try discriminate; try reflexivity.
  - destruct b; discriminate.
  - unfold SpecFloat.SFeqb. simpl.
    destruct b; rewrite Z.compare_refl, Pos.compare_cont_refl; discriminate.
Qed.

Lemma ltb_nan (u v : float) :
  isnan u = true \/ isnan v = true -> PrimFloat.ltb u v = false.
Proof.
  unfold isnan. rewrite !FloatAxioms.eqb_spec, FloatAxioms.ltb_spec.
  unfold SpecFloat.SFltb.
  intros [Hu | Hv].
  - apply negb_true_iff, SFeqb_irrefl_nan in Hu. rewrite Hu. reflexivity.
  - apply negb_true_iff, SFeqb_irrefl_nan in Hv. rewrite Hv.
    destruct (FloatOps.Prim2SF u); reflexivity.
Qed.

(** An instance of X2: the start value [nan] between the bounds 0 and 1. *)
Lemma nan_start_passes_validation_witness :
  (forall u v : float, fisnan u = true \/ fisnan v = true -> fltb u v = false)
  /\ lengths_ok Toy.collab Toy.nan_start
  /\ ~ below_somewhere (ub' Toy.nan_start) (lb' Toy.nan_start)
  /\ ~ below_somewhere (ubl' Toy.collab Toy.nan_start)
                       (lbl' Toy.collab Toy.nan_start)
  /\ Forall (fun x => fisnan x = true) (par0 Toy.nan_start)
  /\ lb' Toy.nan_start = [0%float]
  /\ ub' Toy.nan_start = [1%float]
  /\ check_bounds Toy.collab Toy.nan_start = Ok tt.
Proof.
  assert (forall u v : float,
            fisnan u = true \/ fisnan v = true -> fltb u v = false) as Hnan
    by exact ltb_nan.
  assert (lengths_ok Toy.collab Toy.nan_start) as Hlen
    by (repeat split; reflexivity).
  assert (~ below_somewhere (ub' Toy.nan_start) (lb' Toy.nan_start)) as Hb.
  { rewrite <- crossed_iff. vm_compute. discriminate. }
  assert (~ below_somewhere (ubl' Toy.collab Toy.nan_start)
                            (lbl' Toy.collab Toy.nan_start)) as Hbl.
  { rewrite <- crossed_iff. vm_compute. discriminate. }
  assert (Forall (fun x => fisnan x = true) (par0 Toy.nan_start)) as Hstart
    by (repeat constructor).
  split; [exact Hnan|]. split; [exact Hlen|]. split; [exact Hb|].
  split; [exact Hbl|]. split; [exact Hstart|].
  split; [reflexivity|]. split; [reflexivity|].
  exact (nan_start_passes_validation Hnan Hlen Hb Hbl Hstart).
Defined.

(** ** [ci] on an interval matrix with too few rows *)

Lemma take_out_of_range {B} (l : list B) (n k : nat) :
  length l < k + n -> 0 < n ->
  take l (seq k n) = Raise (IndexError "index out of bounds").
Proof.
  revert k. induction n as [|n IH]; intros k Hlen Hn; [lia|]. simpl.
  destruct (nth_error l k) as [x|] eqn:Hk; [|reflexivity].
  assert (k < length l) by (apply nth_error_Some; congruence).
  rewrite IH by lia. reflexivity.
Qed.

(** X3.  When the interval matrix of the joined parameter set has fewer rows
    than there are non-linear parameters, the selector ['nonlin'] fails with
    an [IndexError], while ['lin'] returns an empty matrix without any
    error. *)
Theorem ci_short_matrix {F : Type} (paramuq_ci : F -> matrix F) (W : nat)
    (coverage : F) :
  length (paramuq_ci coverage) < W ->
  ci paramuq_ci W coverage "nonlin" = Raise (IndexError "index out of bounds")
  /\ ci paramuq_ci W coverage "lin" = Ok [].
Proof.
  intros Hlen. unfold ci. simpl. split.
  - apply take_out_of_range; simpl; lia.
  - rewrite skipn_all2 by lia. reflexivity.
Qed.

(** ** Shapes and failures of [_augment] *)

Section AugmentShapes.

Context {F : Type} {arithF : Arith F} {libmF : Libm F} {orderF : Order F}.

Lemma known_regtype_cases (rt : pystr) :
  known_regtype rt = true ->
  rt = lit "tikhonov" \/ rt = lit "tv" \/ rt = lit "huber".
Proof.
  unfold known_regtype. intros Hk.
  apply orb_true_iff in Hk as [Hk|Hk]; [apply orb_true_iff in Hk as [Hk|Hk]|];
    apply is_literal_lit in Hk; auto.
Qed.

Lemma matvec_length (A : matrix F) (x r : vec F) :
  matvec A x = Ok r -> length r = nrows A.
Proof. intros Hr. rewrite (matvec_Ok _ _ Hr). apply length_map. Qed.

Lemma matvec_defined (A : matrix F) (x : vec F) :
  forallb (fun r => Nat.eqb (length r) (length x)) A = true ->
  matvec A x = Ok (map (fun r => dot r x) A).
Proof. unfold matvec. now intros ->. Qed.

Lemma matvec_mismatch (A : matrix F) (x : vec F) :
  forallb (fun r => Nat.eqb (length r) (length x)) A = false ->
  matvec A x = Raise (ValueError "matmul: mismatch in core dimension").
Proof. unfold matvec. now intros ->. Qed.

Lemma rows_longer_self (A : matrix F) (f : list F -> list F) :
  (forall r, length (f r) = length r) ->
  rows_longer_by 0 (map f A) A.
Proof.
  intros Hf. induction A as [|r A IH]; simpl; constructor; auto.
Qed.

Lemma rows_longer_refl (A : matrix F) : rows_longer_by 0 A A.
Proof. induction A; constructor; auto. Qed.

Lemma row_scale_rows (d : list F -> F) (A : matrix F) :
  rows_longer_by 0 (row_scale (map d A) A) A.
Proof.
  unfold row_scale. rewrite combine_map_self, map_map.
  apply rows_longer_self. intros r. apply length_map.
Qed.

Lemma mscale_rows (c : F) (J A : matrix F) :
  rows_longer_by 0 J A -> rows_longer_by 0 (mscale c J) A.
Proof.
  unfold rows_longer_by, mscale. induction 1; simpl; constructor; auto.
  unfold vscale. now rewrite length_map.
Qed.

(** The factor of the Huber branch is there, or one of the two errors of
    Python's float arithmetic. *)
Lemma huber_factor_cases (eta : F) :
  (exists c, huber_factor eta = Ok c)
  \/ huber_factor eta = Raise (OverflowError "(34, 'Numerical result out of range')")
  \/ huber_factor eta = Raise (ZeroDivisionError "float division by zero").
Proof.
  unfold huber_factor, py_pow2, py_div.
  destruct (fisinf (fpow eta (f_of_Z 2)) && negb (fisinf eta)); simpl; [auto|].
  destruct (feqb (fpow eta (f_of_Z 2)) (f_of_Z 0)); eauto.
Qed.

(** The two locals of [_augment] have one entry, and one row, per row of [L]. *)
Lemma penalty_terms_shape (rt : pystr) (L : matrix F) (x : vec F) (eta : F)
    (resreg : vec F) (Jreg : matrix F) :
  penalty_terms rt L x eta = Ok (resreg, Jreg) ->
  length resreg = nrows L /\ rows_longer_by 0 Jreg L.
Proof.
  unfold penalty_terms.
  destruct (is_literal rt "tikhonov");
    [|destruct (is_literal rt "tv"); [|destruct (is_literal rt "huber")]];
    try discriminate;
    destruct (matvec L x) as [Lx|e] eqn:HLx; simpl; try discriminate;
    try (destruct (py_pow2 eta) as [eta2|e]; simpl; try discriminate;
         destruct (py_div half eta2) as [c|e]; simpl; try discriminate);
    intros Hr; inversion Hr; subst; clear Hr;
    pose proof (matvec_Ok _ _ HLx) as ->;
    rewrite ?length_map; (split; [reflexivity|]).
  - apply rows_longer_refl.
  - rewrite map_map. apply mscale_rows, row_scale_rows.
  - rewrite map_map. apply mscale_rows, row_scale_rows.
Qed.

(** What [penalty_terms] does on one of the three literals: it returns, or
    fails on the product [L@x], or, in the Huber branch and after that
    product, on the factor [0.5/(eta**2)]. *)
Lemma penalty_terms_known (rt : pystr) (L : matrix F) (x : vec F) (eta : F) :
  known_regtype rt = true ->
  (exists resreg Jreg,
      matvec L x = Ok (map (fun r => dot r x) L)
      /\ (is_literal rt "huber" = true -> is_ok (huber_factor eta) = true)
      /\ penalty_terms rt L x eta = Ok (resreg, Jreg))
  \/ (matvec L x = Raise (ValueError "matmul: mismatch in core dimension")
      /\ penalty_terms rt L x eta
         = Raise (ValueError "matmul: mismatch in core dimension"))
  \/ (exists e,
        matvec L x = Ok (map (fun r => dot r x) L)
        /\ is_literal rt "huber" = true
        /\ huber_factor eta = Raise e
        /\ penalty_terms rt L x eta = Raise e).
Proof.
  intros Hk.
  destruct (forallb (fun r => Nat.eqb (length r) (length x)) L) eqn:Hshape.
  - pose proof (matvec_defined _ _ Hshape) as Hm.
    unfold penalty_terms.
    destruct (known_regtype_cases _ Hk) as [-> | [-> | ->]]; cbn;
      rewrite Hm; cbn.
    + left. eexists _, _. repeat split. discriminate.
    + left. eexists _, _. repeat split. discriminate.
    + unfold huber_factor.
      destruct (py_pow2 eta) as [eta2|e]; cbn.
      * destruct (py_div half eta2) as [c|e]; cbn.
        -- left. eexists _, _. repeat split.
        -- right. right. exists e. auto.
      * right. right. exists e. auto.
  - right. left. pose proof (matvec_mismatch _ _ Hshape) as Hm.
    split; [assumption|]. unfold penalty_terms.
    destruct (known_regtype_cases _ Hk) as [-> | [-> | ->]]; cbn;
      rewrite Hm; reflexivity.
Qed.

Lemma hstack_zeros_rows (W : nat) (Jreg L : matrix F) :
  rows_longer_by 0 Jreg L ->
  exists block,
    hstack (zeros (nrows L) W) Jreg = Ok block
    /\ rows_longer_by W block L
    /\ Forall2 (fun b j => b = repeat (f_of_Z 0) W ++ j) block Jreg.
Proof.
  intros Hrows. unfold hstack, zeros, nrows.
  assert (length Jreg = length L) as Hlen by (eapply Forall2_length; eassumption).
  rewrite repeat_length, Hlen, Nat.eqb_refl.
  rewrite <- Hlen, combine_repeat_l, map_map.
  eexists. split; [reflexivity|]. split.
  - clear Hlen. induction Hrows as [|j l Jreg' L' Hjl Hrest IH]; simpl;
      constructor; auto.
    rewrite length_app, repeat_length. simpl in Hjl. lia.
  - clear. induction Jreg; simpl; constructor; auto.
Qed.

Lemma augment_known_shapes (res : vec F) (J : matrix F) (rt : pystr) (alpha : F)
    (L : matrix F) (x : vec F) (eta : F) (W : nat) :
  known_regtype rt = true ->
  forallb (fun r => Nat.eqb (length r) (length x)) L = true ->
  (is_literal rt "huber" = true -> is_ok (huber_factor eta) = true) ->
  (msize J = 0%nat ->
   exists resreg,
     _augment res J rt alpha L x eta W = Ok (res ++ resreg, J)
     /\ length resreg = nrows L)
  /\ (msize J <> 0%nat -> L <> [] -> ncols J = (W + ncols L)%nat ->
      exists resreg Jreg block,
        _augment res J rt alpha L x eta W = Ok (res ++ resreg, J ++ block)
        /\ length resreg = nrows L
        /\ rows_longer_by W block L
        /\ Forall2 (fun b j => b = repeat (f_of_Z 0) W ++ j) block Jreg).
Proof.
  intros Hk Hshape Heta.
  destruct (penalty_terms_known rt L x eta Hk)
    as [(resreg & Jreg & Hm & _ & Hp) | [[Hm _] | (e & _ & Hh & He & _)]];
    [|rewrite (matvec_defined _ _ Hshape) in Hm; discriminate
     |rewrite He in Heta; specialize (Heta Hh); discriminate].
  destruct (penalty_terms_shape _ _ _ _ Hp) as [Hlen Hrows].
  unfold _augment. rewrite Hp. simpl. split.
  - intros ->. simpl. exists (vscale alpha resreg).
    split; [reflexivity|]. unfold vscale. now rewrite length_map.
  - intros Hsize _ Hcols. apply Nat.eqb_neq in Hsize. rewrite Hsize. simpl.
    destruct (hstack_zeros_rows W (mscale_rows alpha Hrows))
      as (block & Hblock & Hbrows & Hzeros).
    rewrite Hblock. simpl.
    exists (vscale alpha resreg), (mscale alpha Jreg), block.
    split.
    + unfold vstack.
      destruct J as [|ra J']; [now apply Nat.eqb_neq in Hsize|].
      destruct block as [|rb B]; [reflexivity|].
      inversion Hbrows as [|? l ? L' Hrb ? HL]; subst.
      simpl in Hcols. rewrite Hcols, Hrb. simpl. now rewrite Nat.eqb_refl.
    + split; [unfold vscale; now rewrite length_map|]. auto.
Qed.

(** X4.  For a penalty type that is one of the three literals, an operator
    [L] whose rows have the length of [x] and, with the Huber penalty, an
    [eta] for which Python computes [0.5/(eta**2)], [_augment] returns: the
    residual grows by one entry per row of [L]; a Jacobian of size 0 comes
    back untouched; a Jacobian with [Nnonlin + ncols L] columns grows by one
    row per row of [L] (there is at least one), each made of [Nnonlin] zeros
    followed by a row as long as the row of [L]. *)
Theorem augment_shapes (res : vec F) (J : matrix F) (rt : pystr) (alpha : F)
    (L : matrix F) (x : vec F) (eta : F) (W : nat) :
  known_regtype rt = true ->
  forallb (fun r => Nat.eqb (length r) (length x)) L = true ->
  (is_literal rt "huber" = true -> is_ok (huber_factor eta) = true) ->
  (msize J = 0%nat ->
   exists resreg,
     _augment res J rt alpha L x eta W = Ok (res ++ resreg, J)
     /\ length resreg = nrows L)
  /\ (msize J <> 0%nat -> L <> [] -> ncols J = (W + ncols L)%nat ->
      exists resreg Jreg block,
        _augment res J rt alpha L x eta W = Ok (res ++ resreg, J ++ block)
        /\ length resreg = nrows L
        /\ rows_longer_by W block L
        /\ Forall2 (fun b j => b = repeat (f_of_Z 0) W ++ j) block Jreg).
Proof. apply augment_known_shapes. Qed.

(** X5.  The failures of [_augment], in the order in which the code meets
    them, and no other: the unbound local for a penalty type that is not one
    of the three literals, whatever the other arguments are; for one of the
    literals, numpy's [ValueError] when a row of [L] has not the length of
    [x]; with the Huber penalty, the [OverflowError] of [eta**2] and the
    [ZeroDivisionError] of [0.5/(eta**2)]; and, when all this is in order
    and [L] has a row, numpy's [ValueError] when the Jacobian that was
    passed has not [Nnonlin + ncols L] columns. *)
Theorem augment_failures (res : vec F) (J : matrix F) (rt : pystr) (alpha : F)
    (L : matrix F) (x : vec F) (eta : F) (W : nat) :
  (known_regtype rt = false ->
   _augment res J rt alpha L x eta W = Raise (UnboundLocalError "resreg"))
  /\ (known_regtype rt = true ->
      forallb (fun r => Nat.eqb (length r) (length x)) L = false ->
      _augment res J rt alpha L x eta W
      = Raise (ValueError "matmul: mismatch in core dimension"))
  /\ (is_literal rt "huber" = true ->
      forallb (fun r => Nat.eqb (length r) (length x)) L = true ->
      forall e, huber_factor eta = Raise e ->
      _augment res J rt alpha L x eta W = Raise e
      /\ (e = OverflowError "(34, 'Numerical result out of range')"
          \/ e = ZeroDivisionError "float division by zero"))
  /\ (known_regtype rt = true ->
      forallb (fun r => Nat.eqb (length r) (length x)) L = true ->
      (is_literal rt "huber" = true -> is_ok (huber_factor eta) = true) ->
      msize J <> 0%nat -> L <> [] -> ncols J <> (W + ncols L)%nat ->
      exists msg, _augment res J rt alpha L x eta W = Raise (ValueError msg))
  /\ (L <> [] ->
      (is_ok (_augment res J rt alpha L x eta W) = true <->
       known_regtype rt = true
       /\ forallb (fun r => Nat.eqb (length r) (length x)) L = true
       /\ (is_literal rt "huber" = true -> is_ok (huber_factor eta) = true)
       /\ (msize J = 0%nat \/ ncols J = (W + ncols L)%nat))).
Proof.
  assert (known_regtype rt = false ->
          _augment res J rt alpha L x eta W = Raise (UnboundLocalError "resreg"))
    as Hunknown.
  { intros Hk. unfold _augment. now rewrite penalty_terms_unknown. }
  assert (known_regtype rt = true ->
          forallb (fun r => Nat.eqb (length r) (length x)) L = false ->
          _augment res J rt alpha L x eta W
          = Raise (ValueError "matmul: mismatch in core dimension")) as Hshape.
  { intros Hk Hs.
    destruct (penalty_terms_known rt L x eta Hk)
      as [(resreg & Jreg & Hm & _) | [[_ Hp] | (e & Hm & _)]].
    - rewrite (matvec_mismatch _ _ Hs) in Hm. discriminate.
    - unfold _augment. now rewrite Hp.
    - rewrite (matvec_mismatch _ _ Hs) in Hm. discriminate. }
  assert (is_literal rt "huber" = true ->
          forallb (fun r => Nat.eqb (length r) (length x)) L = true ->
          forall e, huber_factor eta = Raise e ->
          _augment res J rt alpha L x eta W = Raise e
          /\ (e = OverflowError "(34, 'Numerical result out of range')"
              \/ e = ZeroDivisionError "float division by zero")) as Hfactor.
  { intros Hh Hs e He.
    assert (known_regtype rt = true) as Hk
      by (unfold known_regtype; rewrite Hh; now rewrite !orb_true_r).
    split.
    - destruct (penalty_terms_known rt L x eta Hk)
        as [(resreg & Jreg & _ & Hyes & _) | [[Hm _] | (e' & _ & _ & He' & Hp)]].
      + rewrite He in Hyes. specialize (Hyes Hh). discriminate.
      + rewrite (matvec_defined _ _ Hs) in Hm. discriminate.
      + unfold _augment. rewrite Hp. simpl.
        rewrite He in He'. now inversion He'.
    - destruct (huber_factor_cases eta) as [[c Hc] | [Ho | Hz]];
        rewrite He in *; [discriminate | inversion Ho | inversion Hz]; auto. }
  assert (known_regtype rt = true ->
          forallb (fun r => Nat.eqb (length r) (length x)) L = true ->
          (is_literal rt "huber" = true -> is_ok (huber_factor eta) = true) ->
          msize J <> 0%nat -> L <> [] -> ncols J <> (W + ncols L)%nat ->
          exists msg, _augment res J rt alpha L x eta W = Raise (ValueError msg))
    as Hcols.
  { intros Hk Hs Heta Hsize HL Hc.
    destruct (penalty_terms_known rt L x eta Hk)
      as [(resreg & Jreg & Hm & _ & Hp) | [[Hm _] | (e & _ & Hh & He & _)]];
      [|rewrite (matvec_defined _ _ Hs) in Hm; discriminate
       |rewrite He in Heta; specialize (Heta Hh); discriminate].
    destruct (penalty_terms_shape _ _ _ _ Hp) as [Hlen Hrows].
    unfold _augment. rewrite Hp. simpl.
    apply Nat.eqb_neq in Hsize. rewrite Hsize. simpl.
    destruct (hstack_zeros_rows W (mscale_rows alpha Hrows))
      as (block & Hblock & Hbrows & _).
    rewrite Hblock. simpl. unfold vstack.
    destruct J as [|ra J']; [now apply Nat.eqb_neq in Hsize|].
    destruct L as [|l L']; [congruence|].
    inversion Hbrows as [|rb ? B ? Hrb ? HB]; subst.
    simpl in Hc. rewrite Hrb.
    apply Nat.eqb_neq in Hc. rewrite Hc. eexists. reflexivity. }
  split; [exact Hunknown|]. split; [exact Hshape|]. split; [exact Hfactor|].
  split; [exact Hcols|].
  intros HL. split.
  - intros Hok.
    destruct (known_regtype rt) eqn:Hk;
      [|rewrite Hunknown in Hok by reflexivity; discriminate].
    destruct (forallb (fun r => Nat.eqb (length r) (length x)) L) eqn:Hs;
      [|rewrite Hshape in Hok by reflexivity; discriminate].
    assert (is_literal rt "huber" = true -> is_ok (huber_factor eta) = true)
      as Heta.
    { intros Hh. destruct (huber_factor eta) as [c|e] eqn:He; [reflexivity|].
      destruct (Hfactor Hh eq_refl e eq_refl) as [Hr _].
      rewrite Hr in Hok. discriminate. }
    split; [reflexivity|]. split; [reflexivity|]. split; [exact Heta|].
    destruct (Nat.eq_dec (msize J) 0) as [|Hsize]; [auto|].
    destruct (Nat.eq_dec (ncols J) (W + ncols L)) as [|Hc]; [auto|].
    destruct Hcols as [msg Hmsg]; try reflexivity; try assumption.
    rewrite Hmsg in Hok. discriminate.
  - intros (Hk & Hs & Heta & Hcases).
    destruct (@augment_known_shapes res J rt alpha L x eta W Hk Hs Heta)
      as [Hempty Hfull].
    destruct (Nat.eq_dec (msize J) 0) as [Hz|Hsize].
    + destruct (Hempty Hz) as (resreg & -> & _). reflexivity.
    + destruct Hcases as [Hz | Hc]; [contradiction|].
      destruct (Hfull Hsize HL Hc) as (resreg & Jreg & block & -> & _).
      reflexivity.
Qed.

End AugmentShapes.

(** An instance of X4: the Huber penalty with a one-row operator and the
    default [huberparam], without and with a Jacobian. *)
Lemma augment_shapes_witness :
  known_regtype "huber" = true
  /\ forallb (fun r => Nat.eqb (length r) (length [1%float; 2%float]))
       [[1%float; (-1)%float]] = true
  /\ is_ok (huber_factor (huberparam Toy.defaults)) = true
  /\ (exists resreg,
        _augment [3%float] [] "huber" 2%float [[1%float; (-1)%float]]
          [1%float; 2%float] (huberparam Toy.defaults) 1
        = Ok ([3%float] ++ resreg, [])
        /\ length resreg = 1%nat)
  /\ (exists resreg Jreg block,
        _augment [3%float] [[1%float; 2%float; 3%float]] "huber" 2%float
          [[1%float; (-1)%float]] [1%float; 2%float] (huberparam Toy.defaults) 1
        = Ok ([3%float] ++ resreg, [[1%float; 2%float; 3%float]] ++ block)
        /\ length resreg = 1%nat
        /\ rows_longer_by 1 block [[1%float; (-1)%float]]
        /\ Forall2 (fun b j => b = repeat (f_of_Z 0) 1 ++ j) block Jreg).
Proof.
  assert (known_regtype "huber" = true) as Hk by reflexivity.
  assert (forallb (fun r => Nat.eqb (length r) (length [1%float; 2%float]))
            [[1%float; (-1)%float]] = true) as Hs by reflexivity.
  assert (is_ok (huber_factor (huberparam Toy.defaults)) = true) as Heta
    by (vm_compute; reflexivity).
  split; [exact Hk|]. split; [exact Hs|]. split; [exact Heta|]. split.
  - apply (proj1 (@augment_shapes float F64.arith Toy.libm F64.order
                    [3%float] [] "huber" 2%float
                    [[1%float; (-1)%float]] [1%float; 2%float]
                    (huberparam Toy.defaults) 1 Hk Hs (fun _ => Heta))).
    reflexivity.
  - apply (proj2 (@augment_shapes float F64.arith Toy.libm F64.order [3%float]
                    [[1%float; 2%float; 3%float]] "huber" 2%float
                    [[1%float; (-1)%float]] [1%float; 2%float]
                    (huberparam Toy.defaults) 1 Hk Hs (fun _ => Heta))).
    + simpl. discriminate.
    + discriminate.
    + reflexivity.
Defined.

(** An instance of X3: three rows of intervals and four non-linear
    parameters. *)
Lemma ci_short_matrix_witness :
  length (Toy.intervals 95) < 4
  /\ ci Toy.intervals 4 95%float "nonlin" = Raise (IndexError "index out of bounds")
  /\ ci Toy.intervals 4 95%float "lin" = Ok [].
Proof.
  assert (length (Toy.intervals 95) < 4) as Hlen by (simpl; lia).
  split; [exact Hlen|].
  exact (@ci_short_matrix float Toy.intervals 4 95%float Hlen).
Defined.

(** ** The length of the objective's residual vector *)

Section ResidualLength.

Context {F Stat : Type} {arithF : Arith F} {libmF : Libm F} {orderF : Order F}.
Variable E : Collaborators F Stat.
Variable a : Args F.

Lemma bcast2_same_length {B} (f : F -> F -> B) (u v : vec F) (r : list B) :
  length u = length v -> bcast2 f u v = Ok r -> length r = length v.
Proof.
  intros Hlen. unfold bcast2. rewrite Hlen, Nat.eqb_refl.
  intros Hr. inversion Hr. rewrite length_map, length_combine. lia.
Qed.

(** X6.  When an evaluation of the objective returns and the model matrix
    has one row per data point, the residual vector has [N] entries without
    a penalty and [N + 2 * rows(L)] entries with one: the data residual, the
    penalty of line 244, and the penalty that [_augment] appends again. *)
Theorem objective_residual_length (p r : vec F) (w w' : world F) :
  ResidualsFcn E a p w = (Ok r, w') ->
  nrows (Amodel E p) = length (y a) ->
  length r =
    (length (y a)
     + if truthy (includePenalty E a) then 2 * nrows (L E a) else 0)%nat.
Proof.
  intros Hrun Hrows.
  destruct (ResidualsFcn_Ok _ _ _ _ Hrun) as (alpha & _ & Hvec & _).
  destruct (residual_vector_shape _ _ _ _ _ Hvec) as (yfit & dres & Hfit & Hd & Hr).
  assert (length dres = length (y a)) as Hdres.
  { apply (bcast2_same_length _ _ _ (r := dres)) in Hd; [exact Hd|].
    rewrite (matvec_length _ _ Hfit). exact Hrows. }
  destruct (truthy (includePenalty E a)).
  - destruct Hr as (pen & resreg & Jreg & Hpen & Hterms & ->).
    apply matvec_length in Hpen.
    destruct (penalty_terms_shape _ _ _ _ Hterms) as [Hlen _].
    rewrite !length_app, Hdres, Hpen. unfold vscale, mscale, nrows in *.
    rewrite !length_map, Hlen. unfold matrix, vec. lia.
  - subst r. rewrite Hdres. lia.
Qed.

End ResidualLength.

(** An instance of X6: one data point and a one-row operator. *)
Lemma objective_residual_length_witness :
  fst (ResidualsFcn Toy.collab Toy.penalized [1%float]
         (init_world Toy.collab Toy.penalized))
  = Ok [(-1)%float; 1%float; 1%float]
  /\ nrows (Amodel Toy.collab [1%float]) = length (y Toy.penalized)
  /\ length [(-1)%float; 1%float; 1%float]
     = (length (y Toy.penalized)
        + if truthy (includePenalty Toy.collab Toy.penalized)
          then 2 * nrows (L Toy.collab Toy.penalized) else 0)%nat.
Proof.
  assert (ResidualsFcn Toy.collab Toy.penalized [1%float]
            (init_world Toy.collab Toy.penalized)
          = (Ok [(-1)%float; 1%float; 1%float],
             snd (ResidualsFcn Toy.collab Toy.penalized [1%float]
                    (init_world Toy.collab Toy.penalized)))) as Hrun.
  { apply injective_projections; [vm_compute; reflexivity | reflexivity]. }
  assert (nrows (Amodel Toy.collab [1%float]) = length (y Toy.penalized))
    as Hrows by reflexivity.
  split; [rewrite Hrun; reflexivity|]. split; [exact Hrows|].
  exact (objective_residual_length Toy.collab Toy.penalized _ _ Hrun Hrows).
Defined.

(** ** Calls without bounds *)

Section DefaultBounds.

Context {F Stat : Type} {arithF : Arith F} {libmF : Libm F} {orderF : Order F}.
Variable E : Collaborators F Stat.
Variable a : Args F.

Lemma forallb_repeat {B} (f : B -> bool) (x : B) (n : nat) :
  f x = true -> forallb f (repeat x n) = true.
Proof. intros Hx. induction n as [|n IH]; simpl; [reflexivity|now rewrite Hx]. Qed.

Lemma linearConstrained_default :
  fisinf (finf (F := F)) = true -> fisinf (fneg (finf (F := F))) = true ->
  lbl a = [] -> ubl a = [] -> linearConstrained E a = false.
Proof.
  intros Hinf Hninf Hlbl Hubl.
  unfold linearConstrained, lbl', ubl', full. rewrite Hlbl, Hubl. simpl.
  now rewrite !forallb_repeat.
Qed.

Lemma nonLinearConstrained_default :
  fisinf (finf (F := F)) = true -> fisinf (fneg (finf (F := F))) = true ->
  lb a = [] -> ub a = [] -> nonLinearConstrained a = false.
Proof.
  intros Hinf Hninf Hlb Hub.
  unfold nonLinearConstrained, lb', ub', full. rewrite Hlb, Hub. simpl.
  now rewrite !forallb_repeat.
Qed.

(** X7.  With IEEE infinities, a call that passes no bounds on the linear
    parameters solves every linear problem with [numpy.linalg.solve],
    whatever [nnlsSolver] says; and a call that passes no bounds on the
    non-linear parameters is refused as soon as [multiStarts > 1]. *)
Theorem default_bounds_unconstrained :
  fisinf (finf (F := F)) = true ->
  fisinf (fneg (finf (F := F))) = true ->
  (lbl a = [] -> ubl a = [] ->
   forall solver,
     linSolver E (with_names (regtype a) solver a)
     = Some (fun AtA Aty => solve E AtA Aty))
  /\ (lb a = [] -> ub a = [] -> (1 < multiStarts a)%Z ->
      multistart_gate a = Raise (TypeError msg_multistart)
      /\ (check_bounds E a = Ok tt ->
          snlls E a = (Raise (TypeError msg_multistart), init_world E a))).
Proof.
  intros Hinf Hninf. split.
  - intros Hlbl Hubl solver.
    assert (linearConstrained E (with_names (regtype a) solver a) = false) as Hlc
      by exact (linearConstrained_default Hinf Hninf Hlbl Hubl).
    unfold linSolver. rewrite Hlc. reflexivity.
  - intros Hlb Hub Hms.
    assert (multistart_gate a = Raise (TypeError msg_multistart)) as Hgate.
    { unfold multistart_gate.
      rewrite (nonLinearConstrained_default Hinf Hninf Hlb Hub).
      apply Z.ltb_lt in Hms. now rewrite Hms. }
    split; [exact Hgate|].
    intros Hcheck. unfold snlls, snlls_body, bind, lift.
    now rewrite Hcheck, Hgate.
Qed.

End DefaultBounds.

(** An instance of X7: the call of [Toy.defaults] with another solver name,
    and with two starts. *)
Lemma default_bounds_unconstrained_witness :
  fisinf infinity = true
  /\ fisinf (fneg infinity) = true
  /\ linSolver Toy.collab Toy.odd_solver
     = Some (fun AtA Aty => solve Toy.collab AtA Aty)
  /\ snlls Toy.collab Toy.unbounded_starts
     = (Raise (TypeError msg_multistart), init_world Toy.collab Toy.unbounded_starts).
Proof.
  assert (fisinf infinity = true) as Hinf by reflexivity.
  assert (fisinf (fneg infinity) = true) as Hninf by reflexivity.
  split; [exact Hinf|]. split; [exact Hninf|]. split.
  - exact (proj1 (default_bounds_unconstrained Toy.collab Toy.defaults Hinf Hninf)
             eq_refl eq_refl "scipy"%string).
  - apply (proj2 (default_bounds_unconstrained Toy.collab Toy.unbounded_starts
                    Hinf Hninf));
      vm_compute; reflexivity.
Defined.

(** ** Goodness of fit *)

Section Goodness.

Context {F Stat : Type} {arithF : Arith F} {libmF : Libm F} {orderF : Order F}.
Variable E : Collaborators F Stat.
Variable a : Args F.

Lemma take_is_ok {B} (l : list B) (idx : list nat) :
  is_ok (take l idx) = forallb (fun i => Nat.ltb i (length l)) idx.
Proof.
  induction idx as [|i idx IH]; simpl; [reflexivity|].
  destruct (nth_error l i) as [x|] eqn:Hi.
  - assert (i < length l) as Hlt by (apply nth_error_Some; congruence).
    apply Nat.ltb_lt in Hlt. rewrite Hlt. simpl. rewrite <- IH.
    destruct (take l idx); reflexivity.
  - apply nth_error_None in Hi.
    assert (Nat.ltb i (length l) = false) as -> by (apply Nat.ltb_ge; lia).
    reflexivity.
Qed.

Lemma take_raises {B} (l : list B) (idx : list nat) (e : exn) :
  take l idx = Raise e -> e = IndexError "index out of bounds".
Proof.
  induction idx as [|i idx IH]; simpl; [discriminate|].
  destruct (nth_error l i); [|intros Hr; now inversion Hr].
  destruct (take l idx); simpl; [discriminate|].
  intros Hr. inversion Hr; subst. now apply IH.
Qed.

Lemma take_length {B} (l xs : list B) (idx : list nat) :
  take l idx = Ok xs -> length xs = length idx.
Proof.
  revert xs. induction idx as [|i idx IH]; intros xs; simpl.
  - intros Hr. now inversion Hr.
  - destruct (nth_error l i); [|discriminate].
    destruct (take l idx) as [ys|]; simpl; [|discriminate].
    intros Hr. inversion Hr. simpl. now rewrite (IH ys).
Qed.

Lemma mapR_is_ok {A B} (f : A -> result B) (l : list A) :
  is_ok (mapR f l) = forallb (fun x => is_ok (f x)) l.
Proof.
  induction l as [|x l IH]; simpl; [reflexivity|].
  destruct (f x); simpl; [|reflexivity].
  rewrite <- IH. destruct (mapR f l); reflexivity.
Qed.

Lemma mapR_length {A B} (f : A -> result B) (l : list A) (bs : list B) :
  mapR f l = Ok bs -> length bs = length l.
Proof.
  revert bs. induction l as [|x l IH]; intros bs; simpl.
  - intros Hr. now inversion Hr.
  - destruct (f x); simpl; [|discriminate].
    destruct (mapR f l) as [cs|]; simpl; [|discriminate].
    intros Hr. inversion Hr. simpl. now rewrite (IH cs).
Qed.

Lemma mapR_raises {A B} (f : A -> result B) (l : list A) (e : exn) :
  mapR f l = Raise e -> exists x, In x l /\ f x = Raise e.
Proof.
  induction l as [|x l IH]; simpl; [discriminate|].
  destruct (f x) as [b|e'] eqn:Hx; simpl.
  - destruct (mapR f l); simpl; [discriminate|].
    intros Hr. inversion Hr; subst.
    destruct IH as (z & Hz & Hfz); [reflexivity|]. eauto.
  - intros Hr. inversion Hr; subst. eauto.
Qed.

Lemma goodness_cases (yfit : vec F) :
  is_ok (goodness E a yfit)
  = forallb (fun subset =>
               forallb (fun i => Nat.ltb i (length (y a))) subset
               && forallb (fun i => Nat.ltb i (length yfit)) subset)
            (subsets a)
  /\ (forall e, goodness E a yfit = Raise e -> e = IndexError "index out of bounds")
  /\ (forall s, goodness E a yfit = Ok s ->
      match s with
      | inl st =>
          exists subset ys yf,
            subsets a = [subset]
            /\ take (y a) subset = Ok ys
            /\ take yfit subset = Ok yf
            /\ st = goodness_of_fit E ys yf
                      (Z.of_nat (length subset) - Z.of_nat (length (par0 a)))
      | inr l =>
          length l = length (subsets a) /\ length (subsets a) <> 1%nat
      end).
Proof.
  unfold goodness.
  set (one := fun subset : list nat =>
                (ys <- take (y a) subset ;;
                 yf <- take yfit subset ;;
                 Ok (goodness_of_fit E ys yf
                       (Z.of_nat (length ys) - Z.of_nat (Nnonlin a))))%res).
  assert (forall subset,
            is_ok (one subset)
            = forallb (fun i => Nat.ltb i (length (y a))) subset
              && forallb (fun i => Nat.ltb i (length yfit)) subset) as Hone.
  { intros subset. unfold one. rewrite <- !take_is_ok.
    destruct (take (y a) subset); simpl; [|reflexivity].
    destruct (take yfit subset); reflexivity. }
  split; [|split].
  - destruct (mapR one (subsets a)) as [st|e] eqn:Hmap.
    + assert (is_ok (mapR one (subsets a)) = true) as Hok by now rewrite Hmap.
      rewrite mapR_is_ok in Hok.
      rewrite <- (forallb_pointwise _ _ _ Hone) by auto.
      rewrite Hok. simpl. destruct st as [|s [|s' st]]; reflexivity.
    + assert (is_ok (mapR one (subsets a)) = false) as Hok by now rewrite Hmap.
      rewrite mapR_is_ok in Hok.
      rewrite <- (forallb_pointwise _ _ _ Hone) by auto.
      rewrite Hok. reflexivity.
  - intros e. destruct (mapR one (subsets a)) as [st|e'] eqn:Hmap; simpl.
    + destruct st as [|s [|s' st]]; discriminate.
    + intros Hr. inversion Hr; subst.
      destruct (mapR_raises _ _ Hmap) as (subset & _ & Hsub).
      unfold one in Hsub.
      destruct (take (y a) subset) as [ys|e1] eqn:Hy; simpl in Hsub.
      * destruct (take yfit subset) as [yf|e2] eqn:Hf; simpl in Hsub;
          [discriminate|].
        inversion Hsub; subst. eapply take_raises; eassumption.
      * inversion Hsub; subst. eapply take_raises; eassumption.
  - intros s. destruct (mapR one (subsets a)) as [st|e'] eqn:Hmap; simpl;
      [|discriminate].
    pose proof (mapR_length _ _ Hmap) as Hlen.
    destruct st as [|s1 [|s2 st]]; intros Hr; inversion Hr; subst; clear Hr.
    + split; [exact Hlen|]. simpl in Hlen. lia.
    + destruct (subsets a) as [|subset [|subset' rest]]; simpl in Hlen;
        try discriminate.
      simpl in Hmap. unfold one in Hmap at 1.
      destruct (take (y a) subset) as [ys|] eqn:Hy; simpl in Hmap;
        [|discriminate].
      destruct (take yfit subset) as [yf|] eqn:Hf; simpl in Hmap;
        [|discriminate].
      inversion Hmap; subst.
      pose proof Hy as Hl. apply take_length in Hl.
      exists subset, ys, yf. rewrite Hl.
      split; [reflexivity|]. split; [exact Hy|]. split; [exact Hf|reflexivity].
    + split; [exact Hlen|]. simpl in Hlen. lia.
Qed.

Lemma mapR_Forall2 {A B} (f : A -> result B) (l : list A) (bs : list B) :
  mapR f l = Ok bs -> Forall2 (fun x b => f x = Ok b) l bs.
Proof.
  revert bs. induction l as [|x l IH]; intros bs; simpl.
  - intros Hr. inversion Hr. constructor.
  - destruct (f x) as [b|] eqn:Hx; simpl; [|discriminate].
    destruct (mapR f l) as [cs|]; simpl; [|discriminate].
    intros Hr. inversion Hr. constructor; auto.
Qed.

(** X8.  The statistics of lines 320-325: the list has one entry per
    subset, in order, each computed by [goodness_of_fit] from the entries of
    [y] and of the fit that the subset indexes, with [len(subset) - Nnonlin]
    degrees of freedom; a single subset gives the bare entry instead of a
    list; the computation fails, with an [IndexError], exactly when a subset
    holds an index beyond the data or the fit. *)
Theorem goodness_result (yfit : vec F) :
  is_ok (goodness E a yfit)
  = forallb (fun subset =>
               forallb (fun i => Nat.ltb i (length (y a))) subset
               && forallb (fun i => Nat.ltb i (length yfit)) subset)
            (subsets a)
  /\ (forall e, goodness E a yfit = Raise e -> e = IndexError "index out of bounds")
  /\ (forall s, goodness E a yfit = Ok s ->
      match s with
      | inl st =>
          exists subset ys yf,
            subsets a = [subset]
            /\ take (y a) subset = Ok ys
            /\ take yfit subset = Ok yf
            /\ st = goodness_of_fit E ys yf
                      (Z.of_nat (length subset) - Z.of_nat (length (par0 a)))
      | inr l =>
          length l = length (subsets a) /\ length (subsets a) <> 1%nat
          /\ Forall2
               (fun subset st =>
                  exists ys yf,
                    take (y a) subset = Ok ys
                    /\ take yfit subset = Ok yf
                    /\ st = goodness_of_fit E ys yf
                              (Z.of_nat (length subset)
                               - Z.of_nat (length (par0 a))))
               (subsets a) l
      end).
Proof.
  destruct (goodness_cases yfit) as (Hok & Hraise & Hcases).
  split; [exact Hok|]. split; [exact Hraise|].
  intros s Hs. specialize (Hcases s Hs).
  destruct s as [st|l]; [exact Hcases|].
  destruct Hcases as [Hlen Hne]. split; [exact Hlen|]. split; [exact Hne|].
  unfold goodness in Hs.
  match type of Hs with
  | context [mapR ?f (subsets a)] =>
      destruct (mapR f (subsets a)) as [sts|e] eqn:Hmap; simpl in Hs;
        [|discriminate]
  end.
  assert (sts = l) as ->
    by (destruct sts as [|s1 [|s2 sts]]; inversion Hs; reflexivity).
  apply mapR_Forall2 in Hmap.
  eapply Forall2_impl; [|exact Hmap].
  intros subset st Hone. simpl in Hone.
  destruct (take (y a) subset) as [ys|] eqn:Hy; simpl in Hone; [|discriminate].
  destruct (take yfit subset) as [yf|] eqn:Hf; simpl in Hone; [|discriminate].
  inversion Hone; subst.
  exists ys, yf. rewrite (take_length _ _ Hy). auto.
Qed.

End Goodness.

(** ** What every step of a call keeps *)

Section Invariants.

Context {F Stat : Type} {arithF : Arith F} {libmF : Libm F} {orderF : Order F}.
Variable E : Collaborators F Stat.
Variable a : Args F.

(** A property of the store that entering [least_squares], evaluating the
    objective and rebinding [linfit] keep is kept by the whole call. *)
Variable P : world F -> Prop.
Hypothesis Penter :
  forall x0 w, P w -> P {| cl := cl w; events := events w ++ [EvLeastSquares x0] |}.
Hypothesis Peval : forall p w, P w -> P (snd (ResidualsFcn E a p w)).
Hypothesis Plinfit :
  forall x w, P w -> P {| cl := set_linfit x (cl w); events := events w |}.

Lemma bind_keeps {A B} (m : M (world F) A) (k : A -> M (world F) B) :
  (forall w, P w -> P (snd (m w))) ->
  (forall x w, P w -> P (snd (k x w))) ->
  forall w, P w -> P (snd (bind m k w)).
Proof.
  intros Hm Hk w Hw. unfold bind. specialize (Hm w Hw).
  destruct (m w) as [[x|e] w1]; simpl in *; auto.
Qed.

Lemma lift_keeps {A} (r : result A) (w : world F) : P w -> P (snd (lift r w)).
Proof. auto. Qed.

Lemma lsq_after_keeps (s : lsq_solver F) (fuel : nat)
    (hist : list (vec F * vec F)) (w : world F) :
  P w -> P (snd (lsq_after E a s fuel hist w)).
Proof.
  revert hist w. induction fuel as [|k IH]; intros hist w; simpl;
    apply bind_keeps; auto; intros [x|] w1 Hw1; auto.
  revert w1 Hw1. apply bind_keeps; auto.
Qed.

Lemma least_squares_keeps (x0 : vec F) (w : world F) :
  P w -> P (snd (least_squares E a x0 w)).
Proof.
  unfold least_squares. apply bind_keeps; [apply lift_keeps|]. intros n.
  apply bind_keeps.
  - intros w0 Hw0. apply Penter. exact Hw0.
  - intros _. apply bind_keeps; [apply lift_keeps|]. intros x1.
    apply bind_keeps; [apply Peval|]. intros r.
    apply bind_keeps; [apply lsq_after_keeps | auto].
Qed.

Lemma multistart_loop_keeps (seeds : list (vec F))
    (runs : list (attempt (F := F))) (w : world F) :
  P w -> P (snd (multistart_loop E a seeds runs w)).
Proof.
  revert runs w. induction seeds as [|s rest IH]; intros runs w; simpl; [auto|].
  apply bind_keeps; [apply least_squares_keeps|].
  intros [x cost]. apply bind_keeps; [auto|].
  intros lf. apply IH.
Qed.

(** What follows the loop: the selection of the run, the uncertainty
    analysis and the statistics. *)
Lemma report_keeps (runs : list (attempt (F := F))) (w : world F) :
  P w ->
  P (snd ((globmin <~ lift (argmin (fvals runs)) ;;
           linfit <~ lift (index (linfits runs) globmin) ;;
           update (set_linfit linfit) ;;;
           nonlinfit <~ lift (index (nonlinfits runs) globmin) ;;
           let Afit := Amodel E nonlinfit in
           yfit <~ lift (matvec Afit linfit) ;;
           paramuq <~ (if uqanalysis a then
                         q <~ uncertainty E a nonlinfit linfit yfit Afit ;;
                         ret (Some q)
                       else ret None) ;;
           stats <~ lift (goodness E a yfit) ;;
           ret {| nonlinfit := nonlinfit; linfit_out := linfit;
                  paramuq := paramuq; stats := stats |})%M w)).
Proof.
  revert w.
  apply bind_keeps; [apply lift_keeps|]. intros globmin.
  apply bind_keeps; [apply lift_keeps|]. intros lf.
  apply bind_keeps; [intros w0 Hw0; apply Plinfit; exact Hw0|]. intros _.
  apply bind_keeps; [apply lift_keeps|]. intros nf.
  apply bind_keeps; [apply lift_keeps|]. intros yfit.
  apply bind_keeps.
  - destruct (uqanalysis a); [|auto].
    apply bind_keeps; [|auto].
    intros w0 Hw0. now rewrite uncertainty_world.
  - intros q. apply bind_keeps; [apply lift_keeps | auto].
Qed.

Lemma search_and_report_keeps (w : world F) :
  P w -> P (snd (search_and_report E a w)).
Proof.
  unfold search_and_report. revert w.
  apply bind_keeps; [apply lift_keeps|]. intros seeds.
  apply bind_keeps; [apply multistart_loop_keeps|]. intros runs.
  apply report_keeps.
Qed.

Lemma snlls_body_keeps (w : world F) : P w -> P (snd (snlls_body E a w)).
Proof.
  unfold snlls_body. revert w.
  apply bind_keeps; [apply lift_keeps|]. intros _.
  apply bind_keeps; [apply lift_keeps|]. intros _.
  apply search_and_report_keeps.
Qed.

Lemma snlls_keeps : P (init_world E a) -> P (snd (snlls E a)).
Proof. apply snlls_body_keeps. Qed.

End Invariants.

(** ** When the alpha cache is used *)

Section CacheUse.

Context {F Stat : Type} {arithF : Arith F} {libmF : Libm F} {orderF : Order F}.
Variable E : Collaborators F Stat.
Variable a : Args F.

Lemma regularization_off (A : matrix F) (p : vec F) (w : world F) :
  truthy (includePenalty E a) = false ->
  regularization E a A p w = (Ok (f_of_Z 0), w).
Proof. unfold regularization. now intros ->. Qed.

Lemma regularization_value (A : matrix F) (p : vec F) (w : world F) (v : F) :
  truthy (includePenalty E a) = true ->
  regparam a = Value v ->
  regularization E a A p w =
    (Ok v, {| cl := set_regparam_prev v (set_par_prev p (cl w));
              events := events w |}).
Proof.
  unfold regularization, select_alpha. intros -> ->. reflexivity.
Qed.

Lemma ResidualsFcn_no_selection (p : vec F) (w : world F) :
  truthy (includePenalty E a) = false \/ (exists v, regparam a = Value v) ->
  selections (events (snd (ResidualsFcn E a p w))) = selections (events w)
  /\ check (cl (snd (ResidualsFcn E a p w))) = check (cl w).
Proof.
  intros Hoff. rewrite ResidualsFcn_entered. unfold bind.
  set (w1 := {| cl := cl w; events := events w ++ [EvResiduals p] |}).
  assert (selections (events w1) = selections (events w)) as Hsel1.
  { simpl. rewrite selections_app. simpl. apply app_nil_r. }
  destruct (truthy (includePenalty E a)) eqn:Hpen.
  - destruct Hoff as [Hoff | [v Hv]]; [discriminate|].
    rewrite (regularization_value _ _ _ Hpen Hv).
    match goal with |- context [residual E a ?A ?al ?w2] =>
      pose proof (residual_world E a A al w2) as (Hc & _ & _ & Hs & _) end.
    simpl in *. now rewrite Hc, Hs.
  - rewrite regularization_off by assumption.
    pose proof (residual_world E a (Amodel E p) (f_of_Z 0) w1) as (Hc & _ & _ & Hs & _).
    simpl in *. now rewrite Hc, Hs.
Qed.



(** X9.  [dl.selregparam] is called only when the penalty is included and
    [regparam] is a selection method: in a call without penalty, or with a
    value for [regparam], no selection is ever made and [check] is false
    when the call ends, whether it returns or fails. *)
Theorem selection_needs_penalty_and_method :
  truthy (includePenalty E a) = false \/ (exists v, regparam a = Value v) ->
  selections (events (snd (snlls E a))) = []
  /\ check (cl (snd (snlls E a))) = false.
Proof.
  intros Hoff.
  apply (snlls_keeps E a
           (fun w => selections (events w) = [] /\ check (cl w) = false)).
  - intros x0 w [Hs Hc]. simpl. rewrite selections_app, Hs. auto.
  - intros p w [Hs Hc].
    destruct (ResidualsFcn_no_selection p w Hoff) as [-> ->]. auto.
  - auto.
  - split; reflexivity.
Qed.

End CacheUse.

(** An instance of X9: a penalty with the value 1 for [regparam]. *)
Lemma selection_needs_penalty_and_method_witness :
  regparam Toy.penalized = Value 1%float
  /\ is_ok (fst (snlls Toy.collab Toy.penalized)) = true
  /\ selections (events (snd (snlls Toy.collab Toy.penalized))) = []
  /\ check (cl (snd (snlls Toy.collab Toy.penalized))) = false.
Proof.
  split; [reflexivity|]. split; [vm_compute; reflexivity|].
  apply (selection_needs_penalty_and_method Toy.collab Toy.penalized).
  right. exists 1%float. reflexivity.
Defined.

(** ** What a returning call has computed *)

Section Returns.

Context {F Stat : Type} {arithF : Arith F} {libmF : Libm F} {orderF : Order F}.
Variable E : Collaborators F Stat.
Variable a : Args F.

Lemma snlls_returns (out : output F Stat) (w : world F) :
  snlls E a = (Ok out, w) ->
  exists seeds runs w1 globmin yfit,
    multiStartPar0 E a = Ok seeds
    /\ multistart_loop E a seeds [] (init_world E a) = (Ok runs, w1)
    /\ argmin (fvals runs) = Ok globmin
    /\ index (linfits runs) globmin = Ok (linfit_out out)
    /\ index (nonlinfits runs) globmin = Ok (nonlinfit out)
    /\ matvec (Amodel E (nonlinfit out)) (linfit_out out) = Ok yfit
    /\ w = {| cl := set_linfit (linfit_out out) (cl w1); events := events w1 |}
    /\ goodness E a yfit = Ok (stats out)
    /\ (uqanalysis a = false -> paramuq out = None)
    /\ (uqanalysis a = true ->
        exists res J res' J',
          (d <- bcast2 fsub yfit (y a) ;; bcast2 fmul (weights a) d)%res = Ok res
          /\ hstack (jacobianest E
                       (fun p => matvec (Amodel E p) (linfit_out out))
                       (nonlinfit out))
                    (Amodel E (nonlinfit out)) = Ok J
          /\ _augment res J (regtype a) (regparam_prev (cl w1)) (L E a)
               (linfit_out out) (huberparam a) (Nnonlin a) = Ok (res', J')
          /\ paramuq out =
               Some (ci (uqst_ci E (nonlinfit out ++ linfit_out out) (hccm E J' res')
                           (lb' a ++ lbl' E a) (ub' a ++ ubl' E a))
                        (Nnonlin a))).
Proof.
  unfold snlls, snlls_body. intros Hrun.
  apply bind_Ok in Hrun as ([] & w0 & Hchk & Hrun).
  apply lift_Ok in Hchk as [Hchk ->].
  apply bind_Ok in Hrun as ([] & w0 & Hgate & Hrun).
  apply lift_Ok in Hgate as [Hgate ->].
  unfold search_and_report in Hrun.
  apply bind_Ok in Hrun as (seeds & w0 & Hseeds & Hrun).
  apply lift_Ok in Hseeds as [Hseeds ->].
  apply bind_Ok in Hrun as (runs & w1 & Hloop & Hrun).
  apply bind_Ok in Hrun as (globmin & w2 & Hmin & Hrun).
  apply lift_Ok in Hmin as [Hmin ->].
  apply bind_Ok in Hrun as (lf & w2 & Hlf & Hrun).
  apply lift_Ok in Hlf as [Hlf ->].
  apply bind_Ok in Hrun as ([] & w2 & Hupd & Hrun).
  inversion Hupd; subst w2; clear Hupd.
  apply bind_Ok in Hrun as (nl & w2 & Hnl & Hrun).
  apply lift_Ok in Hnl as [Hnl ->].
  apply bind_Ok in Hrun as (yfit & w2 & Hy & Hrun).
  apply lift_Ok in Hy as [Hy ->].
  apply bind_Ok in Hrun as (uq & w2 & Huq & Hrun).
  apply bind_Ok in Hrun as (st & w3 & Hst & Hrun).
  apply lift_Ok in Hst as [Hst ->].
  inversion Hrun; subst; clear Hrun. simpl.
  exists seeds, runs, w1, globmin, yfit.
  do 6 (split; [assumption|]).
  destruct (uqanalysis a).
  - apply bind_Ok in Huq as (q & w4 & Hq & Hret).
    inversion Hret; subst; clear Hret.
    unfold uncertainty in Hq.
    apply bind_Ok in Hq as (res & w5 & Hres & Hq).
    apply lift_Ok in Hres as [Hres ->].
    apply bind_Ok in Hq as (J & w5 & HJ & Hq).
    apply lift_Ok in HJ as [HJ ->].
    apply bind_Ok in Hq as (alpha & w5 & Hal & Hq).
    inversion Hal; subst; clear Hal.
    apply bind_Ok in Hq as ([res' J'] & w5 & Haug & Hq).
    apply lift_Ok in Haug as [Haug ->].
    inversion Hq; subst; clear Hq.
    split; [reflexivity|]. split; [assumption|]. split; [discriminate|].
    intros _. exists res, J, res', J'. auto.
  - inversion Huq; subst; clear Huq.
    split; [reflexivity|]. split; [assumption|]. split; [reflexivity|].
    discriminate.
Qed.

End Returns.

(** ** The regularization parameter of the uncertainty analysis *)

Section UncertaintyAlpha.

Context {F Stat : Type} {arithF : Arith F} {libmF : Libm F} {orderF : Order F}.
Variable E : Collaborators F Stat.
Variable a : Args F.

(** The store that the loop leaves is the store that the last evaluation
    of the last run left, and the linear fit recorded for the last run is
    the one in that store. *)
Lemma multistart_loop_last (seeds : list (vec F))
    (runs out : list (attempt (F := F))) (w w' : world F) :
  multistart_loop E a seeds runs w = (Ok out, w') ->
  seeds <> [] ->
  exists p r w0 c x prefix,
    ResidualsFcn E a p w0 = (Ok r, w')
    /\ out = prefix ++ [(c, x, linfit (cl w'))].
Proof.
  revert runs w. induction seeds as [|s rest IH]; intros runs w Hrun Hne;
    [congruence|].
  rewrite multistart_loop_step in Hrun.
  destruct (least_squares E a s w) as [[[x cost]|e] w1] eqn:Hls; [|discriminate].
  destruct rest as [|s' rest'].
  - simpl in Hrun. inversion Hrun; subst; clear Hrun.
    destruct (least_squares_Ok _ _ _ _ Hls) as (p & r & w0 & evs0 & Hp & _).
    exists p, r, w0, cost, x, runs. auto.
  - apply (IH _ _ Hrun). discriminate.
Qed.



End UncertaintyAlpha.


(** ** Calls of the linear solver and of the selection *)

Section SolverCalls.

Context {F Stat : Type} {arithF : Arith F} {libmF : Libm F} {orderF : Order F}.
Variable E : Collaborators F Stat.
Variable a : Args F.

Lemma evaluations_app (e1 e2 : list (event F)) :
  evaluations (e1 ++ e2) = evaluations e1 ++ evaluations e2.
Proof. apply flat_map_app. Qed.

Lemma linear_solves_app (e1 e2 : list (event F)) :
  linear_solves (e1 ++ e2) = (linear_solves e1 + linear_solves e2)%nat.
Proof. unfold linear_solves. now rewrite filter_app, length_app. Qed.

(** One evaluation: the entry, then at most one selection, then at most one
    call of the linear solver, which has happened when the evaluation
    returns. *)
Lemma ResidualsFcn_trace (p : vec F) (w : world F) :
  exists sel lin,
    events (snd (ResidualsFcn E a p w)) = events w ++ EvResiduals p :: sel ++ lin
    /\ (sel = [] \/ sel = [EvSelregparam p])
    /\ (lin = [] \/ lin = [EvLinSolver])
    /\ (is_ok (fst (ResidualsFcn E a p w)) = true -> lin = [EvLinSolver]).
Proof.
  rewrite ResidualsFcn_entered.
  set (w1 := {| cl := cl w; events := events w ++ [EvResiduals p] |}).
  unfold bind.
  pose proof (regularization_world E a (Amodel E p) p w1) as (Hev & _).
  destruct (regularization E a (Amodel E p) p w1) as [[alpha|e] w2]; simpl in *.
  - destruct (linear_fit E a (Amodel E p) alpha) as [x|] eqn:Hx.
    + erewrite residual_bound by exact Hx. simpl.
      destruct Hev as [-> | ->]; rewrite <- !app_assoc; simpl.
      * exists [], [EvLinSolver]. auto.
      * exists [EvSelregparam p], [EvLinSolver]. auto.
    + apply linear_fit_None in Hx. rewrite residual_unbound by assumption.
      simpl. destruct Hev as [-> | ->]; rewrite <- ?app_assoc; simpl.
      * exists [], []. repeat split; auto. discriminate.
      * exists [EvSelregparam p], []. repeat split; auto. discriminate.
  - destruct Hev as [-> | ->]; rewrite <- ?app_assoc; simpl.
    + exists [], []. repeat split; auto. discriminate.
    + exists [EvSelregparam p], []. repeat split; auto. discriminate.
Qed.

Lemma ResidualsFcn_counts (p : vec F) (w : world F) :
  let evs := events w in
  let evs' := events (snd (ResidualsFcn E a p w)) in
  evaluations evs' = evaluations evs ++ [p]
  /\ (length (selections evs') <= S (length (selections evs)))%nat
  /\ (linear_solves evs' <= S (linear_solves evs))%nat
  /\ (is_ok (fst (ResidualsFcn E a p w)) = true ->
      linear_solves evs' = S (linear_solves evs)).
Proof.
  destruct (ResidualsFcn_trace p w) as (sel & lin & Hev & Hsel & Hlin & Hok).
  cbv zeta. rewrite Hev.
  change (EvResiduals p :: sel ++ lin) with ([EvResiduals p] ++ sel ++ lin).
  rewrite !evaluations_app, !selections_app, !linear_solves_app, !length_app.
  assert (evaluations sel = [] /\ linear_solves sel = 0%nat
          /\ (length (selections sel) <= 1)%nat) as (-> & -> & Hs)
    by (destruct Hsel as [-> | ->]; simpl; auto).
  assert (evaluations lin = [] /\ selections lin = []
          /\ (linear_solves lin <= 1)%nat) as (-> & -> & Hl)
    by (destruct Hlin as [-> | ->]; simpl; auto).
  simpl. repeat split; try lia.
  intros Hyes. rewrite (Hok Hyes).
  change (linear_solves [@EvLinSolver F]) with 1%nat. lia.
Qed.

End SolverCalls.

(** ** What every step of a returning call keeps *)

Section ReturningInvariants.

Context {F Stat : Type} {arithF : Arith F} {libmF : Libm F} {orderF : Order F}.
Variable E : Collaborators F Stat.
Variable a : Args F.

(** A property of the store that entering [least_squares], an evaluation of
    the objective that returns, and rebinding [linfit] keep holds when
    [snlls] returns. *)
Variable P : world F -> Prop.
Hypothesis Penter :
  forall x0 w, P w -> P {| cl := cl w; events := events w ++ [EvLeastSquares x0] |}.
Hypothesis Peval :
  forall p r w w', P w -> ResidualsFcn E a p w = (Ok r, w') -> P w'.
Hypothesis Plinfit :
  forall x w, P w -> P {| cl := set_linfit x (cl w); events := events w |}.

Lemma lsq_after_returns_keeps (s : lsq_solver F) (fuel : nat)
    (hist h : list (vec F * vec F)) (w w' : world F) :
  P w -> lsq_after E a s fuel hist w = (Ok h, w') -> P w'.
Proof.
  revert hist w. induction fuel as [|k IH]; intros hist w Hw Hrun;
    simpl in Hrun; apply bind_Ok in Hrun as (nxt & w1 & Hnxt & Hk);
    apply lift_Ok in Hnxt as [Hnxt ->]; destruct nxt as [x|];
    try (inversion Hk; subst; exact Hw).
  apply bind_Ok in Hk as (r & w1 & Hr & Hk).
  eapply IH; [|exact Hk]. eapply Peval; eassumption.
Qed.

Lemma least_squares_returns_keeps (x0 : vec F) (sol : vec F * F) (w w' : world F) :
  P w -> least_squares E a x0 w = (Ok sol, w') -> P w'.
Proof.
  unfold least_squares. intros Hw Hrun.
  apply bind_Ok in Hrun as (n & w0 & Hint & Hrun).
  apply lift_Ok in Hint as [Hint ->].
  apply bind_Ok in Hrun as ([] & w0 & Hemit & Hrun).
  inversion Hemit; subst w0; clear Hemit.
  apply bind_Ok in Hrun as (x1 & w0 & Hx1 & Hrun).
  apply lift_Ok in Hx1 as [Hx1 ->].
  apply bind_Ok in Hrun as (r & w1 & Hr & Hrun).
  apply bind_Ok in Hrun as (hist & w2 & Hloop & Hret).
  inversion Hret; subst.
  eapply lsq_after_returns_keeps; [|exact Hloop].
  eapply Peval; [|exact Hr]. apply Penter. exact Hw.
Qed.

Lemma multistart_loop_returns_keeps (seeds : list (vec F))
    (runs out : list (attempt (F := F))) (w w' : world F) :
  P w -> multistart_loop E a seeds runs w = (Ok out, w') -> P w'.
Proof.
  revert runs w. induction seeds as [|s rest IH]; intros runs w Hw Hrun;
    simpl in Hrun.
  - inversion Hrun; subst. exact Hw.
  - apply bind_Ok in Hrun as ([x cost] & w1 & Hls & Hrun).
    apply bind_Ok in Hrun as (lf & w2 & Hread & Hrun).
    inversion Hread; subst lf w2; clear Hread.
    eapply IH; [|exact Hrun].
    eapply least_squares_returns_keeps; eassumption.
Qed.

Lemma snlls_returns_keeps (out : output F Stat) (w : world F) :
  P (init_world E a) -> snlls E a = (Ok out, w) -> P w.
Proof.
  intros Hinit Hrun.
  apply snlls_returns in Hrun
    as (seeds & runs & w1 & g & yfit & _ & Hloop & _ & _ & _ & _ & -> & _).
  apply Plinfit. eapply multistart_loop_returns_keeps; eassumption.
Qed.

End ReturningInvariants.

Section SolverCallsOfACall.

Context {F Stat : Type} {arithF : Arith F} {libmF : Libm F} {orderF : Order F}.
Variable E : Collaborators F Stat.
Variable a : Args F.

(** X11.  However a call of [snlls] ends, the linear solver has been called
    at most once, and [dl.selregparam] at most once, for each evaluation of
    the objective; when the call returns, the linear solver has been called
    exactly once for each evaluation. *)
Theorem solver_calls_per_evaluation :
  (linear_solves (events (snd (snlls E a)))
   <= length (evaluations (events (snd (snlls E a)))))%nat
  /\ (length (selections (events (snd (snlls E a))))
      <= length (evaluations (events (snd (snlls E a)))))%nat
  /\ (forall out w,
        snlls E a = (Ok out, w) ->
        linear_solves (events w) = length (evaluations (events w))).
Proof.
  assert ((linear_solves (events (snd (snlls E a)))
           <= length (evaluations (events (snd (snlls E a)))))%nat
          /\ (length (selections (events (snd (snlls E a))))
              <= length (evaluations (events (snd (snlls E a)))))%nat) as Hle.
  { apply (snlls_keeps E a
             (fun w => (linear_solves (events w)
                        <= length (evaluations (events w)))%nat
                       /\ (length (selections (events w))
                           <= length (evaluations (events w)))%nat)).
    - intros x0 w [Hl Hs]. simpl.
      rewrite linear_solves_app, evaluations_app, selections_app, !length_app.
      unfold linear_solves in *. simpl. lia.
    - intros p w [Hl Hs].
      destruct (ResidualsFcn_counts E a p w) as (He & Hs' & Hl' & _).
      rewrite He, length_app. simpl. lia.
    - auto.
    - unfold linear_solves. simpl. split; lia. }
  split; [exact (proj1 Hle)|]. split; [exact (proj2 Hle)|].
  intros out w Hrun.
  eapply (snlls_returns_keeps E a
            (fun w => linear_solves (events w) = length (evaluations (events w))));
    [ | | | | exact Hrun].
  - intros x0 w0 Hl. simpl.
    rewrite linear_solves_app, evaluations_app, !length_app.
    unfold linear_solves in *. simpl. lia.
  - intros p r w0 w' Hl Hr.
    destruct (ResidualsFcn_counts E a p w0) as (He & _ & _ & Hyes).
    rewrite Hr in He, Hyes. simpl in He, Hyes.
    rewrite He, length_app, Hyes by reflexivity. simpl. lia.
  - auto.
  - reflexivity.
Qed.

End SolverCallsOfACall.

(** ** The runs of a call that fails *)

Section RunsOfACall.

Context {F Stat : Type} {arithF : Arith F} {libmF : Libm F} {orderF : Order F}.
Variable E : Collaborators F Stat.
Variable a : Args F.

(** A run is on record once [int(nonLinMaxIter)] has returned. *)
Lemma least_squares_events (x0 : vec F) (w : world F) :
  exists evs,
    events (snd (least_squares E a x0 w)) =
      events w ++ (if is_ok (py_int (nonLinMaxIter a))
                   then EvLeastSquares x0 :: evs else [])
    /\ starts evs = [].
Proof.
  destruct (py_int (nonLinMaxIter a)) as [n|e] eqn:Hint; simpl.
  - rewrite (least_squares_entered E a x0 w Hint). cbv zeta.
    set (s := least_squares_impl E x0 (lb' a) (ub' a) n (nonLinTolFun a)).
    set (w1 := {| cl := cl w; events := events w ++ [EvLeastSquares x0] |}).
    unfold bind at 1, lift.
    destruct (lsq_start s) as [x1|e];
      [|exists []; simpl; split; reflexivity].
    destruct (ResidualsFcn_events E a x1 w1) as (evs & Hev & Hst).
    unfold bind at 1. destruct (ResidualsFcn E a x1 w1) as [[r|e] w2];
      simpl in Hev;
      [|exists (EvResiduals x1 :: evs); simpl; rewrite Hev, <- app_assoc; auto].
    destruct (lsq_after_events E a s (lsq_fuel s) [(x1, r)] w2)
      as (evs' & Hev' & Hst').
    exists ((EvResiduals x1 :: evs) ++ evs').
    split; [|rewrite starts_app; simpl in *; now rewrite Hst, Hst'].
    unfold bind.
    destruct (lsq_after E a s (lsq_fuel s) [(x1, r)] w2) as [[h|e] w3];
      simpl in *; rewrite Hev', Hev, <- !app_assoc; reflexivity.
  - rewrite (least_squares_no_cap E a x0 w Hint). exists []. simpl.
    now rewrite app_nil_r.
Qed.

(** The loop enters [least_squares] from the start points in order and stops
    at the first run that fails. *)
Lemma multistart_loop_prefix (seeds : list (vec F))
    (runs : list (attempt (F := F))) (w : world F) :
  exists k evs,
    events (snd (multistart_loop E a seeds runs w)) = events w ++ evs
    /\ starts evs = firstn k seeds
    /\ (k <= length seeds)%nat
    /\ (seeds <> [] -> is_ok (py_int (nonLinMaxIter a)) = true ->
        evs <> [] /\ (0 < k)%nat)
    /\ (is_ok (py_int (nonLinMaxIter a)) = false -> evs = [])
    /\ (is_ok (fst (multistart_loop E a seeds runs w)) = true -> k = length seeds).
Proof.
  revert runs w. induction seeds as [|s rest IH]; intros runs w.
  - exists 0%nat, []. simpl. rewrite app_nil_r.
    repeat split; auto; congruence.
  - rewrite multistart_loop_step.
    destruct (least_squares_events s w) as (evs1 & Hev1 & Hs1).
    destruct (least_squares E a s w) as [[[x cost]|e] w1] eqn:Hls; simpl in Hev1.
    + rewrite (least_squares_Ok_int E a _ _ Hls) in Hev1 |- *.
      destruct (IH (runs ++ [(cost, x, linfit (cl w1))]) w1)
        as (k & evs & Hev & Hsk & Hle & _ & _ & Hok).
      exists (S k), (EvLeastSquares s :: evs1 ++ evs).
      rewrite Hev, Hev1, <- app_assoc. simpl.
      split; [reflexivity|]. split.
      { rewrite starts_app, Hs1, Hsk. reflexivity. }
      split; [lia|]. split; [intros _ _; split; [discriminate | lia]|].
      split; [discriminate|].
      intros Hyes. now rewrite (Hok Hyes).
    + destruct (is_ok (py_int (nonLinMaxIter a))).
      * exists 1%nat, (EvLeastSquares s :: evs1). simpl.
        split; [exact Hev1|]. split; [now rewrite Hs1|].
        split; [lia|]. split; [intros _ _; split; [discriminate | lia]|].
        split; discriminate.
      * exists 0%nat, []. simpl.
        split; [exact Hev1|]. split; [reflexivity|].
        split; [lia|]. split; [discriminate|].
        split; [reflexivity | discriminate].
Qed.

(** What is on record when [snlls] ends is what the loop recorded. *)
Lemma snlls_events :
  events (snd (snlls E a)) =
    match check_bounds E a, multistart_gate a, multiStartPar0 E a with
    | Ok _, Ok _, Ok seeds =>
        events (snd (multistart_loop E a seeds [] (init_world E a)))
    | _, _, _ => []
    end.
Proof.
  unfold snlls, snlls_body. unfold bind at 1, lift at 1.
  destruct (check_bounds E a) as [[]|e]; [|reflexivity].
  unfold bind at 1, lift at 1.
  destruct (multistart_gate a) as [[]|e]; [|reflexivity].
  unfold search_and_report. unfold bind at 1, lift at 1.
  destruct (multiStartPar0 E a) as [seeds|e]; [|reflexivity].
  unfold bind at 1.
  destruct (multistart_loop E a seeds [] (init_world E a))
    as [[runs|e] w1]; [|reflexivity].
  cbn [snd].
  apply (report_keeps E a (fun w => events w = events w1)); auto.
Qed.


(** C4: the guard of line 254 against the claim.  With [multiStarts > 1] and
    accepted bounds, [snlls] raises the multi-start [TypeError], with no
    call on record, when every lower and every upper bound of the non-linear
    parameters is infinite.  When one bound is finite the guard is passed,
    whatever the other bounds are, an infinite one included: [snlls] goes on
    to call [dl.utils.multistarts] with these bounds, fails with what that
    call raises if it raises, and enters the non-linear solver at the first
    start point that it returns. *)
Theorem multistart_guard_misses_half_bounded :
  check_bounds E a = Ok tt ->
  (1 < multiStarts a)%Z ->
  (forallb fisinf (lb' a) = true ->
   forallb fisinf (ub' a) = true ->
   snlls E a = (Raise (TypeError msg_multistart), init_world E a))
  /\ (existsb (fun b => negb (fisinf b)) (lb' a ++ ub' a) = true ->
      multistart_gate a = Ok tt
      /\ snlls E a = search_and_report E a (init_world E a)
      /\ (forall e, multiStartPar0 E a = Raise e ->
            snlls E a = (Raise e, init_world E a))
      /\ (forall s rest n,
            multiStartPar0 E a = Ok (s :: rest) ->
            py_int (nonLinMaxIter a) = Ok n ->
            exists more, starts (events (snd (snlls E a))) = s :: more)).
Proof.
  intros Hchk Hn. split.
  - intros Hlb Hub.
    unfold snlls, snlls_body, bind, lift. rewrite Hchk. simpl.
    unfold multistart_gate, nonLinearConstrained. rewrite Hlb, Hub.
    apply Z.ltb_lt in Hn. now rewrite Hn.
  - intros Hfin.
    assert (multistart_gate a = Ok tt) as Hgate.
    { unfold multistart_gate, nonLinearConstrained.
      rewrite existsb_app in Hfin.
      assert (forall l, existsb (fun b : F => negb (fisinf b)) l
                        = negb (forallb fisinf l)) as Hdual.
      { induction l as [|z l IH]; simpl; [reflexivity|].
        rewrite IH. now destruct (fisinf z), (forallb fisinf l). }
      rewrite !Hdual in Hfin. rewrite Hfin. now rewrite andb_false_r. }
    pose proof (snlls_passes_preflight E a Hchk Hgate) as Hs.
    split; [assumption|]. split; [assumption|]. split.
    + intros e He. rewrite Hs. unfold search_and_report, bind at 1, lift at 1.
      now rewrite He.
    + intros s rest n Hseeds Hint.
      rewrite snlls_events, Hchk, Hgate, Hseeds.
      destruct (multistart_loop_prefix (s :: rest) [] (init_world E a))
        as (k & evs & Hev & Hsk & _ & Hne & _).
      rewrite Hint in Hne. destruct Hne as [_ Hk]; [discriminate | reflexivity|].
      rewrite Hev. simpl. rewrite Hsk.
      destruct k as [|k]; [lia|]. simpl. eauto.
Qed.

(** X12.  A call that returns has run the non-linear solver once from each
    start point that [multistarts] returned, in order, and returns the
    non-linear and the linear fit of the run that [np.argmin] picks among
    the final costs: the first run of least cost when the costs are ordered
    numbers. *)
Theorem selected_run_is_first_minimum (out : output F Stat) (w : world F) :
  snlls E a = (Ok out, w) ->
  exists seeds runs w1 globmin cost,
    multiStartPar0 E a = Ok seeds
    /\ starts (events w) = seeds
    /\ multistart_loop E a seeds [] (init_world E a) = (Ok runs, w1)
    /\ length runs = length seeds
    /\ argmin (fvals runs) = Ok globmin
    /\ nth_error runs globmin = Some (cost, nonlinfit out, linfit_out out)
    /\ (costs_ordered (fvals runs) -> first_minimum (fvals runs) globmin cost).
Proof.
  intros Hrun.
  destruct (snlls_selected_run E a Hrun)
    as (seeds & runs & w1 & g & cost & Hseeds & Hst & Hloop & Hlen & Hmin & Hnth).
  exists seeds, runs, w1, g, cost.
  do 6 (split; [assumption|]).
  intros Hord. destruct (argmin_first_minimum Hord Hmin) as (c & Hc & Hcmin).
  unfold fvals, attempt in *. rewrite nth_error_map, Hnth in Hc. simpl in Hc.
  inversion Hc; subst c. split; [|assumption].
  now rewrite nth_error_map, Hnth.
Qed.

End RunsOfACall.

(** The call on which C4 fails: a lower bound, no upper bound and two
    starts.  The guard is passed and the call goes on to
    [dl.utils.multistarts]. *)
Lemma multistart_guard_misses_half_bounded_witness :
  check_bounds Toy.collab Toy.half_bounded_starts = Ok tt
  /\ (1 < multiStarts Toy.half_bounded_starts)%Z
  /\ existsb fisinf (lb' Toy.half_bounded_starts ++ ub' Toy.half_bounded_starts)
     = true
  /\ existsb (fun b => negb (fisinf b))
       (lb' Toy.half_bounded_starts ++ ub' Toy.half_bounded_starts) = true
  /\ multistart_gate Toy.half_bounded_starts = Ok tt
  /\ snlls Toy.collab Toy.half_bounded_starts
     = search_and_report Toy.collab Toy.half_bounded_starts
         (init_world Toy.collab Toy.half_bounded_starts).
Proof.
  assert (check_bounds Toy.collab Toy.half_bounded_starts = Ok tt) as Hchk
    by (vm_compute; reflexivity).
  assert (1 < multiStarts Toy.half_bounded_starts)%Z as Hn by (simpl; lia).
  assert (existsb (fun b => negb (fisinf b))
            (lb' Toy.half_bounded_starts ++ ub' Toy.half_bounded_starts) = true)
    as Hfin by (vm_compute; reflexivity).
  destruct (multistart_guard_misses_half_bounded Toy.collab Toy.half_bounded_starts
              Hchk Hn) as [_ Hopen].
  destruct (Hopen Hfin) as (Hgate & Hrest & _).
  split; [exact Hchk|]. split; [exact Hn|].
  split; [vm_compute; reflexivity|]. split; [exact Hfin|].
  split; [exact Hgate | exact Hrest].
Defined.

(** The costs of two runs that are ordered numbers. *)
Lemma two_costs_ordered (c1 c2 : float) :
  isnan c1 = false -> isnan c2 = false ->
  PrimFloat.leb c1 c1 = true -> PrimFloat.leb c2 c2 = true ->
  PrimFloat.leb c2 c1 = true ->
  costs_ordered [c1; c2].
Proof.
  intros Hn1 Hn2 H11 H22 H21.
  split; [|split].
  - intros x [<-|[<-|[]]]; assumption.
  - intros x z [<-|[<-|[]]] [<-|[<-|[]]]; simpl; auto.
  - intros x z v [<-|[<-|[]]] [<-|[<-|[]]] [<-|[<-|[]]]; simpl; auto.
Qed.

(** An instance of X12: a bounded search with two runs, of which the second,
    the cheaper one, is returned. *)
Lemma selected_run_is_first_minimum_witness :
  starts (events (snd (snlls Toy.collab Toy.two_starts)))
  = [[1024%float]; [1025%float]]
  /\ exists out runs cost,
       fst (snlls Toy.collab Toy.two_starts) = Ok out
       /\ nth_error runs 1 = Some (cost, nonlinfit out, linfit_out out)
       /\ first_minimum (fvals runs) 1 cost
       /\ nonlinfit out = [1025%float].
Proof.
  destruct (snlls Toy.collab Toy.two_starts) as [[out|e] w] eqn:Hrun;
    [|vm_compute in Hrun; discriminate].
  destruct (selected_run_is_first_minimum Toy.collab Toy.two_starts Hrun)
    as (seeds & runs & w1 & g & cost & Hseeds & Hstarts & Hloop & Hlen & Harg
        & Hnth & Hmin).
  assert (seeds = [[1024%float]; [1025%float]]) as ->
    by (vm_compute in Hseeds; inversion Hseeds; reflexivity).
  cbn [snd fst].
  split; [exact Hstarts|].
  vm_compute in Hloop. inversion Hloop; subst runs w1; clear Hloop.
  vm_compute in Harg. inversion Harg; subst g; clear Harg.
  eexists out, _, cost.
  split; [reflexivity|]. split; [exact Hnth|].
  split.
  - apply Hmin. apply two_costs_ordered; vm_compute; reflexivity.
  - simpl in Hnth. inversion Hnth. reflexivity.
Defined.

(** ** A run whose cost is not a number *)

Section NanCost.

Context {F Stat : Type} {arithF : Arith F} {libmF : Libm F} {orderF : Order F}.
Variable E : Collaborators F Stat.
Variable a : Args F.
Local Open Scope num_scope.

Lemma argmin_scan_nan (pre post : list F) (x mp : F) (min_ind i : nat) :
  (forall u v : F, fisnan v = true -> (u <=? v) = false) ->
  Forall (fun c => fisnan c = false) pre ->
  fisnan x = true ->
  argmin_scan mp min_ind i (pre ++ x :: post) = (i + length pre)%nat.
Proof.
  intros Hnan Hpre Hx. revert mp min_ind i.
  induction Hpre as [|c pre Hc Hpre IH]; intros mp min_ind i; simpl.
  - rewrite (Hnan mp x Hx), Hx. simpl. lia.
  - rewrite Hc. destruct (negb (mp <=? c)); rewrite IH; lia.
Qed.

Lemma argmin_nan (pre post : list F) (x : F) :
  (forall u v : F, fisnan v = true -> (u <=? v) = false) ->
  Forall (fun c => fisnan c = false) pre ->
  fisnan x = true ->
  argmin (pre ++ x :: post) = Ok (length pre).
Proof.
  intros Hnan Hpre Hx. destruct Hpre as [|c pre Hc Hpre]; simpl.
  - now rewrite Hx.
  - rewrite Hc. erewrite argmin_scan_nan by eassumption. reflexivity.
Qed.

(** X14.  With IEEE comparisons, where nothing is [<=] a [nan], a run whose
    final cost is [nan] is what [snlls] returns when no earlier run has a
    [nan] cost, whatever the costs of the other runs: [np.argmin] reports
    the first [nan] as the minimum. *)
Theorem nan_cost_is_selected (out : output F Stat) (w w1 : world F)
    (seeds : list (vec F))
    (pre post : list (attempt (F := F))) (c : F) (x lf : vec F) :
  (forall u v : F, fisnan v = true -> (u <=? v) = false) ->
  snlls E a = (Ok out, w) ->
  multiStartPar0 E a = Ok seeds ->
  multistart_loop E a seeds [] (init_world E a)
  = (Ok (pre ++ (c, x, lf) :: post), w1) ->
  Forall (fun r => fisnan (fst (fst r)) = false) pre ->
  fisnan c = true ->
  nonlinfit out = x /\ linfit_out out = lf.
Proof.
  intros Hnan Hrun Hseeds Hloop Hpre Hc.
  destruct (snlls_Ok E a Hrun)
    as (_ & _ & seeds' & runs & w1' & g & Hseeds' & Hloop' & Hmin & Hlf & Hnl & _).
  rewrite Hseeds in Hseeds'. inversion Hseeds'; subst seeds'; clear Hseeds'.
  rewrite Hloop in Hloop'. inversion Hloop'; subst runs w1'; clear Hloop'.
  assert (g = length pre) as ->.
  { unfold fvals in Hmin. rewrite map_app in Hmin. simpl in Hmin.
    rewrite argmin_nan in Hmin; [| exact Hnan | | exact Hc].
    - inversion Hmin. now rewrite length_map.
    - clear -Hpre. induction Hpre; simpl; constructor; auto. }
  unfold index, linfits, nonlinfits in Hlf, Hnl.
  rewrite map_app in Hlf, Hnl. simpl in Hlf, Hnl.
  rewrite nth_error_app2 in Hlf, Hnl by (rewrite length_map; lia).
  rewrite length_map, Nat.sub_diag in Hlf, Hnl. simpl in Hlf, Hnl.
  inversion Hlf. inversion Hnl. auto.
Qed.

End NanCost.

Lemma leb_nan (u v : float) : isnan v = true -> PrimFloat.leb u v = false.
Proof.
  unfold isnan. rewrite FloatAxioms.eqb_spec, FloatAxioms.leb_spec.
  intros Hv. apply negb_true_iff, SFeqb_irrefl_nan in Hv. rewrite Hv.
  unfold SpecFloat.SFleb. destruct (FloatOps.Prim2SF u); reflexivity.
Qed.

(** An instance of X14: the first run of [Toy.nan_second] fits the data
    exactly, at cost 0; the second has a [nan] cost and is returned. *)
Lemma nan_cost_is_selected_witness :
  (forall u v : float, fisnan v = true -> fleb u v = false)
  /\ multiStartPar0 Toy.collab Toy.nan_second = Ok [[(-1)%float]; [0%float]]
  /\ fst (multistart_loop Toy.collab Toy.nan_second [[(-1)%float]; [0%float]] []
            (init_world Toy.collab Toy.nan_second))
     = Ok ([(0%float, [(-1)%float], [(-2)%float])]
           ++ (PrimFloat.nan, [0%float], [PrimFloat.nan]) :: [])
  /\ fisnan PrimFloat.nan = true
  /\ exists out w,
       snlls Toy.collab Toy.nan_second = (Ok out, w)
       /\ nonlinfit out = [0%float]
       /\ linfit_out out = [PrimFloat.nan].
Proof.
  assert (forall u v : float, fisnan v = true -> fleb u v = false) as Hnan
    by exact leb_nan.
  assert (fisnan PrimFloat.nan = true) as Hc by reflexivity.
  assert (multiStartPar0 Toy.collab Toy.nan_second = Ok [[(-1)%float]; [0%float]])
    as Hseeds by (vm_compute; reflexivity).
  destruct (multistart_loop Toy.collab Toy.nan_second [[(-1)%float]; [0%float]] []
              (init_world Toy.collab Toy.nan_second)) as [r w1] eqn:Hloop.
  assert (r = Ok ([(0%float, [(-1)%float], [(-2)%float])]
                  ++ (PrimFloat.nan, [0%float], [PrimFloat.nan]) :: [])) as ->
    by (vm_compute in Hloop; inversion Hloop; reflexivity).
  destruct (snlls Toy.collab Toy.nan_second) as [[out|e] w] eqn:Hrun;
    [|vm_compute in Hrun; discriminate].
  split; [exact Hnan|]. split; [exact Hseeds|]. split; [reflexivity|].
  split; [exact Hc|].
  exists out, w. split; [reflexivity|].
  eapply nan_cost_is_selected;
    [exact Hnan | exact Hrun | exact Hseeds | exact Hloop | | exact Hc].
  repeat constructor.
Defined.

(** ** The exceptions of a call *)

Section Exceptions.

Context {F Stat : Type} {arithF : Arith F} {libmF : Libm F} {orderF : Order F}.
Variable E : Collaborators F Stat.
Variable a : Args F.

Lemma bind_Raise {S A B} (m : M S A) (k : A -> M S B) (s s' : S) (e : exn) :
  bind m k s = (Raise e, s') ->
  m s = (Raise e, s')
  \/ exists x s1, m s = (Ok x, s1) /\ k x s1 = (Raise e, s').
Proof.
  unfold bind. destruct (m s) as [[x|e'] s1]; intros Hr.
  - right. eauto.
  - left. inversion Hr. reflexivity.
Qed.

Lemma lift_Raise {S A} (r : result A) (s s' : S) (e : exn) :
  lift r s = (Raise e, s') -> r = Raise e /\ s' = s.
Proof. unfold lift. intros Hr. inversion Hr. auto. Qed.

Lemma bcast2_raises {B} (f : F -> F -> B) (u v : vec F) (e : exn) :
  bcast2 f u v = Raise e -> exists msg, e = ValueError msg.
Proof.
  unfold bcast2, shape_error. destruct (Nat.eqb (length u) (length v));
    [discriminate|].
  destruct u as [|x [|x' u]], v as [|z [|z' v]]; try discriminate;
    intros Hr; inversion Hr; eauto.
Qed.

Lemma matvec_raises (A : matrix F) (x : vec F) (e : exn) :
  matvec A x = Raise e -> exists msg, e = ValueError msg.
Proof.
  unfold matvec. destruct (forallb _ A); [discriminate|].
  intros Hr; inversion Hr; eauto.
Qed.

Lemma hstack_raises (A B : matrix F) (e : exn) :
  hstack A B = Raise e -> exists msg, e = ValueError msg.
Proof.
  unfold hstack. destruct (Nat.eqb _ _); [discriminate|].
  intros Hr; inversion Hr; eauto.
Qed.

Lemma vstack_raises (A B : matrix F) (e : exn) :
  vstack A B = Raise e -> exists msg, e = ValueError msg.
Proof.
  unfold vstack. destruct A as [|ra A'], B as [|rb B']; try discriminate.
  destruct (Nat.eqb _ _); [discriminate|].
  intros Hr; inversion Hr; eauto.
Qed.

Lemma py_int_raises (x : F) (e : exn) :
  py_int x = Raise e -> later_error e.
Proof.
  unfold py_int, later_error.
  destruct (fisnan x); [intros Hr; inversion Hr; eauto 10|].
  destruct (fisinf x); [intros Hr; inversion Hr; eauto 10|discriminate].
Qed.

Lemma penalty_terms_raises (rt : pystr) (L : matrix F) (x : vec F) (eta : F)
    (e : exn) :
  penalty_terms rt L x eta = Raise e -> later_error e.
Proof.
  unfold penalty_terms, later_error, py_pow2, py_div.
  destruct (is_literal rt "tikhonov");
    [|destruct (is_literal rt "tv"); [|destruct (is_literal rt "huber")]];
    try (destruct (matvec L x) as [Lx|e'] eqn:HLx; simpl;
         [|intros Hr; inversion Hr; subst;
           do 4 right; left; eapply matvec_raises; eassumption]);
    try discriminate.
  - destruct (fisinf (fpow eta (f_of_Z 2)) && negb (fisinf eta)); simpl;
      [intros Hr; inversion Hr; eauto 10|].
    destruct (feqb (fpow eta (f_of_Z 2)) (f_of_Z 0)); simpl;
      [intros Hr; inversion Hr; eauto 10|discriminate].
  - intros Hr; inversion Hr. auto.
Qed.

Lemma augment_raises (res : vec F) (J : matrix F) (rt : pystr) (alpha : F)
    (L : matrix F) (x : vec F) (eta : F) (W : nat) (e : exn) :
  _augment res J rt alpha L x eta W = Raise e -> later_error e.
Proof.
  unfold _augment.
  destruct (penalty_terms rt L x eta) as [[resreg Jreg]|e'] eqn:Hp; simpl.
  - destruct (negb (Nat.eqb (msize J) 0)); [|discriminate].
    destruct (hstack _ _) as [block|e'] eqn:Hh; simpl.
    + destruct (vstack J block) as [J'|e'] eqn:Hv; simpl; [discriminate|].
      intros Hr; inversion Hr; subst.
      do 4 right; left. eapply vstack_raises; eassumption.
    + intros Hr; inversion Hr; subst.
      do 4 right; left. eapply hstack_raises; eassumption.
  - intros Hr; inversion Hr; subst. eapply penalty_terms_raises; eassumption.
Qed.

(** An evaluation of the objective fails with one of the two unbound names,
    with an error of Python's float arithmetic or with a shape error of
    numpy. *)
Lemma ResidualsFcn_raises (p : vec F) (w w' : world F) (e : exn) :
  ResidualsFcn E a p w = (Raise e, w') -> later_error e.
Proof.
  rewrite ResidualsFcn_entered.
  set (w1 := {| cl := cl w; events := events w ++ [EvResiduals p] |}).
  intros Hrun. apply bind_Raise in Hrun as [Hreg | (alpha & w2 & _ & Hres)].
  - unfold regularization, select_alpha in Hreg.
    destruct (truthy (includePenalty E a)); [|discriminate].
    destruct (regparam a) as [name|v]; [|discriminate].
    apply bind_Raise in Hreg as [Hsel | (al & w3 & _ & Hupd)];
      [|discriminate].
    apply bind_Raise in Hsel as [Hc | (chk & w3 & _ & Hsel)]; [discriminate|].
    apply bind_Raise in Hsel as [Hc | (prev & w4 & _ & Hsel)]; [discriminate|].
    apply bind_Raise in Hsel as [Hsame | (same & w5 & _ & Hsel)].
    + destruct chk; [|discriminate].
      apply lift_Raise in Hsame as [Hsame _].
      unfold small_change in Hsame.
      destruct (bcast2 fsub prev p) as [d|e'] eqn:Hd; simpl in Hsame.
      * destruct (bcast2 fdiv (map fabs d) p) as [q|e'] eqn:Hq; simpl in Hsame;
          [discriminate|].
        inversion Hsame; subst. do 4 right; left.
        eapply bcast2_raises; eassumption.
      * inversion Hsame; subst. do 4 right; left.
        eapply bcast2_raises; eassumption.
    + destruct same; discriminate.
  - unfold residual in Hres.
    destruct (lsqcomponents E (y a) (Amodel E p) (L E a) alpha (weights a)
                (regtype a)) as [AtA Aty].
    apply bind_Raise in Hres as [Hsol | (x & w3 & _ & Hres)].
    + unfold call_linSolver in Hsol.
      destruct (linSolver E a); [discriminate|].
      inversion Hsol. left. reflexivity.
    + apply bind_Raise in Hres as [Hc | ([] & w4 & _ & Hres)]; [discriminate|].
      apply bind_Raise in Hres as [Hfit | (yfit & w5 & _ & Hres)].
      { apply lift_Raise in Hfit as [Hfit _]. do 4 right; left.
        eapply matvec_raises; eassumption. }
      apply bind_Raise in Hres as [Hd | (res & w6 & _ & Hres)].
      { apply lift_Raise in Hd as [Hd _]. do 4 right; left.
        eapply bcast2_raises; eassumption. }
      destruct (truthy (includePenalty E a)); [|discriminate].
      apply bind_Raise in Hres as [Hpen | (pen & w7 & _ & Hres)].
      { apply lift_Raise in Hpen as [Hpen _]. do 4 right; left.
        eapply matvec_raises; eassumption. }
      apply bind_Raise in Hres as [Haug | ([res' J'] & w8 & _ & Hres)];
        [|discriminate].
      apply lift_Raise in Haug as [Haug _].
      eapply augment_raises; eassumption.
Qed.

Lemma lsq_after_raises (s : lsq_solver F) (fuel : nat)
    (hist : list (vec F * vec F)) (w w' : world F) (e : exn) :
  lsq_after E a s fuel hist w = (Raise e, w') ->
  later_error e \/ exists hist', lsq_next s hist' = Raise e.
Proof.
  revert hist w. induction fuel as [|k IH]; intros hist w Hrun;
    simpl in Hrun;
    (apply bind_Raise in Hrun as [Hn | (nxt & w1 & _ & Hk)];
     [apply lift_Raise in Hn as [Hn _]; right; eauto|]);
    destruct nxt as [x|]; try discriminate.
  apply bind_Raise in Hk as [Hr | (r & w2 & _ & Hk)].
  - left. eapply ResidualsFcn_raises; eassumption.
  - eapply IH; eassumption.
Qed.

(** A run fails in [int(nonLinMaxIter)], before the solver is entered, in
    the solver itself, or in an evaluation of the objective. *)
Lemma least_squares_raises (x0 : vec F) (w w' : world F) (e : exn) :
  least_squares E a x0 w = (Raise e, w') ->
  later_error e \/ collaborator_error E a e.
Proof.
  unfold least_squares. intros Hrun.
  apply bind_Raise in Hrun as [Hint | (n & w0 & Hint & Hrun)].
  { apply lift_Raise in Hint as [Hint _]. left.
    eapply py_int_raises; eassumption. }
  apply lift_Ok in Hint as [Hint ->].
  apply bind_Raise in Hrun as [Hc | ([] & w1 & _ & Hrun)]; [discriminate|].
  apply bind_Raise in Hrun as [Hx1 | (x1 & w2 & _ & Hrun)].
  { apply lift_Raise in Hx1 as [Hx1 _]. right. right.
    exists x0, n. split; [exact Hint|]. left. exact Hx1. }
  apply bind_Raise in Hrun as [Hr | (r & w3 & _ & Hrun)].
  { left. eapply ResidualsFcn_raises; eassumption. }
  apply bind_Raise in Hrun as [Hloop | (hist & w4 & _ & Hc)]; [|discriminate].
  apply lsq_after_raises in Hloop as [Hl | [hist Hn]]; [left; exact Hl|].
  right. right. exists x0, n. split; [exact Hint|]. right. eauto.
Qed.

Lemma multistart_loop_raises (seeds : list (vec F))
    (runs : list (attempt (F := F))) (w w' : world F) (e : exn) :
  multistart_loop E a seeds runs w = (Raise e, w') ->
  later_error e \/ collaborator_error E a e.
Proof.
  revert runs w. induction seeds as [|s rest IH]; intros runs w Hrun;
    [discriminate|].
  rewrite multistart_loop_step in Hrun.
  destruct (least_squares E a s w) as [[[x cost]|e'] w1] eqn:Hls.
  - eapply IH; eassumption.
  - inversion Hrun; subst. eapply least_squares_raises; eassumption.
Qed.

Lemma goodness_raises (yfit : vec F) (e : exn) :
  goodness E a yfit = Raise e -> later_error e.
Proof.
  intros Hr. destruct (goodness_cases E a yfit) as (_ & Hidx & _).
  rewrite (Hidx e Hr). do 5 right. eauto.
Qed.

Lemma check_bounds_raises (e : exn) :
  check_bounds E a = Raise e -> preflight_error e.
Proof.
  rewrite check_bounds_cascade. unfold preflight_error.
  repeat match goal with
         | |- context [if ?c then _ else _] => destruct c
         end; intros Hr; inversion Hr; auto.
Qed.

Lemma index_raises {A} (l : list A) (i : nat) (e : exn) :
  index l i = Raise e -> later_error e.
Proof.
  unfold index. destruct (nth_error l i); [discriminate|].
  intros Hr; inversion Hr. do 5 right. eauto.
Qed.

Lemma uncertainty_raises (nl lf yfit : vec F) (Afit : matrix F)
    (w w' : world F) (e : exn) :
  uncertainty E a nl lf yfit Afit w = (Raise e, w') -> later_error e.
Proof.
  unfold uncertainty. intros Hrun.
  apply bind_Raise in Hrun as [Hres | (res & w1 & _ & Hrun)].
  { apply lift_Raise in Hres as [Hres _].
    destruct (bcast2 fsub yfit (y a)) as [d|e'] eqn:Hd; simpl in Hres.
    - do 4 right; left. eapply bcast2_raises; eassumption.
    - inversion Hres; subst. do 4 right; left.
      eapply bcast2_raises; eassumption. }
  apply bind_Raise in Hrun as [HJ | (J & w2 & _ & Hrun)].
  { apply lift_Raise in HJ as [HJ _]. do 4 right; left.
    eapply hstack_raises; eassumption. }
  apply bind_Raise in Hrun as [Hc | (alpha & w3 & _ & Hrun)]; [discriminate|].
  apply bind_Raise in Hrun as [Haug | ([res' J'] & w4 & _ & Hc)];
    [|discriminate].
  apply lift_Raise in Haug as [Haug _].
  eapply augment_raises; eassumption.
Qed.

(** What follows the loop fails with an error of numpy or of [_augment]. *)
Lemma report_raises (runs : list (attempt (F := F))) (w w' : world F) (e : exn) :
  (globmin <~ lift (argmin (fvals runs)) ;;
   linfit <~ lift (index (linfits runs) globmin) ;;
   update (set_linfit linfit) ;;;
   nonlinfit <~ lift (index (nonlinfits runs) globmin) ;;
   let Afit := Amodel E nonlinfit in
   yfit <~ lift (matvec Afit linfit) ;;
   paramuq <~ (if uqanalysis a then
                 q <~ uncertainty E a nonlinfit linfit yfit Afit ;;
                 ret (Some q)
               else ret None) ;;
   stats <~ lift (goodness E a yfit) ;;
   ret {| nonlinfit := nonlinfit; linfit_out := linfit;
          paramuq := paramuq; stats := stats |})%M w = (Raise e, w') ->
  later_error e
  /\ (e = UnboundLocalError "resreg" \/ e = NameError "linSolver" ->
      runs <> []).
Proof.
  intros Hrun.
  apply bind_Raise in Hrun as [Hmin | (g & w2 & Hmin & Hrun)].
  { apply lift_Raise in Hmin as [Hmin _]. unfold argmin in Hmin.
    destruct (fvals runs); inversion Hmin.
    split; [do 4 right; left; eauto|]. intros [Hb | Hb]; discriminate. }
  assert (runs <> []) as Hne.
  { apply lift_Ok in Hmin as [Hmin _]. intros ->. discriminate. }
  split; [|intros _; exact Hne]. clear Hmin Hne.
  apply bind_Raise in Hrun as [Hlf | (lf & w3 & _ & Hrun)].
  { apply lift_Raise in Hlf as [Hlf _]. eapply index_raises; eassumption. }
  apply bind_Raise in Hrun as [Hc | ([] & w4 & _ & Hrun)]; [discriminate|].
  apply bind_Raise in Hrun as [Hnl | (nl & w5 & _ & Hrun)].
  { apply lift_Raise in Hnl as [Hnl _]. eapply index_raises; eassumption. }
  apply bind_Raise in Hrun as [Hy | (yfit & w6 & _ & Hrun)].
  { apply lift_Raise in Hy as [Hy _]. do 4 right; left.
    eapply matvec_raises; eassumption. }
  apply bind_Raise in Hrun as [Huq | (uq & w7 & _ & Hrun)].
  { destruct (uqanalysis a); [|discriminate].
    apply bind_Raise in Huq as [Huq | (q & w8 & _ & Hc)]; [|discriminate].
    eapply uncertainty_raises; eassumption. }
  apply bind_Raise in Hrun as [Hst | (st & w8 & _ & Hc)]; [|discriminate].
  apply lift_Raise in Hst as [Hst _].
  eapply goodness_raises; eassumption.
Qed.

(** X15.  The exceptions of [snlls].  The [TypeError]s and the two
    [ValueError]s of its own are raised before the seeds are asked for, with
    the closure as created and no run of the solver, evaluation of the
    objective or call of a linear solver on record.  Once the bounds check
    and the multi-start guard are passed, a call fails with what
    [dl.utils.multistarts] or [scipy.optimize.least_squares] raises, or
    with an exception of the code of [snlls.py]: the [NameError] of the
    unbound [linSolver], the [UnboundLocalError] of the unbound [resreg],
    the [ZeroDivisionError] and the [OverflowError] of [0.5/(eta**2)], the
    [ValueError] and the [OverflowError] of [int(nonLinMaxIter)], or a
    [ValueError] or an [IndexError] of numpy. *)
Theorem snlls_exceptions (e : exn) (w : world F) :
  snlls E a = (Raise e, w) ->
  (preflight_error e /\ w = init_world E a)
  \/ (check_bounds E a = Ok tt /\ multistart_gate a = Ok tt
      /\ (later_error e \/ collaborator_error E a e)).
Proof.
  unfold snlls, snlls_body. intros Hrun.
  apply bind_Raise in Hrun as [Hchk | ([] & w0 & Hchk & Hrun)].
  { apply lift_Raise in Hchk as [Hchk ->]. left.
    split; [now apply check_bounds_raises | reflexivity]. }
  apply lift_Ok in Hchk as [Hchk ->].
  apply bind_Raise in Hrun as [Hgate | ([] & w0 & Hgate & Hrun)].
  { apply lift_Raise in Hgate as [Hgate ->]. left.
    split; [|reflexivity]. unfold multistart_gate in Hgate.
    destruct (_ && _); inversion Hgate. unfold preflight_error. tauto. }
  apply lift_Ok in Hgate as [Hgate ->].
  right. split; [exact Hchk|]. split; [exact Hgate|].
  unfold search_and_report in Hrun.
  apply bind_Raise in Hrun as [Hseeds | (seeds & w1 & _ & Hrun)].
  { apply lift_Raise in Hseeds as [Hseeds _]. right. left. exact Hseeds. }
  apply bind_Raise in Hrun as [Hloop | (runs & w2 & _ & Hrun)].
  { eapply multistart_loop_raises; eassumption. }
  left. eapply report_raises; eassumption.
Qed.

End Exceptions.

(** Instances of X15: an unknown solver name with a non-negative linear
    problem, a call whose bounds are refused, and a call without a cap on
    the evaluations. *)
Lemma snlls_exceptions_witness :
  snlls Toy.collab Toy.odd_solver_nonneg
  = (Raise (NameError "linSolver"), snd (snlls Toy.collab Toy.odd_solver_nonneg))
  /\ check_bounds Toy.collab Toy.odd_solver_nonneg = Ok tt
  /\ multistart_gate Toy.odd_solver_nonneg = Ok tt
  /\ (later_error (NameError "linSolver")
      \/ collaborator_error Toy.collab Toy.odd_solver_nonneg
           (NameError "linSolver"))
  /\ snlls Toy.collab Toy.crossed_bounds
     = (Raise (ValueError msg_bounds), init_world Toy.collab Toy.crossed_bounds)
  /\ preflight_error (ValueError msg_bounds)
  /\ snlls Toy.collab Toy.no_cap
     = (Raise (OverflowError "cannot convert float infinity to integer"),
        init_world Toy.collab Toy.no_cap).
Proof.
  assert (snlls Toy.collab Toy.odd_solver_nonneg
          = (Raise (NameError "linSolver"),
             snd (snlls Toy.collab Toy.odd_solver_nonneg))) as Hrun
    by (apply injective_projections; [vm_compute; reflexivity | reflexivity]).
  assert (snlls Toy.collab Toy.crossed_bounds
          = (Raise (ValueError msg_bounds),
             init_world Toy.collab Toy.crossed_bounds)) as Hrun'
    by (vm_compute; reflexivity).
  split; [exact Hrun|].
  pose proof Hrun as Hlater. apply snlls_exceptions in Hlater.
  pose proof Hrun' as Hpre. apply snlls_exceptions in Hpre.
  destruct Hlater as [[Hbad _] | (Hc & Hg & Hl)].
  { unfold preflight_error in Hbad.
    destruct Hbad as [Hb | [Hb | [Hb | [Hb | Hb]]]]; discriminate. }
  split; [exact Hc|]. split; [exact Hg|]. split; [exact Hl|].
  split; [exact Hrun'|].
  split; [|vm_compute; reflexivity].
  destruct Hpre as [[Hp _] | (Hc' & _)]; [exact Hp|].
  vm_compute in Hc'. discriminate.
Defined.

(** ** Unknown names in a call of [snlls] *)

(** Two calls whose objectives agree, and whose uncertainty analyses agree
    or are off, end alike. *)
Section NamesCongruence.

Context {F Stat : Type} {arithF : Arith F} {libmF : Libm F} {orderF : Order F}.
Variable E : Collaborators F Stat.
Variable a : Args F.
Variables rt solver : pystr.

Hypothesis same_objective :
  forall p w,
    ResidualsFcn E (with_names rt solver a) p w = ResidualsFcn E a p w.
Hypothesis same_uncertainty : uqanalysis a = false \/ rt = regtype a.

Lemma bind_ext {S A B} (m m' : M S A) (k k' : A -> M S B) (s : S) :
  m s = m' s -> (forall x s1, k x s1 = k' x s1) -> bind m k s = bind m' k' s.
Proof.
  intros Hm Hk. unfold bind. rewrite Hm.
  destruct (m' s) as [[x|e] s1]; [apply Hk | reflexivity].
Qed.

Lemma lsq_after_names (s : lsq_solver F) (fuel : nat)
    (hist : list (vec F * vec F)) (w : world F) :
  lsq_after E (with_names rt solver a) s fuel hist w = lsq_after E a s fuel hist w.
Proof.
  revert hist w. induction fuel as [|k IH]; intros hist w; simpl;
    [reflexivity|].
  apply bind_ext; [reflexivity|]. intros [x|] w1; [|reflexivity].
  apply bind_ext; [apply same_objective|]. intros r w2. apply IH.
Qed.

Lemma least_squares_names (x0 : vec F) (w : world F) :
  least_squares E (with_names rt solver a) x0 w = least_squares E a x0 w.
Proof.
  unfold least_squares.
  apply bind_ext; [reflexivity|]. intros n w1.
  apply bind_ext; [reflexivity|]. intros [] w2. cbv zeta.
  apply bind_ext; [reflexivity|]. intros x1 w3.
  apply bind_ext; [apply same_objective|]. intros r w4.
  apply bind_ext; [apply lsq_after_names | reflexivity].
Qed.

Lemma multistart_loop_names (seeds : list (vec F))
    (runs : list (attempt (F := F))) (w : world F) :
  multistart_loop E (with_names rt solver a) seeds runs w
  = multistart_loop E a seeds runs w.
Proof.
  revert runs w. induction seeds as [|s rest IH]; intros runs w;
    [reflexivity|].
  rewrite !multistart_loop_step, least_squares_names.
  destruct (least_squares E a s w) as [[[x cost]|e] w1]; [apply IH | reflexivity].
Qed.

Lemma snlls_names : snlls E (with_names rt solver a) = snlls E a.
Proof.
  unfold snlls, snlls_body.
  apply bind_ext; [reflexivity|]. intros [] w1.
  apply bind_ext; [reflexivity|]. intros [] w2.
  unfold search_and_report.
  apply bind_ext; [reflexivity|]. intros seeds w3.
  apply bind_ext; [apply multistart_loop_names|]. intros runs w4.
  destruct same_uncertainty as [Huq | ->]; [|reflexivity].
  change (uqanalysis (with_names rt solver a)) with (uqanalysis a).
  rewrite Huq. reflexivity.
Qed.

End NamesCongruence.

Section UnknownNames.

Context {F Stat : Type} {arithF : Arith F} {libmF : Libm F} {orderF : Order F}.
Variable E : Collaborators F Stat.
Variable a : Args F.

(** Where no branch of lines 183-188 is reached, the solver name is not
    read. *)
Lemma linSolver_free (solver : pystr) :
  linearConstrained E a && nonNegativeOnly E a = false ->
  linSolver E (with_names (regtype a) solver a) = linSolver E a.
Proof.
  intros Hfree. unfold linSolver.
  change (linearConstrained E (with_names (regtype a) solver a))
    with (linearConstrained E a).
  change (nonNegativeOnly E (with_names (regtype a) solver a))
    with (nonNegativeOnly E a).
  destruct (linearConstrained E a); [|reflexivity].
  simpl in Hfree |- *. rewrite Hfree. reflexivity.
Qed.

Lemma ResidualsFcn_free_solver (solver : pystr) (p : vec F) (w : world F) :
  linearConstrained E a && nonNegativeOnly E a = false ->
  ResidualsFcn E (with_names (regtype a) solver a) p w = ResidualsFcn E a p w.
Proof.
  intros Hfree. pose proof (linSolver_free solver Hfree) as Hlin.
  unfold ResidualsFcn, residual, call_linSolver. rewrite Hlin. reflexivity.
Qed.

(** Without the penalty the objective reads [regtype] only to hand it to
    [dl.lsqcomponents]. *)
Lemma ResidualsFcn_free_regtype (rt : pystr) (p : vec F) (w : world F) :
  truthy (includePenalty E a) = false ->
  (forall y A L alpha wts rt1 rt2,
     lsqcomponents E y A L alpha wts rt1 = lsqcomponents E y A L alpha wts rt2) ->
  ResidualsFcn E (with_names rt (nnlsSolver a) a) p w = ResidualsFcn E a p w.
Proof.
  intros Hpen Hlsq. rewrite !ResidualsFcn_entered. unfold bind.
  rewrite (regularization_off E (with_names rt (nnlsSolver a) a)) by exact Hpen.
  rewrite (regularization_off E a) by exact Hpen.
  unfold residual.
  change (includePenalty E (with_names rt (nnlsSolver a) a))
    with (includePenalty E a).
  rewrite Hpen.
  rewrite (Hlsq _ _ _ _ _ (regtype (with_names rt (nnlsSolver a) a)) (regtype a)).
  reflexivity.
Qed.

(** A call that returns has evaluated the objective with success. *)
Lemma snlls_Ok_evaluation (out : output F Stat) (w : world F) :
  snlls E a = (Ok out, w) ->
  exists p r w0 w1, ResidualsFcn E a p w0 = (Ok r, w1).
Proof.
  intros Hrun.
  destruct (snlls_returns _ _ Hrun)
    as (seeds & runs & w1 & g & yfit & _ & Hloop & Hmin & _).
  assert (seeds <> []) as Hne.
  { intros ->. simpl in Hloop. inversion Hloop; subst. discriminate. }
  destruct (multistart_loop_last _ _ _ _ Hloop Hne)
    as (p & r & w0 & _ & _ & _ & Hlast & _).
  eauto.
Qed.

Lemma ResidualsFcn_first_unbound (p : vec F) (w : world F) :
  linSolver E a = None ->
  check (cl w) = false ->
  fst (ResidualsFcn E a p w) = Raise (NameError "linSolver").
Proof.
  intros Hnone Hchk. rewrite ResidualsFcn_entered. unfold bind.
  set (w1 := {| cl := cl w; events := events w ++ [EvResiduals p] |}).
  assert (exists alpha w2, regularization E a (Amodel E p) p w1 = (Ok alpha, w2))
    as (alpha & w2 & ->).
  { unfold regularization, select_alpha.
    destruct (truthy (includePenalty E a)); [|do 2 eexists; reflexivity].
    destruct (regparam a) as [name|v]; [|do 2 eexists; reflexivity].
    unfold bind, read, w1. simpl. rewrite Hchk. simpl.
    do 2 eexists; reflexivity. }
  now rewrite residual_unbound.
Qed.

(** An [UnboundLocalError] or a [NameError] that [dl.utils.multistarts] did
    not raise comes after the non-linear solver was entered. *)
Lemma unbound_names_are_late (e : exn) (w : world F) :
  snlls E a = (Raise e, w) ->
  e = UnboundLocalError "resreg" \/ e = NameError "linSolver" ->
  multiStartPar0 E a <> Raise e ->
  starts (events w) <> [].
Proof.
  intros Hrun He Hseed.
  assert (events w = events (snd (snlls E a))) as -> by now rewrite Hrun.
  rewrite snlls_events.
  unfold snlls, snlls_body in Hrun.
  apply bind_Raise in Hrun as [Hchk | ([] & w0 & Hchk & Hrun)].
  { apply lift_Raise in Hchk as [Hchk _]. apply check_bounds_raises in Hchk.
    unfold preflight_error in Hchk.
    destruct He as [-> | ->];
      destruct Hchk as [Hb | [Hb | [Hb | [Hb | Hb]]]]; discriminate. }
  apply lift_Ok in Hchk as [Hchk ->].
  apply bind_Raise in Hrun as [Hgate | ([] & w0 & Hgate & Hrun)].
  { apply lift_Raise in Hgate as [Hgate _]. unfold multistart_gate in Hgate.
    destruct (_ && _); inversion Hgate. destruct He as [-> | ->]; discriminate. }
  apply lift_Ok in Hgate as [Hgate ->].
  rewrite Hchk, Hgate.
  unfold search_and_report in Hrun.
  apply bind_Raise in Hrun as [Hs | (seeds & w1 & Hs & Hrun)].
  { apply lift_Raise in Hs as [Hs _]. contradiction. }
  apply lift_Ok in Hs as [Hs ->]. rewrite Hs.
  destruct (multistart_loop_prefix E a seeds [] (init_world E a))
    as (k & evs & Hev & Hsk & _ & Hne & _ & _).
  assert (seeds <> [] /\ is_ok (py_int (nonLinMaxIter a)) = true) as [Hseeds Hint].
  { apply bind_Raise in Hrun as [Hloop | (runs & w2 & Hloop & Hrun)].
    - destruct seeds as [|s rest]; [discriminate|].
      split; [discriminate|].
      destruct (py_int (nonLinMaxIter a)) as [n|e'] eqn:Hint; [reflexivity|].
      rewrite multistart_loop_step, (least_squares_no_cap E a s _ Hint) in Hloop.
      inversion Hloop; subst e'. unfold py_int in Hint.
      destruct (fisnan (nonLinMaxIter a));
        [|destruct (fisinf (nonLinMaxIter a))];
        inversion Hint; subst e; destruct He; discriminate.
    - apply report_raises in Hrun as [_ Hruns]. specialize (Hruns He).
      destruct seeds as [|s rest].
      + simpl in Hloop. inversion Hloop; subst. contradiction.
      + split; [discriminate|].
        rewrite multistart_loop_step in Hloop.
        destruct (least_squares E a s (init_world E a)) as [[[x c]|e'] w3] eqn:Hls;
          [|discriminate].
        eapply least_squares_Ok_int; eassumption. }
  destruct (Hne Hseeds Hint) as [_ Hk].
  rewrite Hev. simpl. rewrite Hsk.
  destruct seeds as [|s rest]; [congruence|].
  destruct k as [|k]; [lia|]. discriminate.
Qed.

(** C9, as the code has it.  [snlls] does not validate the two names: the
    bounds check, the multi-start guard and the call of [multistarts] do
    not read them.  For a [regtype] that is none of the three literals,
    every call of [_augment] raises the [UnboundLocalError] of [resreg]:
    with the penalty included no evaluation of the objective returns and
    [snlls] does not return, and with the uncertainty analysis [snlls] does
    not return either; with neither, [snlls] ends as it does for any other
    [regtype], as far as [dl.lsqcomponents] does not tell them apart.  For
    an [nnlsSolver] that is none of the three literals and a linear problem
    that is non-negative-only, [linSolver] is unbound, no evaluation of the
    objective returns, the first raises the [NameError], and [snlls] does
    not return; for any other linear problem [snlls] ends as it does for
    any other [nnlsSolver].  An [UnboundLocalError] or a [NameError] that
    comes out of [snlls] was raised after the non-linear solver was entered,
    unless it is what [multistarts] raised. *)
Theorem unknown_names_not_checked :
  (forall rt solver,
     check_bounds E (with_names rt solver a) = check_bounds E a
     /\ multistart_gate (with_names rt solver a) = multistart_gate a
     /\ multiStartPar0 E (with_names rt solver a) = multiStartPar0 E a)
  /\ (known_regtype (regtype a) = false ->
      (forall res J alpha L x eta W,
         _augment res J (regtype a) alpha L x eta W
         = Raise (UnboundLocalError "resreg"))
      /\ (truthy (includePenalty E a) = true ->
          (forall p w, is_ok (fst (ResidualsFcn E a p w)) = false)
          /\ is_ok (fst (snlls E a)) = false)
      /\ (uqanalysis a = true -> is_ok (fst (snlls E a)) = false))
  /\ (truthy (includePenalty E a) = false ->
      uqanalysis a = false ->
      (forall y A L alpha wts rt1 rt2,
         lsqcomponents E y A L alpha wts rt1 = lsqcomponents E y A L alpha wts rt2) ->
      forall rt, snlls E (with_names rt (nnlsSolver a) a) = snlls E a)
  /\ (known_nnlsSolver (nnlsSolver a) = false ->
      linearConstrained E a && nonNegativeOnly E a = true ->
      linSolver E a = None
      /\ (forall p w, is_ok (fst (ResidualsFcn E a p w)) = false)
      /\ (forall p w, check (cl w) = false ->
            fst (ResidualsFcn E a p w) = Raise (NameError "linSolver"))
      /\ is_ok (fst (snlls E a)) = false)
  /\ (linearConstrained E a && nonNegativeOnly E a = false ->
      forall solver, snlls E (with_names (regtype a) solver a) = snlls E a)
  /\ (forall e w,
        snlls E a = (Raise e, w) ->
        e = UnboundLocalError "resreg" \/ e = NameError "linSolver" ->
        multiStartPar0 E a <> Raise e ->
        starts (events w) <> []).
Proof.
  assert (forall (P : Prop),
            (forall out w, snlls E a = (Ok out, w) -> P -> False) ->
            P -> is_ok (fst (snlls E a)) = false) as Hnever.
  { intros P HP Hp. destruct (snlls E a) as [[out|e] w] eqn:Hrun; [|reflexivity].
    exfalso. eapply HP; eauto. }
  split; [intros rt solver; repeat split|].
  split.
  { intros Hk.
    assert (forall res J alpha L x eta W,
              _augment res J (regtype a) alpha L x eta W
              = Raise (UnboundLocalError "resreg")) as Haug.
    { intros. unfold _augment. now rewrite penalty_terms_unknown. }
    split; [exact Haug|]. split.
    - intros Hpen. split.
      + intros p w. now apply ResidualsFcn_unknown_regtype.
      + apply (Hnever True); [|exact I]. intros out w Hrun _.
        destruct (snlls_Ok_evaluation Hrun) as (p & r & w0 & w1 & Hev).
        pose proof (ResidualsFcn_unknown_regtype E a p w0 Hk Hpen) as Hno.
        rewrite Hev in Hno. discriminate.
    - intros Huq. apply (Hnever True); [|exact I]. intros out w Hrun _.
      destruct (snlls_returns _ _ Hrun)
        as (seeds & runs & w1 & g & yfit & _ & _ & _ & _ & _ & _ & _ & _ & _ & Hq).
      destruct (Hq Huq) as (res & J & res' & J' & _ & _ & Hyes & _).
      rewrite Haug in Hyes. discriminate. }
  split.
  { intros Hpen Huq Hlsq rt. apply snlls_names; [|left; exact Huq].
    intros p w. now apply ResidualsFcn_free_regtype. }
  split.
  { intros Hk Hnn.
    destruct (linSolver_unknown E a Hk) as [Hnone _]. specialize (Hnone Hnn).
    split; [exact Hnone|]. split.
    - intros p w. now apply ResidualsFcn_unbound.
    - split; [intros p w; now apply ResidualsFcn_first_unbound|].
      apply (Hnever True); [|exact I]. intros out w Hrun _.
      destruct (snlls_Ok_evaluation Hrun) as (p & r & w0 & w1 & Hev).
      pose proof (ResidualsFcn_unbound E a p w0 Hnone) as Hno.
      rewrite Hev in Hno. discriminate. }
  split.
  { intros Hfree solver. apply snlls_names; [|right; reflexivity].
    intros p w. now apply ResidualsFcn_free_solver. }
  intros e w. apply unbound_names_are_late.
Qed.

End UnknownNames.

(** Instances of C9, as the code has it: the unknown names of the calls
    below. *)
Lemma unknown_names_not_checked_witness :
  known_regtype (regtype Toy.odd_regtype_penalized) = false
  /\ truthy (includePenalty Toy.collab Toy.odd_regtype_penalized) = true
  /\ is_ok (fst (snlls Toy.collab Toy.odd_regtype_penalized)) = false
  /\ known_regtype (regtype Toy.odd_regtype) = false
  /\ uqanalysis Toy.odd_regtype = true
  /\ is_ok (fst (snlls Toy.collab Toy.odd_regtype)) = false
  /\ snlls Toy.collab Toy.odd_regtype_unused = snlls Toy.collab Toy.plain
  /\ known_nnlsSolver (nnlsSolver Toy.odd_solver_nonneg) = false
  /\ linearConstrained Toy.collab Toy.odd_solver_nonneg
     && nonNegativeOnly Toy.collab Toy.odd_solver_nonneg = true
  /\ linSolver Toy.collab Toy.odd_solver_nonneg = None
  /\ is_ok (fst (snlls Toy.collab Toy.odd_solver_nonneg)) = false
  /\ starts (events (snd (snlls Toy.collab Toy.odd_solver_nonneg))) <> []
  /\ known_nnlsSolver (nnlsSolver Toy.odd_solver) = false
  /\ snlls Toy.collab Toy.odd_solver = snlls Toy.collab Toy.defaults.
Proof.
  assert (known_regtype (regtype Toy.odd_regtype_penalized) = false) as Hrt
    by reflexivity.
  assert (truthy (includePenalty Toy.collab Toy.odd_regtype_penalized) = true)
    as Hpen by (vm_compute; reflexivity).
  assert (known_regtype (regtype Toy.odd_regtype) = false) as Hrt' by reflexivity.
  assert (uqanalysis Toy.odd_regtype = true) as Huq by reflexivity.
  assert (known_nnlsSolver (nnlsSolver Toy.odd_solver_nonneg) = false) as Hs1
    by reflexivity.
  assert (linearConstrained Toy.collab Toy.odd_solver_nonneg
          && nonNegativeOnly Toy.collab Toy.odd_solver_nonneg = true) as Hnn
    by (vm_compute; reflexivity).
  assert (known_nnlsSolver (nnlsSolver Toy.odd_solver) = false) as Hs2
    by reflexivity.
  assert (linearConstrained Toy.collab Toy.defaults
          && nonNegativeOnly Toy.collab Toy.defaults = false) as Hfree
    by (vm_compute; reflexivity).
  assert (truthy (includePenalty Toy.collab Toy.plain) = false) as Hoff
    by (vm_compute; reflexivity).
  pose proof (unknown_names_not_checked Toy.collab Toy.odd_regtype_penalized)
    as (_ & Hregtype & _).
  pose proof (unknown_names_not_checked Toy.collab Toy.odd_regtype)
    as (_ & Hregtype' & _).
  pose proof (unknown_names_not_checked Toy.collab Toy.plain)
    as (_ & _ & Hunused & _).
  pose proof (unknown_names_not_checked Toy.collab Toy.odd_solver_nonneg)
    as (_ & _ & _ & Hsolver1 & _ & Hlate).
  pose proof (unknown_names_not_checked Toy.collab Toy.defaults)
    as (_ & _ & _ & _ & Hsolver2 & _).
  destruct (Hsolver1 Hs1 Hnn) as (Hnone & _ & _ & Hfail).
  split; [exact Hrt|]. split; [exact Hpen|].
  split; [exact (proj2 (proj1 (proj2 (Hregtype Hrt)) Hpen))|].
  split; [exact Hrt'|]. split; [exact Huq|].
  split; [exact (proj2 (proj2 (Hregtype' Hrt')) Huq)|].
  split; [exact (Hunused Hoff eq_refl (fun _ _ _ _ _ _ _ => eq_refl) (lit "tikh"))|].
  split; [exact Hs1|]. split; [exact Hnn|]. split; [exact Hnone|].
  split; [exact Hfail|].
  split.
  { destruct (snlls Toy.collab Toy.odd_solver_nonneg) as [r w] eqn:Hrun.
    assert (r = Raise (NameError "linSolver")) as ->
      by (apply (f_equal fst) in Hrun; vm_compute in Hrun; now subst r).
    apply (Hlate _ _ eq_refl); [right; reflexivity|].
    vm_compute. discriminate. }
  split; [exact Hs2|].
  exact (Hsolver2 Hfree (lit "scipy")).
Defined.

(** The claim C9 fails on these calls.  An unknown solver name is ignored
    when the linear problem is unconstrained, and an unknown penalty type is
    ignored when neither the penalty nor the uncertainty analysis is used:
    both calls return a fit.  Where the names matter, the call fails inside
    the first evaluation of the objective by the non-linear solver, with a
    [NameError] or an [UnboundLocalError], or, without a penalty, after the
    non-linear solver has finished, in the uncertainty analysis. *)
Lemma unknown_names_counterexample :
  known_nnlsSolver (nnlsSolver Toy.odd_solver) = false
  /\ is_ok (fst (snlls Toy.collab Toy.odd_solver)) = true
  /\ known_regtype (regtype Toy.odd_regtype_unused) = false
  /\ is_ok (fst (snlls Toy.collab Toy.odd_regtype_unused)) = true
  /\ fst (snlls Toy.collab Toy.odd_solver_nonneg) = Raise (NameError "linSolver")
  /\ events (snd (snlls Toy.collab Toy.odd_solver_nonneg))
     = [EvLeastSquares [1%float]; EvResiduals [1%float]]
  /\ fst (snlls Toy.collab Toy.odd_regtype_penalized)
     = Raise (UnboundLocalError "resreg")
  /\ events (snd (snlls Toy.collab Toy.odd_regtype_penalized))
     = [EvLeastSquares [1%float]; EvResiduals [1%float];
        EvSelregparam [1%float]; EvLinSolver]
  /\ fst (snlls Toy.collab Toy.odd_regtype) = Raise (UnboundLocalError "resreg")
  /\ events (snd (snlls Toy.collab Toy.odd_regtype))
     = [EvLeastSquares [1%float]; EvResiduals [1%float]; EvLinSolver].
Proof. repeat split; vm_compute; reflexivity. Qed.
